(** * go-metrics: float64 samples

    A shallow embedding of [sample_float64.go]: the statistics functions
    over [[]float64], the decay heap [expDecaySampleHeapFloat64], the two
    reservoirs [ExpDecaySampleFloat64] and [UniformSampleFloat64], and the
    read-only [SampleSnapshotFloat64].

    - [float64] is Rocq's primitive binary64 [float]; comparisons and
      arithmetic are the IEEE 754 ones, NaN included.
    - [int64] is [Z] with the wrap-around written out ([wrap64]).
    - A [[]float64] is a slice header (pointer, length) over a backing
      array held in a store, so that copies and aliases are told apart.
    - A panic is a result of its own, carrying the state it leaves behind. *)

From Stdlib Require Import ZArith Uint63 Floats Lia Permutation Sorted.
From stdpp Require Import gmap list strings.

Local Open Scope Z_scope.

(** ** The Go runtime *)

(** The panics this file can raise: four from the runtime, and the explicit
    [panic("...")] of the snapshot.  [out_of_fuel] is not a Go panic: it marks
    the bound of a loop of the model, and is shown never to be reached. *)
Inductive panic : Type :=
| index_out_of_range
| slice_bounds_out_of_range
| makeslice_out_of_range
| invalid_argument_to_Int63n
| panic_msg (msg : string)
| out_of_fuel.

(** A call either returns a value or panics; both leave a state. *)
Inductive outcome (S A : Type) : Type :=
| Done (a : A) (st : S)
| Panicked (e : panic) (st : S).
Arguments Done {S A} a st.
Arguments Panicked {S A} e st.

Definition state_of {S A} (o : outcome S A) : S :=
  match o with Done _ st => st | Panicked _ st => st end.

Definition panicked {S A} (o : outcome S A) : bool :=
  match o with Done _ _ => false | Panicked _ _ => true end.

(** The state and panic monad in which the methods are written. *)
Definition M (S A : Type) : Type := S -> outcome S A.

Definition throw {S A} (e : panic) : M S A := fun st => Panicked e st.
Definition get {S} : M S S := fun st => Done st st.
Definition put {S} (st : S) : M S unit := fun _ => Done tt st.

#[global] Instance M_ret {S} : MRet (M S) := fun A a st => Done a st.
#[global] Instance M_bind {S} : MBind (M S) :=
  fun A B f m st => match m st with
                    | Done a st' => f a st'
                    | Panicked e st' => Panicked e st'
                    end.

(** [int64]: two's complement on 64 bits. *)
Definition min_int64 : Z := - 2 ^ 63.
Definition max_int64 : Z := 2 ^ 63 - 1.
Definition wrap64 (z : Z) : Z := (z + 2 ^ 63) mod 2 ^ 64 - 2 ^ 63.
Definition in_int64 (z : Z) : bool := (min_int64 <=? z) && (z <=? max_int64).

Lemma wrap64_id z : min_int64 <= z <= max_int64 -> wrap64 z = z.
Proof.
  unfold wrap64, min_int64, max_int64. intros H.
  rewrite Z.mod_small; lia.
Qed.

Lemma wrap64_range z : min_int64 <= wrap64 z <= max_int64.
Proof.
  unfold wrap64, min_int64, max_int64.
  pose proof (Z.mod_pos_bound (z + 2 ^ 63) (2 ^ 64)). lia.
Qed.

(** ** float64 *)

Module F64.

(** [float64(z)] for an int64 [z]: the nearest binary64, ties to even. *)
Definition of_int (z : Z) : float :=
  if z =? - 2 ^ 63 then (-0x1p63)%float
  else if z <? 0 then (- of_uint63 (Uint63.of_Z (- z)))%float
  else of_uint63 (Uint63.of_Z z).

(** The integer part of a finite float, fraction discarded. *)
Definition trunc (x : float) : option Z :=
  match Prim2SF x with
  | S754_zero _ => Some 0
  | S754_finite sg m e =>
      let a := Z.shiftl (Zpos m) e in Some (if sg then - a else a)
  | _ => None
  end.

(** [int(x)]: truncation towards zero.  When the value does not fit (NaN,
    infinities, beyond int64) Go leaves the result to the implementation;
    [undef] is that result (amd64 gives [min_int64]). *)
Definition to_int (undef : Z) (x : float) : Z :=
  match trunc x with
  | Some z => if in_int64 z then z else undef
  | None => undef
  end.

(** The greatest integer not above a finite float. *)
Definition floorZ (x : float) : option Z :=
  match Prim2SF x with
  | S754_zero _ => Some 0
  | S754_finite sg m e => Some (Z.shiftl (if sg then Zneg m else Zpos m) e)
  | _ => None
  end.

(** [math.Floor]: the greatest integer value not above [x]; NaN,
    infinities and zeros are returned as they are. *)
Definition Floor (x : float) : float :=
  match Prim2SF x with
  | S754_finite sg m e =>
      if 0 <=? e then x
      else of_int (Z.shiftl (if sg then Zneg m else Zpos m) e)
  | _ => x
  end.

(** [math.MaxFloat64]. *)
Definition MaxFloat64 : float := 0x1.fffffffffffffp+1023%float.

(** A float that is not NaN compares with every other such float. *)
Definition ordered (x : float) : Prop := is_nan x = false.

(** *** The order on floats that are not NaN *)

Definition lex3 (a b : Z * Z * Z) : comparison :=
  match a, b with
  | (a1, a2, a3), (b1, b2, b3) =>
      match a1 ?= b1 with
      | Eq => match a2 ?= b2 with Eq => a3 ?= b3 | c => c end
      | c => c
      end
  end.

(** Sign class, exponent and mantissa: comparing ranks compares floats. *)
Definition rank (x : spec_float) : Z * Z * Z :=
  match x with
  | S754_nan => (0, 0, 0)
  | S754_zero _ => (0, 0, 0)
  | S754_infinity true => (-2, 0, 0)
  | S754_infinity false => (2, 0, 0)
  | S754_finite true m e => (-1, - e, Zneg m)
  | S754_finite false m e => (1, e, Zpos m)
  end.

Definition lex_le (a b : Z * Z * Z) : Prop :=
  a.1.1 < b.1.1 \/
  (a.1.1 = b.1.1 /\ (a.1.2 < b.1.2 \/ (a.1.2 = b.1.2 /\ a.2 <= b.2))).

Definition lex_lt (a b : Z * Z * Z) : Prop :=
  a.1.1 < b.1.1 \/
  (a.1.1 = b.1.1 /\ (a.1.2 < b.1.2 \/ (a.1.2 = b.1.2 /\ a.2 < b.2))).

Lemma SFcompare_rank x y :
  x <> S754_nan -> y <> S754_nan ->
  SFcompare x y = Some (lex3 (rank x) (rank y)).
Proof.
  intros Hx Hy.
  destruct x as [[|]|[|]| |[|] m1 e1], y as [[|]|[|]| |[|] m2 e2];
    try congruence; try reflexivity; cbn [SFcompare rank lex3]; f_equal.
  change (-1 ?= -1) with Eq. cbv iota.
  rewrite Z.compare_opp, (Z.compare_antisym e1 e2).
  destruct (e1 ?= e2); reflexivity.
Qed.

Lemma lex3_le a b : lex3 a b <> Gt <-> lex_le a b.
Proof.
  destruct a as [[a1 a2] a3], b as [[b1 b2] b3]. unfold lex3, lex_le. cbn.
  destruct (Z.compare_spec a1 b1), (Z.compare_spec a2 b2),
    (Z.compare_spec a3 b3); split; intros; try congruence; try lia.
Qed.

Lemma lex3_lt a b : lex3 a b = Lt <-> lex_lt a b.
Proof.
  destruct a as [[a1 a2] a3], b as [[b1 b2] b3]. unfold lex3, lex_lt. cbn.
  destruct (Z.compare_spec a1 b1), (Z.compare_spec a2 b2),
    (Z.compare_spec a3 b3); split; intros; try congruence; try lia.
Qed.

Lemma ordered_spec x : ordered x <-> Prim2SF x <> S754_nan.
Proof.
  unfold ordered, is_nan. rewrite FloatAxioms.eqb_spec. unfold SFeqb.
  destruct (Prim2SF x) as [[|]|[|]| |[|] m e] eqn:E; cbn;
    try (split; [congruence | reflexivity]).
  - split; [discriminate | congruence].
  - rewrite Z.compare_refl, Pos.compare_cont_refl. cbn.
    split; [congruence | reflexivity].
  - rewrite Z.compare_refl, Pos.compare_cont_refl.
    split; [congruence | reflexivity].
Qed.

Lemma nan_dec (a : spec_float) : a = S754_nan \/ a <> S754_nan.
Proof. destruct a; auto; right; discriminate. Qed.

Lemma SFcompare_nan_r a : SFcompare a S754_nan = None.
Proof. destruct a as [[|]|[|]| |[|] m e]; reflexivity. Qed.

Lemma leb_rank x y :
  (x <=? y)%float = true <->
  ordered x /\ ordered y /\ lex_le (rank (Prim2SF x)) (rank (Prim2SF y)).
Proof.
  rewrite FloatAxioms.leb_spec, !ordered_spec, <- lex3_le. unfold SFleb.
  destruct (nan_dec (Prim2SF x)) as [Hx|Hx].
  { rewrite Hx. cbn. split; [discriminate | intros [H _]; congruence]. }
  destruct (nan_dec (Prim2SF y)) as [Hy|Hy].
  { rewrite Hy, SFcompare_nan_r.
    split; [discriminate | intros (_ & H & _); congruence]. }
  rewrite SFcompare_rank by assumption.
  destruct (lex3 _ _);
    (split;
     [ intros H; try discriminate H; repeat split; auto; discriminate
     | intros (_ & _ & H); congruence ]).
Qed.

Lemma ltb_rank x y :
  (x <? y)%float = true <->
  ordered x /\ ordered y /\ lex_lt (rank (Prim2SF x)) (rank (Prim2SF y)).
Proof.
  rewrite FloatAxioms.ltb_spec, !ordered_spec, <- lex3_lt. unfold SFltb.
  destruct (nan_dec (Prim2SF x)) as [Hx|Hx].
  { rewrite Hx. cbn. split; [discriminate | intros [H _]; congruence]. }
  destruct (nan_dec (Prim2SF y)) as [Hy|Hy].
  { rewrite Hy, SFcompare_nan_r.
    split; [discriminate | intros (_ & H & _); congruence]. }
  rewrite SFcompare_rank by assumption.
  destruct (lex3 _ _);
    (split;
     [ intros H; try discriminate H; repeat split; auto; discriminate
     | intros (_ & _ & H); congruence ]).
Qed.

Lemma leb_refl x : ordered x -> (x <=? x)%float = true.
Proof. intros H. apply leb_rank. unfold lex_le. repeat split; auto; lia. Qed.

Lemma leb_trans x y z :
  (x <=? y)%float = true -> (y <=? z)%float = true -> (x <=? z)%float = true.
Proof.
  rewrite !leb_rank. unfold lex_le.
  intros (Hx & _ & H1) (_ & Hz & H2). repeat split; auto. lia.
Qed.

Lemma leb_ordered x y :
  (x <=? y)%float = true -> ordered x /\ ordered y.
Proof. rewrite leb_rank. tauto. Qed.

Lemma ltb_leb x y : (x <? y)%float = true -> (x <=? y)%float = true.
Proof.
  rewrite leb_rank, ltb_rank. unfold lex_le, lex_lt.
  intros (Hx & Hy & H). repeat split; auto. lia.
Qed.

(** Go's [!(x < y)] on two floats that are not NaN is [y <= x]. *)
Lemma not_ltb_leb x y :
  ordered x -> ordered y -> (x <? y)%float = false -> (y <=? x)%float = true.
Proof.
  intros Hx Hy H. apply leb_rank. repeat split; auto.
  destruct (x <? y)%float eqn:E; [discriminate |].
  assert (N : ~ lex_lt (rank (Prim2SF x)) (rank (Prim2SF y))).
  { intros L. assert ((x <? y)%float = true) by (apply ltb_rank; auto).
    congruence. }
  unfold lex_le, lex_lt in *. lia.
Qed.

Lemma ltb_irrefl_leb x y :
  (x <=? y)%float = true -> (y <? x)%float = false.
Proof.
  rewrite leb_rank. intros (Hx & Hy & H).
  destruct (y <? x)%float eqn:E; [| reflexivity].
  apply ltb_rank in E. unfold lex_le, lex_lt in *. lia.
Qed.

(** With a NaN on either side every comparison is false. *)
Lemma ltb_nan_l x y : is_nan x = true -> (x <? y)%float = false.
Proof.
  intros H. destruct (x <? y)%float eqn:E; [| reflexivity].
  apply ltb_rank in E. unfold ordered in E. destruct E. congruence.
Qed.

Lemma leb_nan_r x y : is_nan y = true -> (x <=? y)%float = false.
Proof.
  intros H. destruct (x <=? y)%float eqn:E; [| reflexivity].
  apply leb_rank in E. unfold ordered in E. destruct E as (_ & E & _).
  congruence.
Qed.

(** *** Integers and floats *)

Lemma iter_xO_val m k : Zpos (Pos.iter xO m k) = Zpos m * 2 ^ Zpos k.
Proof.
  induction k as [|k IH] using Pos.peano_ind.
  - cbn. lia.
  - rewrite Pos.iter_succ, Pos2Z.inj_succ, Z.pow_succ_r by lia. lia.
Qed.

Lemma digits2_iter_xO m k :
  Zpos (digits2_pos (Pos.iter xO m k)) = Zpos (digits2_pos m) + Zpos k.
Proof.
  induction k as [|k IH] using Pos.peano_ind.
  - cbn. lia.
  - rewrite Pos.iter_succ. cbn [digits2_pos]. rewrite Pos2Z.inj_succ, IH. lia.
Qed.

Lemma digits2_bounds m :
  2 ^ (Zpos (digits2_pos m) - 1) <= Zpos m < 2 ^ Zpos (digits2_pos m).
Proof.
  induction m as [m IH|m IH|]; cbn [digits2_pos].
  - rewrite Pos2Z.inj_succ.
    replace (Z.succ (Zpos (digits2_pos m)) - 1) with (Z.succ (Zpos (digits2_pos m) - 1)) by lia.
    rewrite !Z.pow_succ_r by lia. lia.
  - rewrite Pos2Z.inj_succ.
    replace (Z.succ (Zpos (digits2_pos m)) - 1) with (Z.succ (Zpos (digits2_pos m) - 1)) by lia.
    rewrite !Z.pow_succ_r by lia. lia.
  - cbn. lia.
Qed.

Lemma normalize_small (n : positive) :
  Zpos n < 2 ^ 53 ->
  exists m e,
    binary_normalize prec emax (Zpos n) 0 false = S754_finite false m e /\
    -52 <= e <= 0 /\ Zpos m = Zpos n * 2 ^ (- e) /\ 2 ^ 52 <= Zpos m.
Proof.
  intros Hn.
  pose proof (digits2_bounds n) as Hd.
  set (d := Zpos (digits2_pos n)) in *.
  assert (Hd53 : 1 <= d <= 53).
  { split; [unfold d; lia |].
    destruct (Z_le_gt_dec d 53) as [|G]; [assumption | exfalso].
    assert (2 ^ 53 <= 2 ^ (d - 1)) by (apply Z.pow_le_mono_r; lia). lia. }
  cbn [binary_normalize]. unfold binary_round.
  replace (fexp prec emax (Zpos (digits2_pos n) + 0)) with (d - 53)
    by (unfold fexp, SpecFloat.emin, prec, emax; fold d; lia).
  assert (Hal : exists mz, shl_align n 0 (d - 53) = (mz, d - 53) /\
                 Zpos mz = Zpos n * 2 ^ (53 - d) /\
                 Zpos (digits2_pos mz) = 53).
  { unfold shl_align. destruct (d - 53 - 0) as [|p|p] eqn:E; try lia.
    - exists n. replace (d - 53) with 0 by lia. replace (53 - d) with 0 by lia.
      repeat split; [lia | fold d; lia].
    - exists (Pos.iter xO n p). split; [reflexivity |].
      rewrite iter_xO_val, digits2_iter_xO. fold d.
      replace (53 - d) with (Zpos p) by lia. split; lia. }
  destruct Hal as (mz & -> & Hmz & Hdz).
  unfold binary_round_aux, shr_fexp. cbn [Zdigits2]. rewrite Hdz.
  replace (fexp prec emax (53 + (d - 53)) - (d - 53)) with 0
    by (unfold fexp, SpecFloat.emin, prec, emax; lia).
  cbn [shr shr_record_of_loc shr_m loc_of_shr_record round_nearest_even Zdigits2].
  rewrite Hdz.
  replace (fexp prec emax (53 + (d - 53)) - (d - 53)) with 0
    by (unfold fexp, SpecFloat.emin, prec, emax; lia).
  cbn [shr shr_record_of_loc shr_m].
  replace (d - 53 <=? emax - prec) with true
    by (symmetry; apply Z.leb_le; unfold emax, prec; lia).
  exists mz, (d - 53). repeat split; try lia.
  - rewrite Hmz. f_equal. f_equal. lia.
  - rewrite Hmz.
    replace 52 with ((d - 1) + (53 - d)) by lia.
    rewrite Z.pow_add_r by lia. nia.
Qed.

Lemma valid_finite x s m e :
  Prim2SF x = S754_finite s m e ->
  Zpos m < 2 ^ 53 /\ -1074 <= e <= 971 /\ (-1074 < e -> 2 ^ 52 <= Zpos m).
Proof.
  intros E. pose proof (Prim2SF_valid x) as V. rewrite E in V.
  cbn [SpecFloat.valid_binary] in V. unfold bounded, canonical_mantissa in V.
  apply andb_prop in V. destruct V as [V1 V2].
  apply Z.eqb_eq in V1. apply Z.leb_le in V2.
  unfold fexp, SpecFloat.emin, emax, prec in *.
  pose proof (digits2_bounds m) as Hd.
  set (d := Zpos (digits2_pos m)) in *.
  assert (d <= 53) by lia.
  assert (2 ^ d <= 2 ^ 53) by (apply Z.pow_le_mono_r; lia).
  repeat split; try lia.
  intros He. assert (d = 53) by lia. subst d.
  replace (2 ^ 52) with (2 ^ (53 - 1)) by reflexivity. 
  replace 53 with (Z.pos (digits2_pos m)) at 1 by assumption. apply Hd.
Qed.

Lemma Prim2SF_of_int_small n :
  0 < n < 2 ^ 53 ->
  exists m e,
    Prim2SF (of_int n) = S754_finite false m e /\
    -52 <= e <= 0 /\ Zpos m = n * 2 ^ (- e) /\ 2 ^ 52 <= Zpos m.
Proof.
  intros Hn. unfold of_int.
  destruct (Z.eqb_spec n (- 2 ^ 63)) as [|_]; [lia |].
  destruct (Z.ltb_spec n 0) as [|_]; [lia |].
  rewrite of_uint63_spec, Uint63.of_Z_spec.
  assert (HwB : wB = 2 ^ 63) by reflexivity. rewrite HwB, Z.mod_small by lia.
  destruct n as [|p|p]; try lia. apply normalize_small. lia.
Qed.

Lemma not_leb_ltb x y :
  ordered x -> ordered y -> (x <=? y)%float = false -> (y <? x)%float = true.
Proof.
  intros Hx Hy H. apply ltb_rank. repeat split; auto.
  assert (N : ~ lex_le (rank (Prim2SF x)) (rank (Prim2SF y))).
  { intros L. assert ((x <=? y)%float = true) by (apply leb_rank; auto).
    congruence. }
  unfold lex_le, lex_lt in *. lia.
Qed.

Lemma ordered_of_int n : 0 < n < 2 ^ 53 -> ordered (of_int n).
Proof.
  intros Hn. apply ordered_spec.
  destruct (Prim2SF_of_int_small n Hn) as (m & e & -> & _). discriminate.
Qed.

(** Between the two guards of the percentile loop, [int(pos)] is the floor
    of [pos] and a rank inside the collection. *)
Lemma to_int_between undef pos n :
  0 < n < 2 ^ 53 ->
  ordered pos ->
  (pos <? 1)%float = false ->
  (of_int n <=? pos)%float = false ->
  exists r, floorZ pos = Some r /\ to_int undef pos = r /\ 1 <= r <= n - 1.
Proof.
  intros Hn Hpos H1 H2.
  apply not_ltb_leb in H1; [| assumption | reflexivity].
  apply not_leb_ltb in H2; [| apply ordered_of_int; assumption | assumption].
  apply leb_rank in H1. destruct H1 as (_ & _ & H1).
  apply ltb_rank in H2. destruct H2 as (_ & _ & H2).
  destruct (Prim2SF_of_int_small n Hn) as (mN & eN & EN & HeN & HmN & HmN').
  rewrite EN in H2.
  change (Prim2SF 1) with (S754_finite false 4503599627370496 (-52)) in H1.
  unfold floorZ, to_int, trunc.
  destruct (Prim2SF pos) as [sg|[|]| |[|] m e] eqn:E;
    cbn [rank] in H1, H2; unfold lex_le, lex_lt in H1, H2; cbn in H1, H2;
    try lia.
  destruct (valid_finite _ _ _ _ E) as (Hm & He & Hnorm).
  assert (Hm52 : 2 ^ 52 <= Zpos m) by (apply Hnorm; lia).
  assert (He0 : -52 <= e <= eN) by lia.
  set (r := Z.shiftl (Zpos m) e).
  assert (Hr : r = Zpos m / 2 ^ (- e)).
  { unfold r. rewrite <- Z.shiftr_opp_r. apply Z.shiftr_div_pow2. lia. }
  assert (Hk : 0 < 2 ^ (- e)) by (apply Z.pow_pos_nonneg; lia).
  assert (Hk52 : 2 ^ (- e) <= 2 ^ 52) by (apply Z.pow_le_mono_r; lia).
  assert (Hlo : 1 <= r).
  { rewrite Hr. apply Z.div_le_lower_bound; lia. }
  assert (Hhi : r < n).
  { rewrite Hr. apply Z.div_lt_upper_bound; [lia |].
    destruct (Z.eq_dec e eN) as [->|Hne].
    - nia.
    - assert (2 * 2 ^ (- eN) <= 2 ^ (- e)).
      { replace (- e) with (Z.succ (- eN) + (eN - e - 1)) by lia.
        rewrite Z.pow_add_r, Z.pow_succ_r by lia.
        assert (0 < 2 ^ (eN - e - 1)) by (apply Z.pow_pos_nonneg; lia).
        assert (0 < 2 ^ (- eN)) by (apply Z.pow_pos_nonneg; lia).
        nia. }
      nia. }
  exists r. split; [reflexivity |]. split; [| lia].
  replace (in_int64 r) with true; [reflexivity |].
  symmetry. unfold in_int64, min_int64, max_int64.
  apply andb_true_intro. split; apply Z.leb_le; lia.
Qed.

(** *** A product with a positive integer is not NaN *)

Lemma iter_pos_inv {A} (P : A -> Prop) (f : A -> A) :
  (forall x, P x -> P (f x)) -> forall p x, P x -> P (SpecFloat.iter_pos f p x).
Proof.
  intros Hf. induction p as [p IH|p IH|]; intros x Hx; cbn; auto.
Qed.

Lemma shr_1_nonneg mrs : 0 <= shr_m mrs -> 0 <= shr_m (shr_1 mrs).
Proof.
  destruct mrs as [m r s]. cbn [shr_m]. intros Hm.
  destruct m as [|[p|p|]|p]; cbn; lia.
Qed.

Lemma shr_fexp_nonneg m e l :
  0 <= m -> 0 <= shr_m (fst (shr_fexp prec emax m e l)).
Proof.
  intros Hm. unfold shr_fexp, shr.
  assert (H0 : 0 <= shr_m (shr_record_of_loc m l)).
  { destruct l as [|[| |]]; cbn; assumption. }
  destruct (fexp prec emax (Zdigits2 m + e) - e) as [|p|p]; cbn [fst];
    try assumption.
  apply (iter_pos_inv (fun mrs => 0 <= shr_m mrs)); auto using shr_1_nonneg.
Qed.

Lemma binary_round_aux_not_nan sg m e l :
  0 <= m -> binary_round_aux prec emax sg m e l <> S754_nan.
Proof.
  intros Hm. unfold binary_round_aux.
  pose proof (shr_fexp_nonneg m e l Hm) as H1.
  destruct (shr_fexp prec emax m e l) as [mrs' e']. cbn [fst] in H1.
  set (m' := round_nearest_even (shr_m mrs') (loc_of_shr_record mrs')).
  assert (Hm' : 0 <= m').
  { unfold m', round_nearest_even.
    destruct (loc_of_shr_record mrs') as [|[| |]]; try lia.
    destruct (Z.even (shr_m mrs')); lia. }
  pose proof (shr_fexp_nonneg m' e' loc_Exact Hm') as H2.
  destruct (shr_fexp prec emax m' e' loc_Exact) as [mrs'' e''].
  cbn [fst] in H2.
  destruct (shr_m mrs'') as [|q|q]; try discriminate; try lia.
  destruct (e'' <=? emax - prec); discriminate.
Qed.

Lemma ordered_mul_of_int p n :
  ordered p -> 0 < n < 2 ^ 53 -> ordered (p * of_int n)%float.
Proof.
  intros Hp Hn. apply ordered_spec in Hp. apply ordered_spec.
  rewrite mul_spec.
  destruct (Prim2SF_of_int_small n Hn) as (m & e & -> & _).
  unfold SF64mul, SFmul.
  destruct (Prim2SF p) as [sg|sg| |sg mp ep]; try discriminate; try congruence.
  apply binary_round_aux_not_nan. lia.
Qed.

End F64.

(** ** Slices *)

(** [a[i]] for a Go [int] index: in range or a panic. *)
Definition index {A} (a : list A) (i : Z) : option A :=
  if 0 <=? i then a !! Z.to_nat i else None.

(** ** The statistics functions (sample_float64.go, lines 176-329) *)

(** Each function receives the elements of its slice argument.  All but
    [SamplePercentilesFloat64] only read them; that one sorts the slice it
    is given, so it is written as a computation over the slice's elements. *)

Definition SampleMaxFloat64 (values : list float) : float :=
  if decide (0%nat = length values) then 0%float
  else
    fold_left (fun max v => if (max <? v)%float then v else max)
      values (- F64.MaxFloat64)%float.

Definition SampleMinFloat64 (values : list float) : float :=
  if decide (0%nat = length values) then 0%float
  else
    fold_left (fun min v => if (v <? min)%float then v else min)
      values F64.MaxFloat64.

Definition SampleSumFloat64 (values : list float) : float :=
  fold_left (fun sum v => (sum + v)%float) values 0%float.

Definition SampleMeanFloat64 (values : list float) : float :=
  if decide (0%nat = length values) then 0%float
  else (SampleSumFloat64 values / F64.of_int (Z.of_nat (length values)))%float.

Definition SampleVarianceFloat64 (values : list float) : float :=
  if decide (0%nat = length values) then 0%float
  else
    let m := SampleMeanFloat64 values in
    let sum :=
      fold_left (fun sum v => let d := (v - m)%float in (sum + d * d)%float)
        values 0%float in
    (sum / F64.of_int (Z.of_nat (length values)))%float.

Definition SampleStdDevFloat64 (values : list float) : float :=
  sqrt (SampleVarianceFloat64 values).

Section Percentiles.

(** [sort.Sort] over a [float64Slice], from Go's standard library: what it
    leaves in the slice it is given.  Its contract is stated where used. *)
Variable sort : list float -> list float.

(** What [int(x)] yields when [x] has no [int] value. *)
Variable undef : Z.

(** The body of the loop of [SamplePercentilesFloat64], for one [p], over
    the slice as the sort left it. *)
Definition score (values : list float) (p : float) : option float :=
  let size := Z.of_nat (length values) in
  let pos := (p * F64.of_int (size + 1))%float in
  if (pos <? 1)%float then index values 0
  else if (F64.of_int size <=? pos)%float then index values (size - 1)
  else
    lower ← index values (wrap64 (F64.to_int undef pos - 1));
    upper ← index values (F64.to_int undef pos);
    Some (lower + (pos - F64.Floor pos) * (upper - lower))%float.

Definition SamplePercentilesFloat64 (ps : list float)
  : M (list float) (list float) :=
  fun values =>
    if decide (0 < length values)%nat then
      let values := sort values in
      match mapM (score values) ps with
      | Some scores => Done scores values
      | None => Panicked index_out_of_range values
      end
    else Done (replicate (length ps) 0%float) values.

Definition SamplePercentileFloat64 (p : float) : M (list float) float :=
  scores ← SamplePercentilesFloat64 [p];
  match index scores 0 with
  | Some x => mret x
  | None => throw index_out_of_range
  end.

End Percentiles.

(** An insertion sort, as one function that meets the contract of
    [sort.Sort]; used to run the percentile functions on examples. *)
Fixpoint insert_sorted (x : float) (l : list float) : list float :=
  match l with
  | [] => [x]
  | y :: l' => if (y <? x)%float then y :: insert_sorted x l' else x :: l
  end.

Definition isort (l : list float) : list float :=
  fold_right insert_sorted [] l.

Example SampleMaxFloat64_ex : SampleMaxFloat64 [1; 3; 2]%float = 3%float.
Proof. reflexivity. Qed.

Example SampleMeanFloat64_ex : SampleMeanFloat64 [1; 3; 2]%float = 2%float.
Proof. reflexivity. Qed.

Example SampleVarianceFloat64_ex :
  SampleVarianceFloat64 [1; 3]%float = 1%float.
Proof. reflexivity. Qed.

Example SamplePercentilesFloat64_ex :
  SamplePercentilesFloat64 isort min_int64 [0; 0.5; 0.75; 1]%float
    [40; 10; 30; 20]%float
  = Done [10; 25; 37.5; 40]%float [10; 20; 30; 40]%float.
Proof. vm_compute. reflexivity. Qed.


(** *** The contract of [sort.Sort] *)

(** No element is less than one before it: what [sort.Sort] establishes
    whenever [Less] orders the elements, that is, when none is NaN. *)
Definition sorted (l : list float) : Prop :=
  forall i j x y, (i < j)%nat -> l !! i = Some x -> l !! j = Some y ->
                  (y <? x)%float = false.

Record sort_contract (sort : list float -> list float) : Prop := {
  sort_perm : forall l, sort l ≡ₚ l;
  sort_sorted : forall l, Forall F64.ordered l -> sorted (sort l)
}.

Lemma insert_sorted_perm x l : insert_sorted x l ≡ₚ x :: l.
Proof.
  induction l as [|y l IH]; cbn; [reflexivity |].
  destruct (y <? x)%float; [| reflexivity].
  rewrite IH. apply perm_swap.
Qed.

Lemma isort_perm l : isort l ≡ₚ l.
Proof.
  induction l as [|x l IH]; cbn; [reflexivity |].
  rewrite insert_sorted_perm. now rewrite IH.
Qed.

Lemma sorted_cons x l :
  sorted (x :: l) <->
  Forall (fun y => (y <? x)%float = false) l /\ sorted l.
Proof.
  split.
  - intros H. split.
    + apply Forall_lookup. intros j y Hy. apply (H 0%nat (S j) x y); auto. lia.
    + intros i j a b Hij Ha Hb. apply (H (S i) (S j) a b); auto. lia.
  - intros [H1 H2] i j a b Hij Ha Hb.
    destruct j as [|j]; [lia |]. cbn in Hb.
    destruct i as [|i]; cbn in Ha.
    + inversion Ha; subst. rewrite Forall_lookup in H1. eauto.
    + apply (H2 i j a b); auto. lia.
Qed.

Lemma insert_sorted_sorted x l :
  F64.ordered x -> Forall F64.ordered l -> sorted l ->
  sorted (insert_sorted x l).
Proof.
  intros Hx. induction l as [|y l IH]; intros Hl Hs; cbn.
  - apply sorted_cons. split; [constructor |]. intros i j a b _ Ha. discriminate.
  - apply Forall_cons in Hl. destruct Hl as [Hy Hl].
    apply sorted_cons in Hs. destruct Hs as [Hs1 Hs2].
    destruct (y <? x)%float eqn:E.
    + apply sorted_cons. split; [| auto].
      eapply Permutation_Forall; [symmetry; apply insert_sorted_perm |].
      constructor; [| assumption].
      apply F64.ltb_irrefl_leb. now apply F64.ltb_leb.
    + apply sorted_cons. split; [| apply sorted_cons; auto].
      constructor; [assumption |].
      assert (Hxy : (x <=? y)%float = true) by (apply F64.not_ltb_leb; auto).
      rewrite Forall_forall in Hs1, Hl |- *. intros z Hz.
      apply F64.ltb_irrefl_leb. apply F64.leb_trans with y; [assumption |].
      apply F64.not_ltb_leb; auto.
Qed.

Lemma isort_contract : sort_contract isort.
Proof.
  split; [apply isort_perm |].
  induction l as [|x l IH]; intros Hl; cbn.
  - intros i j a b _ Ha. discriminate.
  - apply Forall_cons in Hl. destruct Hl as [Hx Hl].
    apply insert_sorted_sorted; auto.
    eapply Permutation_Forall; [symmetry; apply isort_perm | assumption].
Qed.

(** ** Empty collections *)

(** C4, as amended: over an empty collection Min, Max, Mean, Sum, Variance
    and StdDev return 0, and the percentile functions return 0 for every
    requested percentile (one 0 per entry of [ps]) without sorting. *)
Theorem empty_sample_statistics :
  SampleMinFloat64 [] = 0%float /\
  SampleMaxFloat64 [] = 0%float /\
  SampleMeanFloat64 [] = 0%float /\
  SampleSumFloat64 [] = 0%float /\
  SampleVarianceFloat64 [] = 0%float /\
  SampleStdDevFloat64 [] = 0%float /\
  (forall sort undef ps,
      SamplePercentilesFloat64 sort undef ps []
      = Done (replicate (length ps) 0%float) []) /\
  (forall sort undef p,
      SamplePercentileFloat64 sort undef p [] = Done 0%float []).
Proof. repeat split. Qed.

(** C4, as stated, fails: asked for one percentile of an empty collection,
    [SamplePercentilesFloat64] returns a result of one element. *)
Lemma empty_sample_percentiles_not_empty :
  ~ (forall sort undef ps,
        SamplePercentilesFloat64 sort undef ps [] = Done [] []).
Proof.
  intros H. specialize (H isort min_int64 [0.5%float]). discriminate H.
Qed.

(** ** Percentiles over a collection that is not empty *)

(** The element of 1-based rank [r]. *)
Definition at_rank (l : list float) (r : Z) : option float := index l (r - 1).

(** The percentile rule in the words of the specification, over the sorted
    arrangement: [score] is the result for [p]. *)
Definition percentile_rule (arranged : list float) (p score : float) : Prop :=
  let n := Z.of_nat (length arranged) in
  let pos := (p * F64.of_int (n + 1))%float in
  if (pos <? 1)%float then head arranged = Some score
  else if (F64.of_int n <=? pos)%float then last arranged = Some score
  else
    exists r lower upper,
      F64.floorZ pos = Some r /\
      at_rank arranged r = Some lower /\
      at_rank arranged (r + 1) = Some upper /\
      score = (lower + (pos - F64.Floor pos) * (upper - lower))%float.

Definition minimum_of (values : list float) (x : float) : Prop :=
  x ∈ values /\ Forall (fun y => (x <=? y)%float = true) values.

Definition maximum_of (values : list float) (x : float) : Prop :=
  x ∈ values /\ Forall (fun y => (y <=? x)%float = true) values.

Lemma index_lookup {A} (l : list A) (i : nat) : index l (Z.of_nat i) = l !! i.
Proof.
  unfold index. destruct (Z.leb_spec 0 (Z.of_nat i)); [| lia].
  now rewrite Nat2Z.id.
Qed.

Lemma index_Some {A} (l : list A) (i : Z) :
  0 <= i < Z.of_nat (length l) -> exists x, index l i = Some x.
Proof.
  intros H. unfold index. destruct (Z.leb_spec 0 i); [| lia].
  apply lookup_lt_is_Some. lia.
Qed.

Lemma index_None {A} (l : list A) (i : Z) :
  ~ (0 <= i < Z.of_nat (length l)) -> index l i = None.
Proof.
  intros H. unfold index. destruct (Z.leb_spec 0 i); [| reflexivity].
  apply lookup_ge_None. lia.
Qed.

Lemma score_rule undef arranged p :
  arranged <> [] ->
  Z.of_nat (length arranged) < 2 ^ 53 - 1 ->
  F64.ordered p ->
  exists s, score undef arranged p = Some s /\ percentile_rule arranged p s.
Proof.
  intros Hne Hlen Hp. unfold score, percentile_rule.
  assert (Hn : 0 < Z.of_nat (length arranged)).
  { destruct arranged; [congruence | cbn; lia]. }
  set (n := Z.of_nat (length arranged)) in *.
  set (pos := (p * F64.of_int (n + 1))%float).
  assert (Hpos : F64.ordered pos) by (apply F64.ordered_mul_of_int; auto; lia).
  destruct (pos <? 1)%float eqn:E1.
  { destruct arranged as [|x l]; [congruence |]. exists x.
    split; reflexivity. }
  destruct (F64.of_int n <=? pos)%float eqn:E2.
  { replace (n - 1) with (Z.of_nat (pred (length arranged))) by lia.
    rewrite index_lookup, <- last_lookup.
    destruct (last arranged) as [x|] eqn:El; [eauto |].
    apply last_None in El. congruence. }
  destruct (F64.to_int_between undef pos n) as (r & Hf & Hr & Hrn);
    auto; try lia.
  rewrite Hr, wrap64_id by (unfold min_int64, max_int64; lia).
  destruct (index_Some arranged (r - 1)) as [lower Hl]; [fold n; lia |].
  destruct (index_Some arranged r) as [upper Hu]; [fold n; lia |].
  rewrite Hl, Hu. cbn. eexists. split; [reflexivity |].
  exists r, lower, upper. unfold at_rank.
  replace (r + 1 - 1) with r by lia. auto.
Qed.

Lemma mapM_rule {A B} (f : A -> option B) (R : A -> B -> Prop) (l : list A) :
  Forall (fun a => exists b, f a = Some b /\ R a b) l ->
  exists k, mapM f l = Some k /\ Forall2 R l k.
Proof.
  induction 1 as [|a l (b & Hb & HR) _ (k & Hk & HF)]; cbn.
  - exists []. split; [reflexivity | constructor].
  - exists (b :: k). rewrite Hb. cbn. rewrite Hk. cbn.
    split; [reflexivity | now constructor].
Qed.

Lemma sorted_head_minimum l x :
  sorted l -> Forall F64.ordered l -> head l = Some x -> minimum_of l x.
Proof.
  intros Hs Ho Hx. destruct l as [|y l]; [discriminate |].
  inversion Hx; subst. split; [left |].
  apply Forall_cons in Ho. destruct Ho as [Hox Ho].
  constructor; [now apply F64.leb_refl |].
  apply sorted_cons in Hs. destruct Hs as [Hs _].
  rewrite Forall_forall in Hs, Ho |- *. intros z Hz.
  apply F64.not_ltb_leb; auto.
Qed.

Lemma sorted_last_maximum l x :
  sorted l -> Forall F64.ordered l -> last l = Some x -> maximum_of l x.
Proof.
  intros Hs Ho Hx. rewrite last_lookup in Hx. split.
  - eapply list_elem_of_lookup_2; eauto.
  - apply Forall_lookup. intros i y Hy.
    assert (Hoy : F64.ordered y) by (rewrite Forall_lookup in Ho; eauto).
    assert (Hox : F64.ordered x) by (rewrite Forall_lookup in Ho; eauto).
    destruct (decide (i = pred (length l))) as [->|Hi].
    + rewrite Hx in Hy. inversion Hy; subst. now apply F64.leb_refl.
    + apply lookup_lt_Some in Hy as Hlt.
      apply F64.not_ltb_leb; auto.
      apply (Hs i (pred (length l)) y x); auto. lia.
Qed.

Lemma minimum_of_perm l l' x : l ≡ₚ l' -> minimum_of l x -> minimum_of l' x.
Proof. intros P [H1 H2]. split; [now rewrite <- P | now rewrite <- P]. Qed.

Lemma maximum_of_perm l l' x : l ≡ₚ l' -> maximum_of l x -> maximum_of l' x.
Proof. intros P [H1 H2]. split; [now rewrite <- P | now rewrite <- P]. Qed.

(** C1, as amended: for a collection that is not empty and percentiles that
    are not NaN, [SamplePercentilesFloat64] sorts the collection once and
    gives every [p] its score by the percentile rule over that one sorted
    arrangement: with [pos = p * (n+1)], the first element when [pos < 1],
    the last when [pos >= n], and otherwise
    [lower + (pos - floor pos) * (upper - lower)] for the elements of ranks
    [floor pos] and [floor pos + 1].  The first and last elements are the
    minimum and the maximum when no value is NaN.  [SamplePercentileFloat64]
    is the same for a single [p]. *)
Theorem SamplePercentilesFloat64_rule sort undef values ps :
  sort_contract sort ->
  values <> [] ->
  Z.of_nat (length values) < 2 ^ 53 - 1 ->
  Forall F64.ordered ps ->
  exists scores,
    SamplePercentilesFloat64 sort undef ps values = Done scores (sort values) /\
    Forall2 (percentile_rule (sort values)) ps scores /\
    (forall p, p ∈ ps ->
       exists s,
         SamplePercentileFloat64 sort undef p values = Done s (sort values) /\
         percentile_rule (sort values) p s) /\
    (Forall F64.ordered values ->
       (forall x, head (sort values) = Some x -> minimum_of values x) /\
       (forall x, last (sort values) = Some x -> maximum_of values x)).
Proof.
  intros [Hperm Hsorted] Hne Hlen Hps.
  assert (Hlen' : length (sort values) = length values)
    by (apply Permutation_length, Hperm).
  assert (Hne' : sort values <> []).
  { intros E. rewrite E in Hlen'. destruct values; [congruence | discriminate]. }
  assert (Hpos : (0 < length values)%nat)
    by (destruct values; [congruence | cbn; lia]).
  assert (Hone : forall p, F64.ordered p ->
            exists s, score undef (sort values) p = Some s /\
                      percentile_rule (sort values) p s).
  { intros p Hp. apply score_rule; auto. rewrite Hlen'. exact Hlen. }
  destruct (mapM_rule (score undef (sort values))
              (percentile_rule (sort values)) ps) as (scores & Hm & HF).
  { eapply Forall_impl; [exact Hps | exact Hone]. }
  exists scores. unfold SamplePercentileFloat64, SamplePercentilesFloat64.
  destruct (decide (0 < length values)%nat) as [_|]; [| lia].
  rewrite Hm. split; [reflexivity |]. split; [exact HF |]. split.
  - intros p Hin. rewrite Forall_forall in Hps.
    destruct (Hone p (Hps p Hin)) as (s & Hs & HR).
    exists s. split; [| exact HR].
    unfold mbind, M_bind. destruct (decide (0 < length values)%nat); [| lia].
    cbn [mapM]. rewrite Hs. reflexivity.
  - intros Hov.
    assert (Hov' : Forall F64.ordered (sort values)).
    { eapply Permutation_Forall; [symmetry; apply Hperm | assumption]. }
    split; intros x Hx.
    + apply minimum_of_perm with (sort values); [apply Hperm |].
      apply sorted_head_minimum; auto.
    + apply maximum_of_perm with (sort values); [apply Hperm |].
      apply sorted_last_maximum; auto.
Qed.

Lemma SamplePercentilesFloat64_rule_witness :
  exists scores,
    SamplePercentilesFloat64 isort min_int64 [0; 0.5; 0.75; 1]%float
      [40; 10; 30; 20]%float
    = Done scores (isort [40; 10; 30; 20]%float) /\
    Forall2 (percentile_rule (isort [40; 10; 30; 20]%float))
      [0; 0.5; 0.75; 1]%float scores /\
    (forall p, p ∈ [0; 0.5; 0.75; 1]%float ->
       exists s,
         SamplePercentileFloat64 isort min_int64 p [40; 10; 30; 20]%float
         = Done s (isort [40; 10; 30; 20]%float) /\
         percentile_rule (isort [40; 10; 30; 20]%float) p s) /\
    (Forall F64.ordered [40; 10; 30; 20]%float ->
       (forall x, head (isort [40; 10; 30; 20]%float) = Some x ->
                  minimum_of [40; 10; 30; 20]%float x) /\
       (forall x, last (isort [40; 10; 30; 20]%float) = Some x ->
                  maximum_of [40; 10; 30; 20]%float x)).
Proof.
  apply (SamplePercentilesFloat64_rule isort min_int64
           [40; 10; 30; 20]%float [0; 0.5; 0.75; 1]%float).
  - apply isort_contract.
  - discriminate.
  - cbn. lia.
  - repeat constructor.
Defined.

(** C1, as stated, fails at [p = NaN]: [pos] is NaN, both guards are false,
    and whatever [int(NaN)] is on the platform one of the two indexings of a
    one-element collection is out of range. *)
Lemma SamplePercentileFloat64_nan_panics :
  ~ (exists undef,
        forall sort values p,
          sort_contract sort -> values <> [] ->
          exists s, SamplePercentileFloat64 sort undef p values
                    = Done s (sort values)).
Proof.
  intros [undef H].
  destruct (H isort [1%float] nan isort_contract) as [s Hs]; [discriminate |].
  revert Hs. unfold SamplePercentileFloat64, SamplePercentilesFloat64.
  unfold mbind, M_bind. cbn [length isort fold_right insert_sorted].
  destruct (decide (0 < 1)%nat) as [_|]; [| lia].
  cbn [mapM]. unfold score. cbn [length].
  change (nan * F64.of_int (Z.of_nat 1 + 1) <? 1)%float with false.
  change (F64.of_int (Z.of_nat 1) <=? nan * F64.of_int (Z.of_nat 1 + 1))%float
    with false.
  cbv iota.
  change (F64.to_int undef (nan * F64.of_int (Z.of_nat 1 + 1))%float)
    with undef.
  destruct (Z.eq_dec undef 0) as [->|Hu].
  - cbn. discriminate.
  - rewrite (index_None [1%float] undef) by (cbn; lia).
    destruct (index [1%float] (wrap64 (undef - 1))); cbn; discriminate.
Qed.

(** ** The decay heap (sample_float64.go, lines 468-541) *)

(** An individual sample in the heap: priority [k], value [v]. *)
Record expDecaySampleFloat64 : Type := mkSample { k : float; v : float }.

#[global] Instance expDecaySampleFloat64_inhabited :
  Inhabited expDecaySampleFloat64 := populate (mkSample 0 0).

Module Heap.

(** [expDecaySampleHeapFloat64]: the slice [h.s], as its backing array [s]
    ([cap(h.s)] elements) and its length [len].  The array is reached only
    through the heap and through the slice header that [Values] hands to
    the owning sample; both see the one array kept here. *)
Record t : Type := mk { s : list expDecaySampleFloat64; len : nat }.

Definition cap (h : t) : nat := length (s h).

(** The elements of [h.s]. *)
Definition items (h : t) : list expDecaySampleFloat64 := take (len h) (s h).

Definition in_bounds (i : Z) (h : t) : bool :=
  (0 <=? i) && (i <? Z.of_nat (len h)).

(** [h.s[i]] *)
Definition load (i : Z) : M t expDecaySampleFloat64 :=
  fun h =>
    match (if in_bounds i h then s h !! Z.to_nat i else None) with
    | Some x => Done x h
    | None => Panicked index_out_of_range h
    end.

(** [h.s[i] = x] *)
Definition store (i : Z) (x : expDecaySampleFloat64) : M t unit :=
  fun h =>
    if in_bounds i h then Done tt (mk (<[Z.to_nat i := x]> (s h)) (len h))
    else Panicked index_out_of_range h.

(** [h.s[i], h.s[j] = h.s[j], h.s[i]]: both right-hand sides are read, then
    the two assignments are made from left to right. *)
Definition swap (i j : Z) : M t unit :=
  a ← load j; b ← load i; store i a;; store j b.

Definition Clear : M t unit := fun h => Done tt (mk (s h) 0).

Definition Size : M t Z := fun h => Done (Z.of_nat (len h)) h.

(** One turn of the loop of [up] per unit of fuel. *)
Fixpoint up_loop (fuel : nat) (j : Z) : M t unit :=
  match fuel with
  | O => throw out_of_fuel
  | S fuel =>
      let i := Z.quot (j - 1) 2 in
      if decide (i = j) then mret tt
      else
        a ← load j; b ← load i;
        if negb (k a <? k b)%float then mret tt
        else swap i j;; up_loop fuel i
  end.

Definition up (j : Z) : M t unit := up_loop (Z.to_nat j + 1) j.

Fixpoint down_loop (fuel : nat) (i n : Z) : M t unit :=
  match fuel with
  | O => throw out_of_fuel
  | S fuel =>
      let j1 := wrap64 (2 * i + 1) in
      if (n <=? j1) || (j1 <? 0) then mret tt
      else
        j ← (let j2 := wrap64 (j1 + 1) in
             if j2 <? n then
               a ← load j1; b ← load j2;
               mret (if negb (k a <? k b)%float then j2 else j1)
             else mret j1);
        a ← load j; b ← load i;
        if negb (k a <? k b)%float then mret tt
        else swap i j;; down_loop fuel j n
  end.

Definition down (i n : Z) : M t unit := down_loop (Z.to_nat n + 1) i n.

Definition Push (x : expDecaySampleFloat64) : M t unit :=
  fun h =>
    let n := Z.of_nat (len h) in
    if n + 1 <=? Z.of_nat (cap h) then
      (store n x;; up n) (mk (s h) (S (len h)))
    else Panicked slice_bounds_out_of_range h.

Definition Pop : M t expDecaySampleFloat64 :=
  h ← get;
  let n := Z.of_nat (len h) - 1 in
  swap 0 n;; down 0 n;;
  h ← get;
  let n := Z.of_nat (len h) in
  x ← load (n - 1);
  (if 0 <=? n - 1 then put (mk (s h) (Z.to_nat (n - 1)))
   else throw slice_bounds_out_of_range);;
  mret x.

(** [newExpDecaySampleHeapFloat64]: [make([]expDecaySampleFloat64, 0, n)].
    The runtime also refuses a capacity whose size in bytes is beyond what
    it can allocate; the model sets no such limit, so what it returns for
    such a capacity says nothing of the code. *)
Definition new (reservoirSize : Z) : option t :=
  if 0 <=? reservoirSize
  then Some (mk (replicate (Z.to_nat reservoirSize) (mkSample 0 0)) 0)
  else None.

End Heap.

Abbreviation expDecaySampleHeapFloat64 := Heap.t.

Definition heap_of (l : list (float * float)) (spare : nat) : Heap.t :=
  Heap.mk (map (fun p => mkSample p.1 p.2) l ++ replicate spare (mkSample 0 0))
    (length l).

Example Heap_Push_ex :
  Heap.items (state_of (Heap.Push (mkSample 1 10)
                          (heap_of [(2, 20); (3, 30); (4, 40)]%float 2)))
  = [mkSample 1 10; mkSample 2 20; mkSample 4 40; mkSample 3 30]%float.
Proof. vm_compute. reflexivity. Qed.

Example Heap_Pop_ex :
  Heap.Pop (heap_of [(1, 10); (2, 20); (4, 40); (3, 30)]%float 1)
  = Done (mkSample 1 10)
      (Heap.mk [mkSample 2 20; mkSample 3 30; mkSample 4 40;
                mkSample 1 10; mkSample 0 0]%float 3).
Proof. vm_compute. reflexivity. Qed.

Example Heap_Pop_empty_ex :
  Heap.Pop (heap_of [] 3) = Panicked index_out_of_range (heap_of [] 3).
Proof. vm_compute. reflexivity. Qed.

(** *** Reading and writing inside the bounds *)

Abbreviation item := expDecaySampleFloat64.

(** The array after [a[i], a[j] = a[j], a[i]]. *)
Definition swapped (a : list item) (i j : nat) : list item :=
  <[j := a !!! i]> (<[i := a !!! j]> a).

Lemma swapped_length a i j : length (swapped a i j) = length a.
Proof. unfold swapped. now rewrite !length_insert. Qed.

Lemma swapped_l a i j :
  (i < length a)%nat -> (j < length a)%nat -> swapped a i j !!! i = a !!! j.
Proof.
  intros Hi Hj. unfold swapped. destruct (decide (i = j)) as [->|Hne].
  - rewrite list_lookup_total_insert_eq; [reflexivity |].
    now rewrite length_insert.
  - rewrite list_lookup_total_insert_ne by congruence.
    now rewrite list_lookup_total_insert_eq.
Qed.

Lemma swapped_r a i j :
  (i < length a)%nat -> (j < length a)%nat -> swapped a i j !!! j = a !!! i.
Proof.
  intros Hi Hj. unfold swapped.
  rewrite list_lookup_total_insert_eq; [reflexivity |].
  now rewrite length_insert.
Qed.

Lemma swapped_other a i j c :
  c <> i -> c <> j -> swapped a i j !!! c = a !!! c.
Proof.
  intros Hi Hj. unfold swapped.
  now rewrite !list_lookup_total_insert_ne by congruence.
Qed.

Lemma swapped_perm a i j :
  (i < length a)%nat -> (j < length a)%nat -> swapped a i j ≡ₚ a.
Proof.
  intros Hi Hj. unfold swapped. apply Permutation_insert_swap.
  - apply list_lookup_lookup_total_lt; assumption.
  - apply list_lookup_lookup_total_lt; assumption.
Qed.

Lemma swapped_take a i j n :
  (i < n)%nat -> (j < n)%nat -> (n <= length a)%nat ->
  take n (swapped a i j) = swapped (take n a) i j.
Proof.
  intros Hi Hj Hn. unfold swapped.
  rewrite !take_insert_lt by assumption.
  now rewrite !lookup_total_take_lt by assumption.
Qed.

Lemma swapped_drop a i j n :
  (i < n)%nat -> (j < n)%nat -> drop n (swapped a i j) = drop n a.
Proof.
  intros Hi Hj. unfold swapped. now rewrite !drop_insert_lt by assumption.
Qed.

Lemma load_in h i :
  (i < Heap.len h)%nat -> (Heap.len h <= Heap.cap h)%nat ->
  Heap.load (Z.of_nat i) h = Done (Heap.s h !!! i) h.
Proof.
  intros Hi Hc. unfold Heap.load, Heap.in_bounds, Heap.cap in *.
  destruct (Z.leb_spec 0 (Z.of_nat i)); [| lia].
  destruct (Z.ltb_spec (Z.of_nat i) (Z.of_nat (Heap.len h))); [| lia].
  cbn. rewrite Nat2Z.id.
  rewrite (list_lookup_lookup_total_lt (Heap.s h) i) by lia. reflexivity.
Qed.

Lemma load_out h i :
  ~ (0 <= i < Z.of_nat (Heap.len h)) ->
  Heap.load i h = Panicked index_out_of_range h.
Proof.
  intros Hi. unfold Heap.load, Heap.in_bounds.
  destruct (Z.leb_spec 0 i), (Z.ltb_spec i (Z.of_nat (Heap.len h)));
    cbn; try reflexivity; lia.
Qed.

Lemma store_in h i x :
  (i < Heap.len h)%nat ->
  Heap.store (Z.of_nat i) x h
  = Done tt (Heap.mk (<[i := x]> (Heap.s h)) (Heap.len h)).
Proof.
  intros Hi. unfold Heap.store, Heap.in_bounds.
  destruct (Z.leb_spec 0 (Z.of_nat i)); [| lia].
  destruct (Z.ltb_spec (Z.of_nat i) (Z.of_nat (Heap.len h))); [| lia].
  cbn. now rewrite Nat2Z.id.
Qed.

Lemma swap_in h i j :
  (i < Heap.len h)%nat -> (j < Heap.len h)%nat ->
  (Heap.len h <= Heap.cap h)%nat ->
  Heap.swap (Z.of_nat i) (Z.of_nat j) h
  = Done tt (Heap.mk (swapped (Heap.s h) i j) (Heap.len h)).
Proof.
  intros Hi Hj Hc. unfold Heap.swap, mbind, M_bind.
  rewrite load_in, load_in by assumption.
  rewrite store_in by assumption.
  rewrite store_in by assumption. reflexivity.
Qed.

(** *** The heap order *)

(** The parent of node [j]; Go computes [(j - 1) / 2] on [int], where the
    division truncates, so the root is its own parent. *)
Definition parent (j : nat) : nat := (j - 1) / 2.

Lemma parent_go j : Z.quot (Z.of_nat j - 1) 2 = Z.of_nat (parent j).
Proof.
  unfold parent. destruct j as [|j]; [reflexivity |].
  rewrite Z.quot_div_nonneg by lia.
  rewrite Nat2Z.inj_div. f_equal. lia.
Qed.

Lemma parent_spec c :
  (0 < c)%nat -> (c = 2 * parent c + 1 \/ c = 2 * parent c + 2)%nat.
Proof.
  intros Hc. unfold parent.
  pose proof (Nat.div_mod_eq (c - 1) 2).
  pose proof (Nat.mod_upper_bound (c - 1) 2). lia.
Qed.

Lemma parent_child i c :
  (c = 2 * i + 1 \/ c = 2 * i + 2)%nat -> parent c = i.
Proof.
  intros H. unfold parent. symmetry.
  apply (Nat.div_unique (c - 1) 2 i (c - 1 - 2 * i)); lia.
Qed.

Definition key (a : list item) (i : nat) : float := k (a !!! i).

Definition le_at (a : list item) (i j : nat) : Prop :=
  (key a i <=? key a j)%float = true.

(** The min-heap invariant over the first [n] elements: every parent's
    priority is less than or equal to its children's. *)
Definition min_heap (a : list item) (n : nat) : Prop :=
  forall c, (0 < c < n)%nat -> le_at a (parent c) c.

(** No priority among the first [n] is NaN. *)
Definition no_nan (a : list item) (n : nat) : Prop :=
  forall c, (c < n)%nat -> F64.ordered (key a c).

(** The heap order holds except between [j] and its parent. *)
Definition up_inv (a : list item) (n j : nat) : Prop :=
  (forall c, (0 < c < n)%nat -> c <> j -> le_at a (parent c) c) /\
  (forall c, (0 < c < n)%nat -> parent c = j -> (0 < j)%nat ->
             le_at a (parent j) c).

(** The heap order holds except between [i] and its children. *)
Definition down_inv (a : list item) (n i : nat) : Prop :=
  (forall c, (0 < c < n)%nat -> parent c <> i -> le_at a (parent c) c) /\
  (forall c, (0 < c < n)%nat -> parent c = i -> (0 < i)%nat ->
             le_at a (parent i) c).

Lemma key_swapped_l a i j :
  (i < length a)%nat -> (j < length a)%nat ->
  key (swapped a i j) i = key a j.
Proof. intros. unfold key. now rewrite swapped_l. Qed.

Lemma key_swapped_r a i j :
  (i < length a)%nat -> (j < length a)%nat ->
  key (swapped a i j) j = key a i.
Proof. intros. unfold key. now rewrite swapped_r. Qed.

Lemma key_swapped_other a i j c :
  c <> i -> c <> j -> key (swapped a i j) c = key a c.
Proof. intros. unfold key. now rewrite swapped_other. Qed.

Lemma no_nan_swapped a n i j :
  (i < n)%nat -> (j < n)%nat -> (n <= length a)%nat ->
  no_nan a n -> no_nan (swapped a i j) n.
Proof.
  intros Hi Hj Hn H c Hc.
  destruct (decide (c = i)) as [->|Hci].
  { rewrite key_swapped_l by lia. auto. }
  destruct (decide (c = j)) as [->|Hcj].
  { rewrite key_swapped_r by lia. auto. }
  rewrite key_swapped_other by assumption. auto.
Qed.

Lemma le_at_trans a a' a'' x y z :
  (key a x <=? key a' y)%float = true ->
  (key a' y <=? key a'' z)%float = true ->
  (key a x <=? key a'' z)%float = true.
Proof. apply F64.leb_trans. Qed.

Lemma up_inv_done a n j :
  no_nan a n -> up_inv a n j -> (j < n)%nat ->
  (key a j <? key a (parent j))%float = false ->
  min_heap a n.
Proof.
  intros Hnan [H1 H2] Hj Hcmp c Hc.
  destruct (decide (c = j)) as [->|Hne]; [| auto].
  apply F64.not_ltb_leb; auto.
  apply Hnan. pose proof (parent_spec j). lia.
Qed.

Lemma up_inv_root a n : up_inv a n 0 -> min_heap a n.
Proof. intros [H1 _] c Hc. apply H1; lia. Qed.

Lemma up_inv_step a n j :
  (0 < j < n)%nat -> (n <= length a)%nat ->
  up_inv a n j ->
  (key a j <? key a (parent j))%float = true ->
  up_inv (swapped a (parent j) j) n (parent j).
Proof.
  intros Hj Hn [H1 H2] Hlt.
  pose proof (parent_spec j ltac:(lia)) as Hpj.
  set (i := parent j) in *.
  assert (Hij : (i < j)%nat) by lia.
  assert (Hle : (key a j <=? key a i)%float = true) by now apply F64.ltb_leb.
  split.
  - intros c Hc Hci. unfold le_at.
    pose proof (parent_spec c ltac:(lia)) as Hpc.
    destruct (decide (c = j)) as [->|Hcj].
    { fold i. rewrite key_swapped_l, key_swapped_r by lia. exact Hle. }
    rewrite (key_swapped_other a i j c) by assumption.
    destruct (decide (parent c = j)) as [Epj|Npj].
    { rewrite Epj, key_swapped_r by lia. apply H2; auto; lia. }
    destruct (decide (parent c = i)) as [Epi|Npi].
    { rewrite Epi, key_swapped_l by lia.
      eapply F64.leb_trans; [exact Hle |].
      rewrite <- Epi. apply H1; auto. }
    rewrite key_swapped_other by assumption. apply H1; auto.
  - intros c Hc Epc Hi. unfold le_at.
    pose proof (parent_spec c ltac:(lia)) as Hpc.
    pose proof (parent_spec i Hi) as Hpi.
    rewrite (key_swapped_other a i j (parent i)) by lia.
    assert (Hpi_i : le_at a (parent i) i) by (apply H1; lia).
    destruct (decide (c = j)) as [->|Hcj].
    { rewrite key_swapped_r by lia. exact Hpi_i. }
    rewrite key_swapped_other by lia.
    eapply F64.leb_trans; [exact Hpi_i |].
    rewrite <- Epc. apply H1; auto.
Qed.

(** *** [up] *)

Lemma heap_eta h : Heap.mk (Heap.s h) (Heap.len h) = h.
Proof. now destruct h. Qed.

Lemma up_loop_spec fuel :
  forall j h,
    (j < fuel)%nat -> (j < Heap.len h)%nat ->
    (Heap.len h <= Heap.cap h)%nat ->
    exists a',
      Heap.up_loop fuel (Z.of_nat j) h = Done tt (Heap.mk a' (Heap.len h)) /\
      length a' = length (Heap.s h) /\
      take (Heap.len h) a' ≡ₚ take (Heap.len h) (Heap.s h) /\
      drop (Heap.len h) a' = drop (Heap.len h) (Heap.s h) /\
      (no_nan (Heap.s h) (Heap.len h) ->
       up_inv (Heap.s h) (Heap.len h) j ->
       min_heap a' (Heap.len h)).
Proof.
  induction fuel as [|fuel IH]; intros j h Hf Hj Hc; [lia |].
  cbn [Heap.up_loop]. rewrite parent_go.
  destruct (decide (Z.of_nat (parent j) = Z.of_nat j)) as [E|NE].
  { exists (Heap.s h). rewrite heap_eta.
    repeat split; auto.
    intros _ Hinv. assert (j = 0)%nat as ->.
    { destruct j as [|j]; [reflexivity |].
      pose proof (parent_spec (S j)). lia. }
    now apply up_inv_root. }
  assert (Hj0 : (0 < j)%nat) by (destruct j; [cbn in NE; lia | lia]).
  pose proof (parent_spec j Hj0) as Hpj.
  unfold mbind, M_bind.
  rewrite load_in, load_in by (assumption || lia).
  fold (key (Heap.s h) j). fold (key (Heap.s h) (parent j)).
  destruct (key (Heap.s h) j <? key (Heap.s h) (parent j))%float eqn:Hcmp;
    cbn [negb].
  - rewrite swap_in by (assumption || lia).
    destruct (IH (parent j)
                (Heap.mk (swapped (Heap.s h) (parent j) j) (Heap.len h)))
      as (a' & Hrun & Hlen & Hperm & Hdrop & Hord).
    + lia.
    + cbn [Heap.len]. lia.
    + unfold Heap.cap in *. cbn [Heap.s Heap.len]. now rewrite swapped_length.
    + cbn [Heap.s Heap.len] in *. unfold Heap.cap in Hc.
      exists a'. rewrite Hrun. split; [reflexivity |].
      split; [now rewrite Hlen, swapped_length |].
      split.
      { rewrite Hperm, swapped_take by lia.
        apply swapped_perm; rewrite length_take; lia. }
      split; [now rewrite Hdrop, swapped_drop by lia |].
      intros Hnan Hinv. apply Hord.
      * apply no_nan_swapped; auto; lia.
      * apply up_inv_step; auto; lia.
  - exists (Heap.s h). rewrite heap_eta. repeat split; auto.
    intros Hnan Hinv. apply (up_inv_done _ _ j); auto.
Qed.

(** *** [down] *)

(** [j] is a child of [i] inside the heap whose priority is least among
    the children of [i]. *)
Definition least_child (a : list item) (n i j : nat) : Prop :=
  (j < n)%nat /\ parent j = i /\ (0 < j)%nat /\
  forall c, (0 < c < n)%nat -> parent c = i -> le_at a j c.

Lemma down_inv_leaf a n i :
  (n <= 2 * i + 1)%nat -> down_inv a n i -> min_heap a n.
Proof.
  intros Hn [H1 _] c Hc. apply H1; auto.
  pose proof (parent_spec c). lia.
Qed.

Lemma down_inv_done a n i j :
  no_nan a n -> (i < n)%nat -> down_inv a n i -> least_child a n i j ->
  (key a j <? key a i)%float = false ->
  min_heap a n.
Proof.
  intros Hnan Hi [H1 _] (Hj & Hpj & Hj0 & Hleast) Hcmp c Hc.
  destruct (decide (parent c = i)) as [E|NE]; [| auto].
  unfold le_at. rewrite E.
  apply F64.leb_trans with (key a j); [| now apply Hleast].
  apply F64.not_ltb_leb; auto.
Qed.

Lemma down_inv_step a n i j :
  (n <= length a)%nat -> (i < n)%nat ->
  down_inv a n i -> least_child a n i j ->
  (key a j <? key a i)%float = true ->
  down_inv (swapped a i j) n j.
Proof.
  intros Hn Hi [H1 H2] (Hj & Hpj & Hj0 & Hleast) Hlt.
  pose proof (parent_spec j Hj0) as Hsj. rewrite Hpj in Hsj.
  assert (Hij : (i < j)%nat) by lia.
  assert (Hle : (key a j <=? key a i)%float = true) by now apply F64.ltb_leb.
  split.
  - intros c Hc Npj. unfold le_at.
    pose proof (parent_spec c ltac:(lia)) as Hpc.
    destruct (decide (c = j)) as [->|Hcj].
    { rewrite Hpj, key_swapped_l, key_swapped_r by lia. exact Hle. }
    destruct (decide (c = i)) as [->|Hci].
    { rewrite key_swapped_l by lia.
      rewrite key_swapped_other by lia. apply H2; auto; lia. }
    rewrite (key_swapped_other a i j c) by assumption.
    destruct (decide (parent c = i)) as [Epi|Npi].
    { rewrite Epi, key_swapped_l by lia. now apply Hleast. }
    rewrite key_swapped_other by assumption. apply H1; auto.
  - intros c Hc Epc _. unfold le_at.
    pose proof (parent_spec c ltac:(lia)) as Hpc.
    rewrite Hpj, key_swapped_l by lia.
    rewrite key_swapped_other by lia.
    rewrite <- Epc. apply H1; auto. lia.
Qed.

Lemma wrap64_small z : 0 <= z <= max_int64 -> wrap64 z = z.
Proof. intros H. apply wrap64_id. unfold min_int64, max_int64 in *. lia. Qed.

Lemma wrap64_over z : max_int64 < z < 2 ^ 64 -> wrap64 z < 0.
Proof.
  unfold wrap64, max_int64. intros H.
  replace (z + 2 ^ 63) with ((z - 2 ^ 63) + 1 * 2 ^ 64) by lia.
  rewrite Z.mod_add by lia. rewrite Z.mod_small by lia. lia.
Qed.

Lemma down_loop_spec fuel :
  forall i n h,
    (n - i < fuel)%nat -> (i < n \/ i = 0)%nat -> (n <= Heap.len h)%nat ->
    (Heap.len h <= Heap.cap h)%nat -> Z.of_nat (Heap.cap h) <= max_int64 ->
    exists a',
      Heap.down_loop fuel (Z.of_nat i) (Z.of_nat n) h
      = Done tt (Heap.mk a' (Heap.len h)) /\
      length a' = length (Heap.s h) /\
      take n a' ≡ₚ take n (Heap.s h) /\
      drop n a' = drop n (Heap.s h) /\
      (no_nan (Heap.s h) n -> down_inv (Heap.s h) n i -> min_heap a' n).
Proof.
  induction fuel as [|fuel IH]; intros i n h Hf Hi Hn Hc Hmax; [lia |].
  cbn [Heap.down_loop].
  destruct (le_lt_dec n (2 * i + 1)) as [Hleaf|Hchild].
  { replace ((Z.of_nat n <=? wrap64 (2 * Z.of_nat i + 1))
             || (wrap64 (2 * Z.of_nat i + 1) <? 0)) with true.
    - exists (Heap.s h). unfold mret, M_ret. rewrite heap_eta.
      repeat split; auto.
      intros _ Hinv. eapply down_inv_leaf; eauto.
    - symmetry. apply orb_true_iff.
      destruct (Z_le_gt_dec (2 * Z.of_nat i + 1) max_int64).
      + left. rewrite wrap64_small by lia. apply Z.leb_le. lia.
      + right. apply Z.ltb_lt. apply wrap64_over.
        unfold Heap.cap, max_int64 in *. lia. }
  assert (Hi' : (i < n)%nat) by lia.
  unfold Heap.cap in *.
  rewrite (wrap64_small (2 * Z.of_nat i + 1)) by lia.
  replace ((Z.of_nat n <=? 2 * Z.of_nat i + 1)
           || (2 * Z.of_nat i + 1 <? 0)) with false.
  2:{ symmetry. apply orb_false_iff. split.
      - apply Z.leb_gt. lia.
      - apply Z.ltb_ge. lia. }
  rewrite (wrap64_small (2 * Z.of_nat i + 1 + 1)) by lia.
  replace (2 * Z.of_nat i + 1) with (Z.of_nat (2 * i + 1)) by lia.
  replace (Z.of_nat (2 * i + 1) + 1) with (Z.of_nat (2 * i + 2)) by lia.
  set (a := Heap.s h) in *.
  (* the child the loop compares with [i] *)
  assert (Hpick : exists j,
             ((let j2 := Z.of_nat (2 * i + 2) in
               if j2 <? Z.of_nat n then
                 x ← Heap.load (Z.of_nat (2 * i + 1));
                 y ← Heap.load j2;
                 mret (if negb (k x <? k y)%float then j2
                       else Z.of_nat (2 * i + 1))
               else mret (Z.of_nat (2 * i + 1))) : M Heap.t Z) h
             = Done (Z.of_nat j) h /\
             (j < n)%nat /\ parent j = i /\ (0 < j)%nat /\
             (no_nan a n -> least_child a n i j)).
  { cbv zeta.
    destruct (Z.ltb_spec (Z.of_nat (2 * i + 2)) (Z.of_nat n)) as [H2|H2].
    - unfold mbind, M_bind. rewrite !load_in by first [exact Hc | lia].
      fold a. fold (key a (2 * i + 1)). fold (key a (2 * i + 2)).
      destruct (key a (2 * i + 1) <? key a (2 * i + 2))%float eqn:E;
        cbn [negb].
      + exists (2 * i + 1)%nat. split; [reflexivity |].
        split; [lia |]. split; [apply parent_child; lia |].
        split; [lia |]. intros Hnan. split; [lia |].
        split; [apply parent_child; lia |]. split; [lia |].
        intros c Hcn Epc. pose proof (parent_spec c ltac:(lia)) as Hpc.
        rewrite Epc in Hpc. destruct Hpc as [->| ->].
        * apply F64.leb_refl. apply Hnan. lia.
        * now apply F64.ltb_leb.
      + exists (2 * i + 2)%nat. split; [reflexivity |].
        split; [lia |]. split; [apply parent_child; lia |].
        split; [lia |]. intros Hnan. split; [lia |].
        split; [apply parent_child; lia |]. split; [lia |].
        intros c Hcn Epc. pose proof (parent_spec c ltac:(lia)) as Hpc.
        rewrite Epc in Hpc. destruct Hpc as [->| ->].
        * apply F64.not_ltb_leb; auto; apply Hnan; lia.
        * apply F64.leb_refl. apply Hnan. lia.
    - exists (2 * i + 1)%nat. split; [reflexivity |].
      split; [lia |]. split; [apply parent_child; lia |].
      split; [lia |]. intros Hnan. split; [lia |].
      split; [apply parent_child; lia |]. split; [lia |].
      intros c Hcn Epc. pose proof (parent_spec c ltac:(lia)) as Hpc.
      rewrite Epc in Hpc. destruct Hpc as [->| ->]; [| lia].
      apply F64.leb_refl. apply Hnan. lia. }
  destruct Hpick as (j & Hrun & Hj & Hpj & Hj0 & Hleast).
  unfold mbind at 1. unfold M_bind at 1. cbv zeta in Hrun. rewrite Hrun.
  pose proof (parent_spec j Hj0) as Hsj. rewrite Hpj in Hsj.
  unfold mbind, M_bind.
  rewrite load_in, load_in by first [exact Hc | lia].
  fold a. fold (key a j). fold (key a i).
  destruct (key a j <? key a i)%float eqn:Hcmp; cbn [negb].
  - rewrite swap_in by first [exact Hc | lia]. fold a.
    destruct (IH j n (Heap.mk (swapped a i j) (Heap.len h)))
      as (a' & Hrun' & Hlen & Hperm & Hdrop & Hord); cbn [Heap.len Heap.s].
    + lia.
    + lia.
    + lia.
    + unfold Heap.cap. cbn [Heap.s Heap.len]. now rewrite swapped_length.
    + unfold Heap.cap. cbn [Heap.s Heap.len]. now rewrite swapped_length.
    + cbn [Heap.s Heap.len] in *.
      exists a'. rewrite Hrun'. split; [reflexivity |].
      split; [now rewrite Hlen, swapped_length |].
      split.
      { rewrite Hperm, swapped_take by lia.
        apply swapped_perm; rewrite length_take; lia. }
      split; [now rewrite Hdrop, swapped_drop by lia |].
      intros Hnan Hinv. apply Hord.
      * apply no_nan_swapped; auto; lia.
      * apply down_inv_step; auto; lia.
  - exists a. unfold mret, M_ret. unfold a at 1. rewrite heap_eta.
    repeat split; auto.
    intros Hnan Hinv. apply (down_inv_done a n i j); auto.
Qed.

(** *** [Push] and [Pop] *)

(** A slice is inside its array, and no array is longer than [int] counts. *)
Definition heap_wf (h : Heap.t) : Prop :=
  (Heap.len h <= Heap.cap h)%nat /\ Z.of_nat (Heap.cap h) <= max_int64.

Definition is_min_heap (h : Heap.t) : Prop := min_heap (Heap.s h) (Heap.len h).

Definition heap_no_nan (h : Heap.t) : Prop := no_nan (Heap.s h) (Heap.len h).

Lemma no_nan_Forall a n :
  (n <= length a)%nat ->
  no_nan a n <-> Forall (fun x => F64.ordered (k x)) (take n a).
Proof.
  intros Hn. rewrite Forall_lookup. split.
  - intros H i x Hx. apply lookup_take_Some in Hx as [Hx Hi].
    specialize (H i Hi). unfold key in H.
    now rewrite (list_lookup_total_correct _ _ _ Hx) in H.
  - intros H c Hc. unfold key. apply (H c).
    rewrite lookup_take_lt by assumption.
    apply list_lookup_lookup_total_lt. lia.
Qed.

Lemma no_nan_perm a a' n :
  (n <= length a)%nat -> (n <= length a')%nat ->
  take n a' ≡ₚ take n a -> no_nan a n -> no_nan a' n.
Proof.
  intros Hn Hn' Hp. rewrite !no_nan_Forall by assumption. now rewrite Hp.
Qed.

Lemma root_minimal a n :
  min_heap a n -> no_nan a n -> forall c, (c < n)%nat -> le_at a 0 c.
Proof.
  intros Hh Hnan c. induction c as [c IH] using lt_wf_ind. intros Hc.
  destruct c as [|c]; [apply F64.leb_refl, Hnan; lia |].
  pose proof (parent_spec (S c) ltac:(lia)) as Hp.
  unfold le_at. apply F64.leb_trans with (key a (parent (S c))).
  - apply IH; lia.
  - apply Hh. lia.
Qed.

Lemma Push_spec x h :
  (Heap.len h < Heap.cap h)%nat ->
  exists a',
    Heap.Push x h = Done tt (Heap.mk a' (S (Heap.len h))) /\
    length a' = Heap.cap h /\
    take (S (Heap.len h)) a' ≡ₚ x :: Heap.items h /\
    drop (S (Heap.len h)) a' = drop (S (Heap.len h)) (Heap.s h) /\
    (heap_no_nan h -> F64.ordered (k x) -> is_min_heap h ->
     min_heap a' (S (Heap.len h)) /\ no_nan a' (S (Heap.len h))).
Proof.
  intros Hcap. unfold Heap.Push, Heap.cap in *.
  destruct (Z.leb_spec (Z.of_nat (Heap.len h) + 1)
              (Z.of_nat (length (Heap.s h)))) as [_|]; [| lia].
  unfold mbind, M_bind. rewrite store_in by (cbn [Heap.len]; lia).
  cbn [Heap.s Heap.len]. unfold Heap.up. rewrite Nat2Z.id.
  set (n := Heap.len h) in *. set (a := Heap.s h) in *.
  destruct (up_loop_spec (n + 1) n (Heap.mk (<[n := x]> a) (S n)))
    as (a' & Hrun & Hlen & Hperm & Hdrop & Hord).
  { lia. }
  { cbn [Heap.len]. lia. }
  { unfold Heap.cap. cbn [Heap.s Heap.len]. rewrite length_insert. lia. }
  cbn [Heap.s Heap.len] in *. rewrite length_insert in Hlen.
  assert (Htake : take (S n) (<[n := x]> a) ≡ₚ x :: take n a).
  { rewrite (take_S_r _ n x) by (apply list_lookup_insert_eq; lia).
    rewrite take_insert_ge by lia.
    symmetry. apply Permutation_cons_append. }
  exists a'. rewrite Hrun. split; [reflexivity |]. split; [exact Hlen |].
  split; [now rewrite Hperm |].
  split; [rewrite Hdrop; now rewrite drop_insert_lt by lia |].
  intros Hnan Hx Hheap.
  assert (Hnan1 : no_nan (<[n := x]> a) (S n)).
  { intros c Hc. unfold key. destruct (decide (c = n)) as [->|Hne].
    - rewrite list_lookup_total_insert_eq by lia. exact Hx.
    - rewrite list_lookup_total_insert_ne by congruence. apply Hnan. lia. }
  split.
  - apply Hord; [exact Hnan1 |]. split.
    + intros c Hc Hcn. unfold le_at, key.
      pose proof (parent_spec c ltac:(lia)).
      rewrite !list_lookup_total_insert_ne by lia. apply Hheap. lia.
    + intros c Hc Hpc Hn0. pose proof (parent_spec c ltac:(lia)). lia.
  - apply (no_nan_perm (<[n := x]> a)).
    + rewrite length_insert. lia.
    + lia.
    + exact Hperm.
    + exact Hnan1.
Qed.

Lemma Push_full x h :
  (Heap.cap h <= Heap.len h)%nat ->
  Heap.Push x h = Panicked slice_bounds_out_of_range h.
Proof.
  intros Hc. unfold Heap.Push.
  destruct (Z.leb_spec (Z.of_nat (Heap.len h) + 1) (Z.of_nat (Heap.cap h)));
    [lia | reflexivity].
Qed.

Lemma Pop_empty h :
  Heap.len h = 0%nat -> Heap.Pop h = Panicked index_out_of_range h.
Proof.
  intros E. unfold Heap.Pop, Heap.swap, mbind, M_bind, get.
  rewrite E. cbn [Z.of_nat Z.sub Z.add Z.opp].
  rewrite load_out by (rewrite E; cbn; lia). reflexivity.
Qed.

Lemma Pop_spec h :
  (0 < Heap.len h)%nat -> heap_wf h ->
  exists a',
    Heap.Pop h
    = Done (Heap.s h !!! 0%nat) (Heap.mk a' (pred (Heap.len h))) /\
    length a' = Heap.cap h /\
    Heap.items h ≡ₚ Heap.s h !!! 0%nat :: take (pred (Heap.len h)) a' /\
    drop (Heap.len h) a' = drop (Heap.len h) (Heap.s h) /\
    (heap_no_nan h -> is_min_heap h ->
     min_heap a' (pred (Heap.len h)) /\ no_nan a' (pred (Heap.len h)) /\
     Forall (fun y => (k (Heap.s h !!! 0%nat) <=? k y)%float = true)
       (Heap.items h)).
Proof.
  destruct h as [a n].
  unfold heap_wf, heap_no_nan, is_min_heap, Heap.items, Heap.cap.
  cbn [Heap.s Heap.len]. intros Hpos [Hc Hmax].
  destruct n as [|m]; [lia |]. cbn [pred].
  set (sw := swapped a 0 m).
  assert (Hswlen : length sw = length a) by apply swapped_length.
  destruct (down_loop_spec (m + 1) 0 m (Heap.mk sw (S m)))
    as (a' & Hrun & Hlen & Hperm & Hdrop & Hord).
  { lia. }
  { lia. }
  { cbn [Heap.len]. lia. }
  { unfold Heap.cap. cbn [Heap.s Heap.len]. lia. }
  { unfold Heap.cap. cbn [Heap.s Heap.len]. lia. }
  cbn [Heap.s Heap.len] in *.
  assert (Hlast : a' !!! m = a !!! 0%nat).
  { rewrite <- (Nat.add_0_r m), <- lookup_total_drop, Hdrop.
    rewrite lookup_total_drop, Nat.add_0_r. apply swapped_r; lia. }
  assert (Hrun' : Heap.Pop (Heap.mk a (S m))
                  = Done (a !!! 0%nat) (Heap.mk a' m)).
  { unfold Heap.Pop.
    unfold mbind at 1. unfold M_bind at 1. unfold get at 1.
    cbn [Heap.len].
    replace (Z.of_nat (S m) - 1) with (Z.of_nat m) by lia.
    unfold mbind at 1. unfold M_bind at 1.
    change 0 with (Z.of_nat 0).
    rewrite swap_in
      by (unfold Heap.cap; cbn [Heap.s Heap.len]; lia).
    cbn [Heap.s Heap.len]. fold sw.
    unfold mbind at 1. unfold M_bind at 1. unfold Heap.down.
    rewrite Nat2Z.id, Hrun.
    unfold mbind at 1. unfold M_bind at 1. unfold get at 1. cbn [Heap.len].
    replace (Z.of_nat (S m) - 1) with (Z.of_nat m) by lia.
    unfold mbind at 1. unfold M_bind at 1.
    rewrite load_in by (unfold Heap.cap; cbn [Heap.s Heap.len]; lia).
    cbn [Heap.s Heap.len]. rewrite Hlast.
    match goal with
    | |- context [if ?c then _ else _] =>
        replace c with true by (symmetry; apply Z.leb_le; lia)
    end.
    unfold mbind, M_bind, put, mret, M_ret. now rewrite Nat2Z.id. }
  assert (Hsw : take (S m) sw ≡ₚ take (S m) a).
  { unfold sw. rewrite swapped_take by lia.
    apply swapped_perm; rewrite length_take; lia. }
  assert (Hsplit : take (S m) sw = take m sw ++ [a !!! 0%nat]).
  { apply take_S_r. unfold sw. rewrite <- (swapped_r a 0 m) by lia.
    apply list_lookup_lookup_total_lt. rewrite swapped_length. lia. }
  exists a'. split; [exact Hrun' |]. split; [lia |].
  split.
  { rewrite <- Hsw, Hsplit, Hperm. symmetry. apply Permutation_cons_append. }
  split.
  { rewrite <- (Nat.add_1_r m), <- !drop_drop, Hdrop, !drop_drop.
    unfold sw. now rewrite swapped_drop by lia. }
  intros Hnan Hheap.
  assert (Hnan1 : no_nan sw m).
  { intros c Hcn. apply (no_nan_swapped a (S m) 0 m); auto; lia. }
  split; [| split].
  - apply Hord; [exact Hnan1 |]. split.
    + intros c Hcn Hpc. unfold le_at, sw.
      pose proof (parent_spec c ltac:(lia)).
      rewrite !key_swapped_other by lia. apply Hheap. lia.
    + intros c Hcn Hpc Habs. lia.
  - apply (no_nan_perm sw); auto; lia.
  - apply Forall_lookup. intros i y Hy.
    apply lookup_take_Some in Hy as [Hy Hi].
    pose proof (root_minimal a (S m) Hheap Hnan i Hi) as Hmin.
    unfold le_at, key in Hmin.
    now rewrite (list_lookup_total_correct _ _ _ Hy) in Hmin.
Qed.

(** C8, as amended: on a heap whose priorities are not NaN, [Push] of an
    item whose priority is not NaN (into a heap with room) and [Pop] (from a
    heap that is not empty) return without panic and keep the min-heap
    invariant; [Pop] removes and returns an item whose priority is less than
    or equal to that of every item of the heap. *)
Theorem heap_Push_Pop_min_heap h :
  heap_wf h -> is_min_heap h -> heap_no_nan h ->
  (forall x,
      (Heap.len h < Heap.cap h)%nat -> F64.ordered (k x) ->
      exists h',
        Heap.Push x h = Done tt h' /\
        is_min_heap h' /\ heap_no_nan h' /\ heap_wf h' /\
        Heap.items h' ≡ₚ x :: Heap.items h) /\
  ((0 < Heap.len h)%nat ->
   exists x h',
     Heap.Pop h = Done x h' /\
     is_min_heap h' /\ heap_no_nan h' /\ heap_wf h' /\
     Heap.items h ≡ₚ x :: Heap.items h' /\
     Forall (fun y => (k x <=? k y)%float = true) (Heap.items h)).
Proof.
  intros Hwf Hheap Hnan. split.
  - intros x Hroom Hx.
    destruct (Push_spec x h Hroom) as (a' & Hrun & Hlen & Hperm & _ & Hord).
    destruct (Hord Hnan Hx Hheap) as [Hh' Hn'].
    exists (Heap.mk a' (S (Heap.len h))).
    split; [exact Hrun |]. split; [exact Hh' |]. split; [exact Hn' |].
    split; [| exact Hperm].
    destruct Hwf as [_ Hmax]. unfold heap_wf, Heap.cap in *.
    cbn [Heap.s Heap.len]. rewrite Hlen. split; [lia | exact Hmax].
  - intros Hpos.
    destruct (Pop_spec h Hpos Hwf) as (a' & Hrun & Hlen & Hperm & _ & Hord).
    destruct (Hord Hnan Hheap) as (Hh' & Hn' & Hmin).
    exists (Heap.s h !!! 0%nat), (Heap.mk a' (pred (Heap.len h))).
    split; [exact Hrun |]. split; [exact Hh' |]. split; [exact Hn' |].
    split; [| split; [exact Hperm | exact Hmin]].
    destruct Hwf as [Hc Hmax]. unfold heap_wf, Heap.cap in *.
    cbn [Heap.s Heap.len]. rewrite Hlen. split; [lia | exact Hmax].
Qed.

Definition heap_ex : Heap.t :=
  heap_of [(1, 10); (2, 20); (4, 40); (3, 30)]%float 1.

Lemma heap_ex_wf : heap_wf heap_ex.
Proof. split; [cbn; lia | vm_compute; discriminate]. Qed.

Lemma heap_ex_min_heap : is_min_heap heap_ex.
Proof.
  intros c Hc. cbn in Hc.
  assert (c = 1 \/ c = 2 \/ c = 3)%nat as [->|[->| ->]] by lia;
    vm_compute; reflexivity.
Qed.

Lemma heap_ex_no_nan : heap_no_nan heap_ex.
Proof.
  intros c Hc. cbn in Hc.
  assert (c = 0 \/ c = 1 \/ c = 2 \/ c = 3)%nat as [->|[->|[->| ->]]] by lia;
    vm_compute; reflexivity.
Qed.

Lemma heap_Push_Pop_min_heap_witness :
  (forall x,
      (Heap.len heap_ex < Heap.cap heap_ex)%nat -> F64.ordered (k x) ->
      exists h',
        Heap.Push x heap_ex = Done tt h' /\
        is_min_heap h' /\ heap_no_nan h' /\ heap_wf h' /\
        Heap.items h' ≡ₚ x :: Heap.items heap_ex) /\
  ((0 < Heap.len heap_ex)%nat ->
   exists x h',
     Heap.Pop heap_ex = Done x h' /\
     is_min_heap h' /\ heap_no_nan h' /\ heap_wf h' /\
     Heap.items heap_ex ≡ₚ x :: Heap.items h' /\
     Forall (fun y => (k x <=? k y)%float = true) (Heap.items heap_ex)).
Proof.
  apply (heap_Push_Pop_min_heap heap_ex).
  - apply heap_ex_wf.
  - apply heap_ex_min_heap.
  - apply heap_ex_no_nan.
Defined.

(** C8, as stated, fails for a NaN priority: pushed under the root [1], the
    item stays where it was put ([NaN < 1] is false) and the root is not
    less than or equal to it. *)
Lemma Push_nan_breaks_min_heap :
  ~ (forall h x,
        heap_wf h -> is_min_heap h -> (Heap.len h < Heap.cap h)%nat ->
        is_min_heap (state_of (Heap.Push x h))).
Proof.
  intros H.
  specialize (H (heap_of [(1, 10)]%float 1) (mkSample nan 20)).
  assert (Hh : is_min_heap
                 (state_of (Heap.Push (mkSample nan 20)
                              (heap_of [(1, 10)]%float 1)))).
  { apply H.
    - split; [cbn; lia | vm_compute; discriminate].
    - intros c Hc. cbn in Hc. lia.
    - cbn. lia. }
  specialize (Hh 1%nat). vm_compute in Hh.
  assert (false = true) by (apply Hh; split; constructor).
  discriminate.
Qed.

(** ** Time *)

(** A [time.Time] is an instant in nanoseconds; a [time.Duration] is an
    int64 count of nanoseconds. *)

(** [t.Sub(u)]: the difference, saturated to the range of [Duration]. *)
Definition Sub (t u : Z) : Z :=
  let d := t - u in
  if d <? min_int64 then min_int64
  else if max_int64 <? d then max_int64
  else d.

(** [d.Seconds()]: [float64(d / Second) + float64(d % Second) / 1e9]. *)
Definition Seconds (d : Z) : float :=
  (F64.of_int (Z.quot d 1000000000)
   + F64.of_int (Z.rem d 1000000000) / 1e9)%float.

(** [t.After(u)] *)
Definition After (t u : Z) : bool := u <? t.

Fixpoint for_each {S A} (l : list A) (body : A -> M S unit) : M S unit :=
  match l with
  | [] => mret tt
  | a :: l => body a;; for_each l body
  end.

(** ** Slices of [float64] and their backing arrays *)

Module Slice.

Definition loc : Type := positive.

(** The backing arrays of the [[]float64] slices, by address. *)
Definition mem : Type := gmap loc (list float).

(** A slice header.  Every [[]float64] of the package starts at the first
    element of its array ([make], [append]; none is re-sliced), so the
    capacity is the length of the array. *)
Record t : Type := mk { ptr : loc; len : nat }.

Definition array (sl : t) (σ : mem) : list float := default [] (σ !! ptr sl).

Definition cap (sl : t) (σ : mem) : nat := length (array sl σ).

(** The elements of the slice. *)
Definition elems (sl : t) (σ : mem) : list float := take (len sl) (array sl σ).

Definition read (sl : t) : M mem (list float) :=
  fun σ => Done (elems sl σ) σ.

(** A new array, at an address not in use. *)
Definition alloc (a : list float) : M mem loc :=
  fun σ => let l := fresh (dom σ) in Done l (<[l := a]> σ).

(** [make([]float64, n, c)].  The runtime also refuses a capacity whose
    size in bytes is beyond what it can allocate; the model sets no such
    limit, so what it returns for such a capacity says nothing of the
    code. *)
Definition make (n c : Z) : M mem t :=
  if (0 <=? n) && (n <=? c) then
    l ← alloc (replicate (Z.to_nat c) 0%float);
    mret (mk l (Z.to_nat n))
  else throw makeslice_out_of_range.

(** [sl[i] = x] *)
Definition store (sl : t) (i : Z) (x : float) : M mem unit :=
  fun σ =>
    if (0 <=? i) && (i <? Z.of_nat (len sl)) then
      Done tt (<[ptr sl := <[Z.to_nat i := x]> (array sl σ)]> σ)
    else Panicked index_out_of_range σ.

(** [copy(dst, src)] *)
Definition copy (dst src : t) : M mem Z :=
  fun σ =>
    let n := Nat.min (len dst) (len src) in
    Done (Z.of_nat n)
      (<[ptr dst := take n (elems src σ) ++ drop n (array dst σ)]> σ).

(** A function over the elements of [sl], such as the statistics of a
    sample, run on the slice: what it leaves of the elements is left in the
    array. *)
Definition on_elems {A} (sl : t) (m : M (list float) A) : M mem A :=
  fun σ =>
    match m (elems sl σ) with
    | Done a vs => Done a (<[ptr sl := vs ++ drop (len sl) (array sl σ)]> σ)
    | Panicked e vs =>
        Panicked e (<[ptr sl := vs ++ drop (len sl) (array sl σ)]> σ)
    end.

Section Runtime.

(** The capacity that the runtime gives the array of a grown slice, by the
    length needed. *)
Variable growslice : nat -> nat.

(** [append(sl, x)]: in place while the array has room, else into a new
    array. *)
Definition append (sl : t) (x : float) : M mem t :=
  fun σ =>
    if decide (len sl < cap sl σ)%nat then
      Done (mk (ptr sl) (S (len sl)))
        (<[ptr sl := <[len sl := x]> (array sl σ)]> σ)
    else
      (l ← alloc (elems sl σ ++ x
                    :: replicate (growslice (S (len sl)) - S (len sl))
                         0%float);
       mret (mk l (S (len sl)))) σ.

End Runtime.

End Slice.

(** A method of an object of type [T] runs on the arrays and the object. *)
Definition in_mem {T A} (m : M Slice.mem A) : M (Slice.mem * T) A :=
  fun st =>
    match m st.1 with
    | Done a σ => Done a (σ, st.2)
    | Panicked e σ => Panicked e (σ, st.2)
    end.

Definition in_obj {T A} (m : M T A) : M (Slice.mem * T) A :=
  fun st =>
    match m st.2 with
    | Done a s => Done a (st.1, s)
    | Panicked e s => Panicked e (st.1, s)
    end.

Definition self {T} : M (Slice.mem * T) T := in_obj get.

(** Modelled from the documentation of math/rand: [rand.Int63n(n)] panics
    if [n <= 0] and otherwise returns a number in [0, n); [raw] is the draw
    of the generator that the call reduces into that range. *)
Definition Int63n {S} (raw n : Z) : M S Z :=
  if n <=? 0 then throw invalid_argument_to_Int63n else mret (raw mod n).

(** ** The snapshot of a sample (sample_float64.go, lines 240-303) *)

Module SampleSnapshotFloat64.

Record t : Type := mk { count : Z; values : Slice.t }.

Definition state : Type := (Slice.mem * t)%type.

Definition Clear : M state unit :=
  throw (panic_msg "Clear called on a SampleSnapshotFloat64").

Definition Count : M state Z := s ← self; mret (count s).

Definition Max : M state float :=
  s ← self; vs ← in_mem (Slice.read (values s)); mret (SampleMaxFloat64 vs).

Definition Mean : M state float :=
  s ← self; vs ← in_mem (Slice.read (values s)); mret (SampleMeanFloat64 vs).

Definition Min : M state float :=
  s ← self; vs ← in_mem (Slice.read (values s)); mret (SampleMinFloat64 vs).

Definition Percentile (sort : list float -> list float) (undef : Z)
    (p : float) : M state float :=
  s ← self;
  in_mem (Slice.on_elems (values s) (SamplePercentileFloat64 sort undef p)).

Definition Percentiles (sort : list float -> list float) (undef : Z)
    (ps : list float) : M state (list float) :=
  s ← self;
  in_mem (Slice.on_elems (values s) (SamplePercentilesFloat64 sort undef ps)).

Definition Size : M state Z :=
  s ← self; mret (Z.of_nat (Slice.len (values s))).

Definition Snapshot : M state t := self.

Definition StdDev : M state float :=
  s ← self; vs ← in_mem (Slice.read (values s));
  mret (SampleStdDevFloat64 vs).

Definition Sum : M state float :=
  s ← self; vs ← in_mem (Slice.read (values s)); mret (SampleSumFloat64 vs).

Definition Update (_ : float) : M state unit :=
  throw (panic_msg "Update called on a SampleSnapshotFloat64").

Definition Values : M state Slice.t :=
  s ← self;
  let n := Z.of_nat (Slice.len (values s)) in
  vs ← in_mem (Slice.make n n);
  _ ← in_mem (Slice.copy vs (values s));
  mret vs.

Definition Variance : M state float :=
  s ← self; vs ← in_mem (Slice.read (values s));
  mret (SampleVarianceFloat64 vs).

End SampleSnapshotFloat64.

(** ** The uniform sample (sample_float64.go, lines 330-466) *)

Module UniformSampleFloat64.

Record t : Type := mk { count : Z; reservoirSize : Z; values : Slice.t }.

Definition state : Type := (Slice.mem * t)%type.

Definition with_count (c : Z) (s : t) : t :=
  mk c (reservoirSize s) (values s).

Definition with_values (vs : Slice.t) (s : t) : t :=
  mk (count s) (reservoirSize s) vs.

(** [NewUniformSampleFloat64] *)
Definition New (reservoirSize : Z) : M Slice.mem t :=
  vs ← Slice.make 0 reservoirSize;
  mret (mk 0 reservoirSize vs).

Definition Clear : M state unit :=
  s ← self;
  in_obj (put (with_count 0 s));;
  s ← self;
  vs ← in_mem (Slice.make 0 (reservoirSize s));
  s ← self;
  in_obj (put (with_values vs s)).

Definition Count : M state Z := s ← self; mret (count s).

Definition Max : M state float :=
  s ← self; vs ← in_mem (Slice.read (values s)); mret (SampleMaxFloat64 vs).

Definition Mean : M state float :=
  s ← self; vs ← in_mem (Slice.read (values s)); mret (SampleMeanFloat64 vs).

Definition Min : M state float :=
  s ← self; vs ← in_mem (Slice.read (values s)); mret (SampleMinFloat64 vs).

(** The percentile functions are given [s.values] itself. *)
Definition Percentile (sort : list float -> list float) (undef : Z)
    (p : float) : M state float :=
  s ← self;
  in_mem (Slice.on_elems (values s) (SamplePercentileFloat64 sort undef p)).

Definition Percentiles (sort : list float -> list float) (undef : Z)
    (ps : list float) : M state (list float) :=
  s ← self;
  in_mem (Slice.on_elems (values s) (SamplePercentilesFloat64 sort undef ps)).

Definition Size : M state Z :=
  s ← self; mret (Z.of_nat (Slice.len (values s))).

Definition Snapshot : M state SampleSnapshotFloat64.t :=
  s ← self;
  let n := Z.of_nat (Slice.len (values s)) in
  vs ← in_mem (Slice.make n n);
  _ ← in_mem (Slice.copy vs (values s));
  mret (SampleSnapshotFloat64.mk (count s) vs).

Definition StdDev : M state float :=
  s ← self; vs ← in_mem (Slice.read (values s));
  mret (SampleStdDevFloat64 vs).

Definition Sum : M state float :=
  s ← self; vs ← in_mem (Slice.read (values s)); mret (SampleSumFloat64 vs).

Section Update.

Variable growslice : nat -> nat.

(** [Update(v)]; [raw] is the draw behind [rand.Int63n]. *)
Definition Update (raw : Z) (v : float) : M state unit :=
  s ← self;
  in_obj (put (with_count (wrap64 (count s + 1)) s));;
  s ← self;
  if Z.of_nat (Slice.len (values s)) <? reservoirSize s then
    vs ← in_mem (Slice.append growslice (values s) v);
    s ← self;
    in_obj (put (with_values vs s))
  else
    r ← Int63n raw (count s);
    if r <? Z.of_nat (Slice.len (values s)) then
      in_mem (Slice.store (values s) r v)
    else mret tt.

End Update.

Definition Values : M state Slice.t :=
  s ← self;
  let n := Z.of_nat (Slice.len (values s)) in
  vs ← in_mem (Slice.make n n);
  _ ← in_mem (Slice.copy vs (values s));
  mret vs.

Definition Variance : M state float :=
  s ← self; vs ← in_mem (Slice.read (values s));
  mret (SampleVarianceFloat64 vs).

End UniformSampleFloat64.

Module US := UniformSampleFloat64.
Module Snap := SampleSnapshotFloat64.

(** ** The decay sample (sample_float64.go, lines 28-174) *)

Module ExpDecaySampleFloat64.

Record t : Type := mk {
  alpha : float;
  count : Z;
  reservoirSize : Z;
  t0 : Z;
  t1 : Z;
  values : Heap.t
}.

Definition with_count (c : Z) (s : t) : t :=
  mk (alpha s) c (reservoirSize s) (t0 s) (t1 s) (values s).

Definition with_epoch (a b : Z) (s : t) : t :=
  mk (alpha s) (count s) (reservoirSize s) a b (values s).

Definition with_values (h : Heap.t) (s : t) : t :=
  mk (alpha s) (count s) (reservoirSize s) (t0 s) (t1 s) h.

(** A call on [s.values]. *)
Definition on_values {A} (m : M Heap.t A) : M t A :=
  fun s =>
    match m (values s) with
    | Done a h => Done a (with_values h s)
    | Panicked e h => Panicked e (with_values h s)
    end.

Section Sample.

(** [math.Exp], from Go's standard library. *)
Variable Exp : float -> float.

(** The constant [rescaleThreshold], declared in another file of the
    package. *)
Variable rescaleThreshold : Z.

(** [NewExpDecaySampleFloat64], at the time [now] that [time.Now()] returns;
    [None] is the panic of [make] on a negative capacity. *)
Definition New (size : Z) (a : float) (now : Z) : option t :=
  h ← Heap.new size;
  Some (mk a 0 size now (now + rescaleThreshold) h).

Definition Clear (now : Z) : M t unit :=
  s ← get;
  put (with_epoch now (now + rescaleThreshold) (with_count 0 s));;
  on_values Heap.Clear.

Definition Count : M t Z := s ← get; mret (count s).

Definition Size : M t Z := on_values Heap.Size.

(** A copy of the values in the sample. *)
Definition Values : M t (list float) :=
  s ← get; mret (map v (Heap.items (values s))).

(** One turn of the loop [for _, v := range values] of [update]: [i] is the
    index the loop is at.  [values] is the slice header returned by
    [s.values.Values()]; it shares the heap's backing array, so [values[i]]
    is read from the array as the [Push]es of the earlier turns left it. *)
Definition rescale_turn (t0_old : Z) (i : nat) : M t unit :=
  s ← get;
  match Heap.s (values s) !! i with
  | None => throw index_out_of_range
  | Some it =>
      let k' :=
        (k it * Exp (- alpha s * Seconds (Sub (t0 s) t0_old)))%float in
      on_values (Heap.Push (mkSample k' (v it)))
  end.

(** The body of [if t.After(s.t1)] in [update]. *)
Definition rescale (now : Z) : M t unit :=
  s ← get;
  let values_len := Heap.len (values s) in
  let t0_old := t0 s in
  on_values Heap.Clear;;
  s ← get;
  put (with_epoch now (now + rescaleThreshold) s);;
  for_each (seq 0 values_len) (rescale_turn t0_old).

(** [update], before its [if t.After(s.t1)]; [u] is the value that
    [rand.Float64()] returns. *)
Definition update_insert (now : Z) (x u : float) : M t unit :=
  s ← get;
  put (with_count (wrap64 (count s + 1)) s);;
  size ← on_values Heap.Size;
  (if size =? reservoirSize s then _ ← on_values Heap.Pop; mret tt
   else mret tt);;
  s ← get;
  on_values
    (Heap.Push
       (mkSample (Exp (Seconds (Sub now (t0 s)) * alpha s) / u)%float x)).

Definition update (now : Z) (x u : float) : M t unit :=
  update_insert now x u;;
  s ← get;
  if After now (t1 s) then rescale now else mret tt.

(** [Update(v)] is [update(time.Now(), v)]. *)
Definition Update (now : Z) (x u : float) : M t unit := update now x u.

End Sample.

Definition Max : M t float := vs ← Values; mret (SampleMaxFloat64 vs).
Definition Mean : M t float := vs ← Values; mret (SampleMeanFloat64 vs).
Definition Min : M t float := vs ← Values; mret (SampleMinFloat64 vs).
Definition StdDev : M t float := vs ← Values; mret (SampleStdDevFloat64 vs).
Definition Sum : M t float := vs ← Values; mret (SampleSumFloat64 vs).
Definition Variance : M t float :=
  vs ← Values; mret (SampleVarianceFloat64 vs).

(** The percentile functions sort the copy that [Values] made. *)
Definition Percentiles (sort : list float -> list float) (undef : Z)
    (ps : list float) : M t (list float) :=
  vs ← Values;
  match SamplePercentilesFloat64 sort undef ps vs with
  | Done scores _ => mret scores
  | Panicked e _ => throw e
  end.

Definition Percentile (sort : list float -> list float) (undef : Z)
    (p : float) : M t float :=
  vs ← Values;
  match SamplePercentileFloat64 sort undef p vs with
  | Done score _ => mret score
  | Panicked e _ => throw e
  end.

(** [Snapshot]: the values of the heap's items, into a new array. *)
Definition Snapshot : M (Slice.mem * t) SampleSnapshotFloat64.t :=
  s ← self;
  let vals := Heap.items (values s) in
  let n := Z.of_nat (length vals) in
  vs ← in_mem (Slice.make n n);
  in_mem
    (for_each (zip (seq 0 (length vals)) vals)
       (fun iv => Slice.store vs (Z.of_nat iv.1) (v iv.2)));;
  mret (SampleSnapshotFloat64.mk (count s) vs).

End ExpDecaySampleFloat64.

Module ED := ExpDecaySampleFloat64.

(** A stand-in for [math.Exp] on the three ranges where its value is known
    exactly: [Exp(0) = 1], underflow to [0] below -746 and overflow to
    [+Inf] above 710. *)
Definition Exp_sat (x : float) : float :=
  if (x =? 0)%float then 1%float
  else if (x <? -746)%float then 0%float
  else if (710 <? x)%float then infinity
  else nan.

Definition hour : Z := 3600 * 1000000000.

Example ED_update_ex :
  (s ← ED.New hour 2 1 0;
   Some (state_of
           ((ED.update Exp_sat hour 0 7 0.5;;
             ED.update Exp_sat hour 0 8 0.25;;
             ED.update Exp_sat hour 0 9 0.125;;
             ED.Values) s)))
  = Some (ED.mk 1 3 2 0 hour
            (Heap.mk [mkSample 4 8; mkSample 8 9]%float 2)).
Proof. vm_compute. reflexivity. Qed.

(** *** The sample keeps its heap inside the reservoir *)

Definition sample_wf (s : ED.t) : Prop :=
  heap_wf (ED.values s) /\
  Z.of_nat (Heap.cap (ED.values s)) = ED.reservoirSize s.

Lemma bind_Done {S A B} (m : M S A) (f : A -> M S B) st a st' :
  m st = Done a st' -> (m ≫= f) st = f a st'.
Proof. intros H. unfold mbind, M_bind. now rewrite H. Qed.

Lemma bind_Panicked {S A B} (m : M S A) (f : A -> M S B) st e st' :
  m st = Panicked e st' -> (m ≫= f) st = Panicked e st'.
Proof. intros H. unfold mbind, M_bind. now rewrite H. Qed.

Lemma on_values_Done {A} (m : M Heap.t A) s a h' :
  m (ED.values s) = Done a h' ->
  ED.on_values m s = Done a (ED.with_values h' s).
Proof. intros H. unfold ED.on_values. now rewrite H. Qed.

Lemma on_values_Panicked {A} (m : M Heap.t A) s e h' :
  m (ED.values s) = Panicked e h' ->
  ED.on_values m s = Panicked e (ED.with_values h' s).
Proof. intros H. unfold ED.on_values. now rewrite H. Qed.

Section SampleFacts.

Variable Exp : float -> float.
Variable rescaleThreshold : Z.

(** The priority [update] gives a new item. *)
Definition priority (s : ED.t) (now : Z) (u : float) : float :=
  (Exp (Seconds (Sub now (ED.t0 s)) * ED.alpha s) / u)%float.

Lemma update_insert_spec s now x u :
  sample_wf s -> 1 <= ED.reservoirSize s ->
  exists h',
    ED.update_insert Exp now x u s
    = Done tt (ED.mk (ED.alpha s) (wrap64 (ED.count s + 1))
                 (ED.reservoirSize s) (ED.t0 s) (ED.t1 s) h') /\
    heap_wf h' /\ Heap.cap h' = Heap.cap (ED.values s) /\
    (if decide (Heap.len (ED.values s) = Heap.cap (ED.values s))
     then Heap.len h' = Heap.len (ED.values s) /\
          exists rest,
            Heap.items (ED.values s)
            ≡ₚ Heap.s (ED.values s) !!! 0%nat :: rest /\
            Heap.items h' ≡ₚ mkSample (priority s now u) x :: rest
     else Heap.len h' = S (Heap.len (ED.values s)) /\
          Heap.items h'
          ≡ₚ mkSample (priority s now u) x :: Heap.items (ED.values s)).
Proof.
  destruct s as [al c rs e0 e1 h]. unfold sample_wf, priority.
  cbn [ED.values ED.reservoirSize ED.alpha ED.count ED.t0 ED.t1].
  intros [[Hlen Hmax] Hcap] Hrs.
  unfold ED.update_insert, mbind, M_bind, get, put, mret, M_ret,
    ED.on_values, Heap.Size, ED.with_count, ED.with_values.
  cbn [ED.values ED.reservoirSize ED.alpha ED.count ED.t0 ED.t1].
  set (new := mkSample (Exp (Seconds (Sub now e0) * al) / u)%float x).
  destruct (decide (Heap.len h = Heap.cap h)) as [Efull|Nfull].
  - replace (Z.of_nat (Heap.len h) =? rs) with true
      by (symmetry; apply Z.eqb_eq; lia).
    destruct (Pop_spec h) as (a1 & Hpop & Hlen1 & Hperm1 & _);
      [lia | split; assumption |].
    cbn [ED.values ED.reservoirSize ED.alpha ED.count ED.t0 ED.t1].
    rewrite Hpop.
    cbn [ED.values ED.reservoirSize ED.alpha ED.count ED.t0 ED.t1].
    fold new.
    destruct (Push_spec new (Heap.mk a1 (pred (Heap.len h))))
      as (a2 & Hpush & Hlen2 & Hperm2 & _).
    { unfold Heap.cap. cbn [Heap.s Heap.len]. rewrite Hlen1. lia. }
    rewrite Hpush.
    cbn [Heap.s Heap.len] in *.
    unfold Heap.cap in Hlen2. cbn [Heap.s] in Hlen2.
    exists (Heap.mk a2 (S (pred (Heap.len h)))).
    split; [reflexivity |].
    unfold heap_wf, Heap.cap, Heap.items. cbn [Heap.s Heap.len].
    rewrite Hlen2, Hlen1. unfold Heap.cap in *.
    split; [split; lia |]. split; [reflexivity |]. split; [lia |].
    exists (take (pred (Heap.len h)) a1). split; [exact Hperm1 |].
    exact Hperm2.
  - replace (Z.of_nat (Heap.len h) =? rs) with false
      by (symmetry; apply Z.eqb_neq; lia).
    cbn [ED.values ED.reservoirSize ED.alpha ED.count ED.t0 ED.t1].
    fold new.
    destruct (Push_spec new h) as (a2 & Hpush & Hlen2 & Hperm2 & _);
      [lia |].
    rewrite Hpush.
    exists (Heap.mk a2 (S (Heap.len h))).
    split; [reflexivity |].
    unfold heap_wf, Heap.cap, Heap.items. cbn [Heap.s Heap.len].
    unfold Heap.cap in *. rewrite Hlen2.
    split; [split; lia |]. split; [reflexivity |]. split; [reflexivity |].
    exact Hperm2.
Qed.

End SampleFacts.

(** *** The rescale *)

(** An item with its priority multiplied by [c]. *)
Definition scale (c : float) (it : item) : item :=
  mkSample (k it * c)%float (v it).

Lemma map_v_scale c l : map v (map (scale c) l) = map v l.
Proof. rewrite map_map. reflexivity. Qed.

Section RescaleFacts.

Variable Exp : float -> float.
Variable rescaleThreshold : Z.

(** The factor of a rescale at [now] of a sample whose epoch began at
    [t0_old]. *)
Definition rescale_factor (al : float) (t0_old now : Z) : float :=
  Exp (- al * Seconds (Sub now t0_old))%float.

Lemma rescale_loop_spec al c rs e0 e1 t0_old a0 n :
  (n <= length a0)%nat ->
  forall m i b,
    (i + m = n)%nat ->
    length b = length a0 ->
    drop i b = drop i a0 ->
    take i b ≡ₚ map (scale (rescale_factor al t0_old e0)) (take i a0) ->
    exists b',
      for_each (seq i m) (ED.rescale_turn Exp t0_old)
        (ED.mk al c rs e0 e1 (Heap.mk b i))
      = Done tt (ED.mk al c rs e0 e1 (Heap.mk b' n)) /\
      length b' = length a0 /\
      take n b' ≡ₚ map (scale (rescale_factor al t0_old e0)) (take n a0) /\
      drop n b' = drop n a0.
Proof.
  intros Hn. induction m as [|m IH]; intros i b Him Hlen Hdrop Hperm.
  - assert (i = n) as -> by lia. exists b. cbn. auto.
  - cbn [seq for_each].
    assert (Hi : (i < length a0)%nat) by lia.
    assert (Hread : b !! i = Some (a0 !!! i)).
    { rewrite <- (Nat.add_0_r i) at 1. rewrite <- lookup_drop, Hdrop.
      rewrite lookup_drop, Nat.add_0_r.
      now apply list_lookup_lookup_total_lt. }
    set (new := scale (rescale_factor al t0_old e0) (a0 !!! i)).
    destruct (Push_spec new (Heap.mk b i))
      as (b1 & Hpush & Hlen1 & Hperm1 & Hdrop1 & _).
    { unfold Heap.cap. cbn [Heap.s Heap.len]. lia. }
    unfold Heap.cap, Heap.items in *. cbn [Heap.s Heap.len] in *.
    destruct (IH (S i) b1) as (b' & Hrun & Hlen' & Hperm' & Hdrop').
    + lia.
    + lia.
    + rewrite Hdrop1.
      rewrite <- (Nat.add_1_r i), <- !drop_drop. now rewrite Hdrop.
    + rewrite Hperm1, Hperm.
      rewrite (take_S_r a0 i (a0 !!! i))
        by now apply list_lookup_lookup_total_lt.
      rewrite map_app. cbn [map]. apply Permutation_cons_append.
    + exists b'. split; [| auto].
      rewrite <- Hrun.
      unfold mbind at 1. unfold M_bind at 1.
      unfold ED.rescale_turn at 1.
      unfold mbind at 1. unfold M_bind at 1. unfold get at 1.
      cbn [ED.values ED.alpha ED.t0 Heap.s]. rewrite Hread.
      change (mkSample
                (k (a0 !!! i) * Exp (- al * Seconds (Sub e0 t0_old)))%float
                (v (a0 !!! i)))
        with new.
      unfold ED.on_values. cbn [ED.values]. rewrite Hpush. reflexivity.
Qed.

Lemma rescale_spec s now :
  heap_wf (ED.values s) ->
  exists b',
    ED.rescale Exp rescaleThreshold now s
    = Done tt (ED.mk (ED.alpha s) (ED.count s) (ED.reservoirSize s)
                 now (now + rescaleThreshold)
                 (Heap.mk b' (Heap.len (ED.values s)))) /\
    length b' = Heap.cap (ED.values s) /\
    take (Heap.len (ED.values s)) b'
    ≡ₚ map (scale (rescale_factor (ED.alpha s) (ED.t0 s) now))
         (Heap.items (ED.values s)).
Proof.
  destruct s as [al c rs e0 e1 [a0 n]]. unfold heap_wf, Heap.cap, Heap.items.
  cbn [ED.values ED.reservoirSize ED.alpha ED.count ED.t0 ED.t1
         Heap.s Heap.len].
  intros [Hlen Hmax].
  destruct (rescale_loop_spec al c rs now (now + rescaleThreshold) e0 a0 n
              Hlen n 0%nat a0)
    as (b' & Hrun & Hlen' & Hperm & _); auto.
  exists b'. split; [| auto].
  rewrite <- Hrun. reflexivity.
Qed.

End RescaleFacts.

Lemma update_unfold Exp thr now x u s s1 :
  ED.update_insert Exp now x u s = Done tt s1 ->
  ED.update Exp thr now x u s
  = if After now (ED.t1 s1) then ED.rescale Exp thr now s1 else Done tt s1.
Proof.
  intros H. unfold ED.update. rewrite (bind_Done _ _ _ _ _ H).
  unfold mbind, M_bind, get. now destruct (After now (ED.t1 s1)).
Qed.

(** The steps of a rescale: an update at a time [now] strictly after the
    deadline [t1] rescales.  The new item is first inserted as in every
    update; then the epoch start becomes [now], the deadline
    [now + rescaleThreshold], and the heap holds exactly the items it held,
    each with its priority multiplied by [Exp(-alpha * seconds(now - t0))]
    for the old epoch start [t0]: the multiset of retained values is
    unchanged.  The order of the multiplied priorities is not part of this
    statement. *)
Theorem update_rescales Exp thr s now x u :
  sample_wf s -> 1 <= ED.reservoirSize s -> ED.t1 s < now ->
  exists s1 s',
    ED.update_insert Exp now x u s = Done tt s1 /\
    ED.update Exp thr now x u s = Done tt s' /\
    ED.t0 s' = now /\ ED.t1 s' = ED.t0 s' + thr /\
    ED.alpha s' = ED.alpha s /\
    ED.reservoirSize s' = ED.reservoirSize s /\
    ED.count s' = wrap64 (ED.count s + 1) /\
    sample_wf s' /\
    Heap.len (ED.values s') = Heap.len (ED.values s1) /\
    Heap.items (ED.values s')
    ≡ₚ map (scale (rescale_factor Exp (ED.alpha s) (ED.t0 s) now))
         (Heap.items (ED.values s1)) /\
    map v (Heap.items (ED.values s')) ≡ₚ map v (Heap.items (ED.values s1)).
Proof.
  intros Hwf Hrs Hafter.
  destruct (update_insert_spec Exp s now x u Hwf Hrs)
    as (h1 & Hins & Hwf1 & Hcap1 & _).
  set (s1 := ED.mk (ED.alpha s) (wrap64 (ED.count s + 1))
               (ED.reservoirSize s) (ED.t0 s) (ED.t1 s) h1) in *.
  destruct (rescale_spec Exp thr s1 now Hwf1) as (b' & Hres & Hlen & Hperm).
  cbn [s1 ED.values ED.alpha ED.count ED.reservoirSize ED.t0] in Hres, Hlen,
      Hperm.
  eexists s1, _. split; [exact Hins |].
  split.
  { rewrite (update_unfold _ _ _ _ _ _ _ Hins). unfold After.
    cbn [s1 ED.t1]. destruct (Z.ltb_spec (ED.t1 s) now); [| lia].
    exact Hres. }
  cbn [ED.t0 ED.t1 ED.alpha ED.reservoirSize ED.count ED.values
         Heap.len Heap.s s1].
  repeat (split; [reflexivity |]).
  split.
  { destruct Hwf as [_ Hc], Hwf1 as [Hl1 Hm1].
    unfold sample_wf, heap_wf, Heap.cap in *.
    cbn [ED.values ED.reservoirSize Heap.s Heap.len]. rewrite Hlen.
    repeat split; try lia. }
  split; [reflexivity |].
  unfold Heap.items at 1 3. cbn [Heap.s Heap.len].
  split; [exact Hperm |].
  rewrite Hperm. now rewrite map_v_scale.
Qed.

(** An update at a time not after the deadline does not rescale. *)
Lemma update_no_rescale Exp thr s now x u :
  sample_wf s -> 1 <= ED.reservoirSize s -> now <= ED.t1 s ->
  ED.update Exp thr now x u s = ED.update_insert Exp now x u s /\
  ED.t0 (state_of (ED.update Exp thr now x u s)) = ED.t0 s /\
  ED.t1 (state_of (ED.update Exp thr now x u s)) = ED.t1 s.
Proof.
  intros Hwf Hrs Hle.
  destruct (update_insert_spec Exp s now x u Hwf Hrs) as (h1 & Hins & _).
  rewrite (update_unfold _ _ _ _ _ _ _ Hins), Hins. unfold After.
  cbn [ED.t1]. destruct (Z.ltb_spec (ED.t1 s) now); [lia |]. now cbn.
Qed.

(** A sample of capacity 3 and alpha 1 holding priorities 2 and 4. *)
Definition sample_ex : ED.t :=
  ED.mk 1 2 3 0 hour
    (heap_of [(2, 7); (4, 8)]%float 1).

Lemma sample_ex_wf : sample_wf sample_ex.
Proof.
  split; [split; [cbn; lia | vm_compute; discriminate] | reflexivity].
Qed.

Lemma update_rescales_witness :
  exists s1 s',
    ED.update_insert Exp_sat (hour + 1000) 9 0.5 sample_ex = Done tt s1 /\
    ED.update Exp_sat hour (hour + 1000) 9 0.5 sample_ex = Done tt s' /\
    ED.t0 s' = hour + 1000 /\ ED.t1 s' = ED.t0 s' + hour /\
    ED.alpha s' = ED.alpha sample_ex /\
    ED.reservoirSize s' = ED.reservoirSize sample_ex /\
    ED.count s' = wrap64 (ED.count sample_ex + 1) /\
    sample_wf s' /\
    Heap.len (ED.values s') = Heap.len (ED.values s1) /\
    Heap.items (ED.values s')
    ≡ₚ map (scale (rescale_factor Exp_sat (ED.alpha sample_ex)
                     (ED.t0 sample_ex) (hour + 1000)))
         (Heap.items (ED.values s1)) /\
    map v (Heap.items (ED.values s')) ≡ₚ map v (Heap.items (ED.values s1)).
Proof.
  apply (update_rescales Exp_sat hour sample_ex (hour + 1000) 9 0.5).
  - apply sample_ex_wf.
  - cbn. lia.
  - vm_compute. reflexivity.
Defined.

(** What that rescale leaves: the priorities 2 and 4 are both 0, and the
    new item's [+Inf] is NaN. *)
Example update_rescales_ex :
  Heap.items
    (ED.values
       (state_of (ED.update Exp_sat hour (hour + 1000) 9 0.5 sample_ex)))
  = [mkSample 0 7; mkSample 0 8; mkSample nan 9]%float.
Proof. vm_compute. reflexivity. Qed.

(** Whether the order of two priorities [a], [b], compared with [cmp], is
    kept by a rescaling update of [s] at time [now]. *)
Definition rescale_keeps_order (cmp : float -> float -> bool)
    (Exp : float -> float) (s : ED.t) (now : Z) (x u : float) : Prop :=
  forall s1 a b,
    ED.update_insert Exp now x u s = Done tt s1 ->
    a ∈ Heap.items (ED.values s1) -> b ∈ Heap.items (ED.values s1) ->
    cmp (k a) (k b) = true ->
    cmp (k (scale (rescale_factor Exp (ED.alpha s) (ED.t0 s) now) a))
        (k (scale (rescale_factor Exp (ED.alpha s) (ED.t0 s) now) b)) = true.

(** The order of the priorities is not kept by every rescale.  One hour and
    a microsecond into an epoch with alpha 1 the new item's priority
    [Exp(3600.000001) / 0.5] is [+Inf] and the factor [Exp(-3600.000001)] is
    0: the priorities 2 < 4 are both 0 after the rescale, and 4 <= +Inf
    becomes 0 against NaN.  Neither the strict nor the weak order is kept. *)
Lemma rescale_does_not_keep_order :
  ~ (forall Exp s now x u,
        sample_wf s -> 1 <= ED.reservoirSize s -> ED.t1 s < now ->
        rescale_keeps_order PrimFloat.ltb Exp s now x u) /\
  ~ (forall Exp s now x u,
        sample_wf s -> 1 <= ED.reservoirSize s -> ED.t1 s < now ->
        rescale_keeps_order PrimFloat.leb Exp s now x u).
Proof.
  assert (Hrs : 1 <= ED.reservoirSize sample_ex) by (cbn; lia).
  assert (Hnow : ED.t1 sample_ex < hour + 1000) by (vm_compute; reflexivity).
  split; intros H;
    specialize (H Exp_sat sample_ex (hour + 1000) 9%float 0.5%float
                  sample_ex_wf Hrs Hnow
                  (state_of (ED.update_insert Exp_sat (hour + 1000) 9 0.5
                               sample_ex))).
  - specialize (H (mkSample 2 7) (mkSample 4 8)).
    assert (Hc : false = true); [| discriminate].
    apply H.
    + vm_compute. reflexivity.
    + vm_compute. apply list_elem_of_here.
    + vm_compute. apply list_elem_of_further, list_elem_of_here.
    + vm_compute. reflexivity.
  - specialize (H (mkSample 4 8) (mkSample infinity 9)).
    assert (Hc : false = true); [| discriminate].
    apply H.
    + vm_compute. reflexivity.
    + vm_compute. apply list_elem_of_further, list_elem_of_here.
    + vm_compute. do 2 apply list_elem_of_further. apply list_elem_of_here.
    + vm_compute. reflexivity.
Qed.

(** C3: the code's rescale does not keep the order of the priorities, and
    leaves priorities that are exactly 0, where the factor underflows.  The
    sample that [NewExpDecaySampleFloat64(3, 1)] makes at time 0 is given 7
    and 8 at time 0, with the draws 0.5 and 0.25: it holds the priorities 2
    and 4.  The update with 9 one hour and a microsecond later is past the
    deadline and rescales by [Exp(-3600.000001)], which is 0 in float64: the
    priorities 2 and 4 are both 0 afterwards, and the new item's priority,
    [Exp(3600.000001) / 0.5 = +Inf], is NaN.  [Exp_sat] is [math.Exp] on the
    three arguments met here. *)
Theorem rescale_zeroes_priorities :
  exists s0 s2 s3,
    ED.New hour 3 1 0 = Some s0 /\
    (ED.update Exp_sat hour 0 7 0.5;; ED.update Exp_sat hour 0 8 0.25) s0
    = Done tt s2 /\
    Heap.items (ED.values s2) = [mkSample 2 7; mkSample 4 8]%float /\
    ED.t1 s2 < hour + 1000 /\
    ED.update Exp_sat hour (hour + 1000) 9 0.5 s2 = Done tt s3 /\
    Heap.items (ED.values s3)
    = [mkSample 0 7; mkSample 0 8; mkSample nan 9]%float.
Proof.
  eexists _, _, _.
  split; [reflexivity |].
  split; [vm_compute; reflexivity |].
  split; [vm_compute; reflexivity |].
  split; [vm_compute; reflexivity |].
  split; vm_compute; reflexivity.
Qed.

(** *** A reservoir of size 0 *)

Lemma New_wf thr size a now s :
  size <= max_int64 ->
  ED.New thr size a now = Some s ->
  sample_wf s /\ ED.reservoirSize s = size /\ 0 <= size /\
  ED.count s = 0 /\ Heap.len (ED.values s) = 0%nat /\
  ED.t0 s = now /\ ED.t1 s = now + thr.
Proof.
  intros Hmax.
  unfold ED.New, Heap.new. destruct (Z.leb_spec 0 size) as [Hs |];
    [| discriminate].
  cbn. intros [= <-]. unfold sample_wf, heap_wf, Heap.cap.
  cbn [ED.values ED.reservoirSize ED.count ED.t0 ED.t1 Heap.s Heap.len].
  rewrite length_replicate. repeat split; try lia.
Qed.

Lemma with_values_same s : ED.with_values (ED.values s) s = s.
Proof. now destruct s. Qed.

Lemma update_insert_zero Exp s now x u :
  sample_wf s -> ED.reservoirSize s = 0 ->
  ED.update_insert Exp now x u s
  = Panicked index_out_of_range (ED.with_count (wrap64 (ED.count s + 1)) s).
Proof.
  intros [[Hlen _] Hcap] Hrs.
  assert (Hl : Heap.len (ED.values s) = 0%nat) by lia.
  unfold ED.update_insert, mbind, M_bind, get, put, mret, M_ret,
    ED.on_values, Heap.Size.
  cbn [ED.values ED.reservoirSize ED.with_count ED.with_values].
  rewrite Hl, Hrs. change (Z.of_nat 0 =? 0) with true. cbv beta iota.
  cbn [ED.values ED.with_values ED.with_count].
  rewrite (Pop_empty _ Hl).
  destruct s; reflexivity.
Qed.

Lemma zero_reservoir_Update_spec Exp thr s now x u :
  sample_wf s -> ED.reservoirSize s = 0 ->
  let s' := ED.with_count (wrap64 (ED.count s + 1)) s in
  ED.Update Exp thr now x u s = Panicked index_out_of_range s' /\
  sample_wf s' /\ ED.reservoirSize s' = 0.
Proof.
  intros Hwf Hrs s'. split; [| split; [exact Hwf | exact Hrs]].
  unfold ED.Update, ED.update.
  now rewrite (bind_Panicked _ _ _ _ _ (update_insert_zero Exp s now x u
                                         Hwf Hrs)).
Qed.

(** C10: on a decay sample whose reservoir size is 0 every [Update] panics.
    The count is incremented, [Size() == reservoirSize] holds with both 0,
    and [Pop] on the empty heap indexes out of range; the state it leaves is
    again a sample of reservoir size 0, so the next [Update] panics too.
    [Pop] panics exactly on the empty heap. *)
Theorem zero_reservoir_Update_panics Exp thr s now x u :
  sample_wf s -> ED.reservoirSize s = 0 ->
  let s' := ED.with_count (wrap64 (ED.count s + 1)) s in
  ED.Update Exp thr now x u s = Panicked index_out_of_range s' /\
  Heap.Pop (ED.values s') = Panicked index_out_of_range (ED.values s') /\
  sample_wf s' /\ ED.reservoirSize s' = 0 /\
  (forall h, heap_wf h ->
             panicked (Heap.Pop h) = true <-> Heap.len h = 0%nat).
Proof.
  intros Hwf Hrs s'.
  split.
  { unfold ED.Update, ED.update.
    now rewrite (bind_Panicked _ _ _ _ _ (update_insert_zero Exp s now x u
                                           Hwf Hrs)). }
  split.
  { apply Pop_empty. destruct Hwf as [[Hlen _] Hcap].
    cbn [s' ED.with_count ED.values]. lia. }
  split; [exact Hwf |]. split; [exact Hrs |].
  intros h Hh. split.
  - intros Hp. destruct (Heap.len h) as [| n] eqn:Hn; [reflexivity |].
    destruct (Pop_spec h) as (a' & Hpop & _); [lia | exact Hh |].
    rewrite Hpop in Hp. discriminate.
  - intros Hn. now rewrite (Pop_empty _ Hn).
Qed.

Lemma zero_reservoir_Update_panics_witness :
  exists s,
    ED.New hour 0 0.5 0 = Some s /\
    let s' := ED.with_count (wrap64 (ED.count s + 1)) s in
    ED.Update Exp_sat hour 5 7 0.5 s = Panicked index_out_of_range s' /\
    Heap.Pop (ED.values s') = Panicked index_out_of_range (ED.values s') /\
    sample_wf s' /\ ED.reservoirSize s' = 0 /\
    (forall h, heap_wf h ->
               panicked (Heap.Pop h) = true <-> Heap.len h = 0%nat).
Proof.
  eexists. split; [reflexivity |].
  apply (zero_reservoir_Update_panics Exp_sat hour _ 5 7 0.5).
  - split; [split; [cbn; lia | vm_compute; discriminate] | reflexivity].
  - reflexivity.
Defined.

(** *** Count and size along a run of the decay sample *)

Lemma Clear_spec thr now s :
  sample_wf s ->
  exists s',
    ED.Clear thr now s = Done tt s' /\ sample_wf s' /\
    ED.reservoirSize s' = ED.reservoirSize s /\ ED.alpha s' = ED.alpha s /\
    ED.count s' = 0 /\ Heap.len (ED.values s') = 0%nat /\
    ED.t0 s' = now /\ ED.t1 s' = now + thr.
Proof.
  intros [[Hlen Hmax] Hcap]. eexists. split; [reflexivity |].
  unfold sample_wf, heap_wf, Heap.cap in *.
  cbn [ED.values ED.reservoirSize ED.alpha ED.count ED.t0 ED.t1
         ED.with_values ED.with_epoch ED.with_count Heap.s Heap.len].
  repeat split; try lia.
Qed.

Lemma update_spec Exp thr s now x u :
  sample_wf s -> 1 <= ED.reservoirSize s ->
  exists s',
    ED.update Exp thr now x u s = Done tt s' /\ sample_wf s' /\
    ED.reservoirSize s' = ED.reservoirSize s /\ ED.alpha s' = ED.alpha s /\
    ED.count s' = wrap64 (ED.count s + 1) /\
    Heap.len (ED.values s')
    = (if decide (Heap.len (ED.values s) = Heap.cap (ED.values s))
       then Heap.len (ED.values s) else S (Heap.len (ED.values s))).
Proof.
  intros Hwf Hrs.
  destruct (update_insert_spec Exp s now x u Hwf Hrs)
    as (h1 & Hins & Hwf1 & Hcap1 & Hlen1).
  set (s1 := ED.mk (ED.alpha s) (wrap64 (ED.count s + 1))
               (ED.reservoirSize s) (ED.t0 s) (ED.t1 s) h1) in *.
  assert (Hl1 : Heap.len h1
                = if decide (Heap.len (ED.values s) = Heap.cap (ED.values s))
                  then Heap.len (ED.values s)
                  else S (Heap.len (ED.values s))).
  { destruct (decide _); tauto. }
  rewrite (update_unfold _ _ _ _ _ _ _ Hins).
  destruct (After now (ED.t1 s1)).
  - destruct (rescale_spec Exp thr s1 now Hwf1) as (b' & Hres & Hlen & _).
    cbn [s1 ED.values ED.alpha ED.count ED.reservoirSize ED.t0] in Hres, Hlen.
    eexists. split; [exact Hres |].
    destruct Hwf as [_ Hc], Hwf1 as [Hle1 Hm1].
    unfold sample_wf, heap_wf, Heap.cap in *.
    cbn [ED.values ED.reservoirSize ED.alpha ED.count Heap.s Heap.len].
    rewrite Hlen. repeat split; try lia; try exact Hl1.
  - exists s1. split; [reflexivity |].
    destruct Hwf as [_ Hc]. unfold sample_wf.
    cbn [s1 ED.values ED.reservoirSize ED.alpha ED.count].
    split; [split; [exact Hwf1 | lia] |].
    repeat split; try exact Hl1.
Qed.

(** What one [Update] leaves, whether it returns or panics. *)
Lemma Update_step Exp thr s now x u :
  sample_wf s ->
  let s' := state_of (ED.Update Exp thr now x u s) in
  sample_wf s' /\ ED.reservoirSize s' = ED.reservoirSize s /\
  ED.count s' = wrap64 (ED.count s + 1) /\
  Z.of_nat (Heap.len (ED.values s'))
  = Z.min (Z.of_nat (Heap.len (ED.values s)) + 1) (ED.reservoirSize s) /\
  (1 <= ED.reservoirSize s -> ED.Update Exp thr now x u s = Done tt s').
Proof.
  intros Hwf s'. subst s'.
  assert (Hrs0 : 0 <= ED.reservoirSize s) by (destruct Hwf; lia).
  destruct (decide (ED.reservoirSize s = 0)) as [Hz | Hnz].
  - destruct (zero_reservoir_Update_spec Exp thr s now x u Hwf Hz)
      as (Hu & Hwf' & Hrs').
    rewrite Hu. cbn [state_of]. destruct Hwf as [[Hlen _] Hcap].
    split; [exact Hwf' |]. cbn [ED.with_count ED.reservoirSize ED.count
                                   ED.values].
    repeat split; try lia.
  - destruct (update_spec Exp thr s now x u Hwf) as
        (s' & Hu & Hwf' & Hrs' & _ & Hc' & Hl'); [lia |].
    unfold ED.Update. rewrite Hu. cbn [state_of].
    destruct Hwf as [[Hlen _] Hcap].
    split; [exact Hwf' |]. split; [exact Hrs' |]. split; [exact Hc' |].
    split; [| reflexivity].
    rewrite Hl'. destruct (decide _); lia.
Qed.

(** ** The uniform sample and the snapshots *)

(** *** Slices *)

Definition slice_wf (sl : Slice.t) (σ : Slice.mem) : Prop :=
  exists a, σ !! Slice.ptr sl = Some a /\ (Slice.len sl <= length a)%nat.

Lemma fresh_lookup (σ : Slice.mem) : σ !! fresh (dom σ) = None.
Proof. apply not_elem_of_dom, is_fresh. Qed.

Lemma mem_insert_insert (σ : Slice.mem) p a b :
  <[p := a]> (<[p := b]> σ) = <[p := a]> σ.
Proof. apply insert_insert_eq. Qed.

Lemma mem_insert_id (σ : Slice.mem) p a : σ !! p = Some a -> <[p := a]> σ = σ.
Proof. apply insert_id. Qed.

Lemma mem_lookup_insert_ne (σ : Slice.mem) p q a :
  p <> q -> <[p := a]> σ !! q = σ !! q.
Proof. apply lookup_insert_ne. Qed.

Lemma mem_lookup_insert (σ : Slice.mem) p a : <[p := a]> σ !! p = Some a.
Proof. apply lookup_insert_eq. Qed.

Lemma make_spec n c σ :
  0 <= n <= c ->
  Slice.make n c σ
  = Done (Slice.mk (fresh (dom σ)) (Z.to_nat n))
      (<[fresh (dom σ) := replicate (Z.to_nat c) 0%float]> σ).
Proof.
  intros H. unfold Slice.make.
  replace ((0 <=? n) && (n <=? c)) with true; [reflexivity |].
  symmetry. apply andb_true_intro. split; apply Z.leb_le; lia.
Qed.

Lemma make_panics n c σ :
  n < 0 \/ c < n -> Slice.make n c σ = Panicked makeslice_out_of_range σ.
Proof.
  intros H. unfold Slice.make.
  replace ((0 <=? n) && (n <=? c)) with false; [reflexivity |].
  symmetry. apply andb_false_iff.
  destruct H; [left | right]; apply Z.leb_gt; lia.
Qed.

Lemma array_lookup sl σ a :
  σ !! Slice.ptr sl = Some a -> Slice.array sl σ = a.
Proof. intros H. unfold Slice.array. now rewrite H. Qed.

Lemma array_insert sl a σ : Slice.array sl (<[Slice.ptr sl := a]> σ) = a.
Proof. apply array_lookup, lookup_insert_eq. Qed.

Lemma elems_frame sl (σ σ' : Slice.mem) :
  σ' !! Slice.ptr sl = σ !! Slice.ptr sl ->
  Slice.elems sl σ' = Slice.elems sl σ.
Proof. intros H. unfold Slice.elems, Slice.array. now rewrite H. Qed.

Lemma elems_length sl σ :
  slice_wf sl σ -> length (Slice.elems sl σ) = Slice.len sl.
Proof.
  intros (a & Ha & Hl). unfold Slice.elems.
  rewrite (array_lookup _ _ _ Ha), length_take. lia.
Qed.

Lemma store_spec sl i x σ :
  0 <= i < Z.of_nat (Slice.len sl) ->
  Slice.store sl i x σ
  = Done tt (<[Slice.ptr sl := <[Z.to_nat i := x]> (Slice.array sl σ)]> σ).
Proof.
  intros H. unfold Slice.store.
  replace ((0 <=? i) && (i <? Z.of_nat (Slice.len sl))) with true;
    [reflexivity |].
  symmetry. apply andb_true_intro.
  split; [apply Z.leb_le | apply Z.ltb_lt]; lia.
Qed.

(** *** The uniform sample keeps its values inside the reservoir *)

Definition uniform_wf (st : US.state) : Prop :=
  slice_wf (US.values st.2) st.1 /\
  Z.of_nat (Slice.cap (US.values st.2) st.1) = US.reservoirSize st.2.

Lemma US_New_spec size σ :
  0 <= size ->
  exists s,
    US.New size σ
    = Done s (<[fresh (dom σ) := replicate (Z.to_nat size) 0%float]> σ) /\
    s = US.mk 0 size (Slice.mk (fresh (dom σ)) 0) /\
    uniform_wf (<[fresh (dom σ) := replicate (Z.to_nat size) 0%float]> σ, s).
Proof.
  intros Hs. eexists. unfold US.New.
  rewrite (bind_Done _ _ _ _ _ (make_spec 0 size σ ltac:(lia))).
  split; [reflexivity |]. split; [reflexivity |].
  unfold uniform_wf, slice_wf, Slice.cap.
  cbn [fst snd US.values US.reservoirSize Slice.ptr Slice.len].
  rewrite array_insert, length_replicate. split; [| lia].
  eexists. split; [apply lookup_insert_eq |]. cbn. lia.
Qed.

Lemma US_New_panics size σ :
  size < 0 -> US.New size σ = Panicked makeslice_out_of_range σ.
Proof.
  intros Hs. unfold US.New.
  now rewrite (bind_Panicked _ _ _ _ _ (make_panics 0 size σ ltac:(lia))).
Qed.

Lemma US_Clear_run σ s :
  0 <= US.reservoirSize s ->
  US.Clear (σ, s)
  = Done tt
      (<[fresh (dom σ) := replicate (Z.to_nat (US.reservoirSize s)) 0%float]> σ,
       US.mk 0 (US.reservoirSize s) (Slice.mk (fresh (dom σ)) 0)).
Proof.
  intros Hs.
  unfold US.Clear, self, in_obj, in_mem, mbind, M_bind, get, put.
  cbn [fst snd US.with_count US.with_values US.reservoirSize US.count].
  rewrite (make_spec 0 (US.reservoirSize s) σ) by lia. reflexivity.
Qed.

Lemma US_Update_run growslice raw v σ s :
  uniform_wf (σ, s) ->
  US.Update growslice raw v (σ, s)
  = let c := wrap64 (US.count s + 1) in
    let n := Slice.len (US.values s) in
    let p := Slice.ptr (US.values s) in
    if Z.of_nat n <? US.reservoirSize s then
      Done tt (<[p := <[n := v]> (Slice.array (US.values s) σ)]> σ,
               US.mk c (US.reservoirSize s) (Slice.mk p (S n)))
    else if c <=? 0 then
      Panicked invalid_argument_to_Int63n
        (σ, US.mk c (US.reservoirSize s) (US.values s))
    else if raw mod c <? Z.of_nat n then
      Done tt
        (<[p := <[Z.to_nat (raw mod c) := v]> (Slice.array (US.values s) σ)]> σ,
         US.mk c (US.reservoirSize s) (US.values s))
    else Done tt (σ, US.mk c (US.reservoirSize s) (US.values s)).
Proof.
  intros [(a & Ha & Hl) Hcap]. cbn [fst snd] in *.
  unfold US.Update, self, in_obj, in_mem, mbind, M_bind, get, put, Int63n,
    throw, mret, M_ret.
  cbn [fst snd US.with_count US.with_values US.reservoirSize US.count
         US.values].
  cbv zeta.
  destruct (Z.ltb_spec (Z.of_nat (Slice.len (US.values s)))
              (US.reservoirSize s)) as [Hlt | Hge].
  - unfold Slice.append. cbn [fst snd US.with_count US.values].
    destruct (decide (Slice.len (US.values s)
                      < Slice.cap (US.values s) σ)%nat) as [| Hn];
      [reflexivity | lia].
  - destruct (Z.leb_spec (wrap64 (US.count s + 1)) 0) as [| Hc];
      [reflexivity |].
    destruct (Z.ltb_spec (raw mod wrap64 (US.count s + 1))
                (Z.of_nat (Slice.len (US.values s)))) as [Hr | Hr];
      [| reflexivity].
    rewrite store_spec; [reflexivity |].
    split; [apply Z.mod_pos_bound; lia | exact Hr].
Qed.

Ltac array_insert :=
  repeat match goal with
    | |- context [Slice.array ?sl (<[?p := ?a]> ?σ)] =>
        rewrite (array_lookup sl (<[p := a]> σ) a) by apply lookup_insert_eq
    end.

(** What one [Update] of the uniform sample leaves, whether it returns or
    panics: the sample keeps its array, and no other array is written. *)
Lemma US_Update_step growslice raw v st :
  uniform_wf st ->
  let st' := state_of (US.Update growslice raw v st) in
  uniform_wf st' /\
  US.reservoirSize st'.2 = US.reservoirSize st.2 /\
  US.count st'.2 = wrap64 (US.count st.2 + 1) /\
  Slice.ptr (US.values st'.2) = Slice.ptr (US.values st.2) /\
  (forall l, l <> Slice.ptr (US.values st.2) -> st'.1 !! l = st.1 !! l) /\
  Z.of_nat (Slice.len (US.values st'.2))
  = Z.min (Z.of_nat (Slice.len (US.values st.2)) + 1) (US.reservoirSize st.2) /\
  (0 <= US.count st.2 < max_int64 ->
   US.Update growslice raw v st = Done tt st').
Proof.
  destruct st as [σ s]. intros Hwf st'. subst st'.
  rewrite (US_Update_run growslice raw v σ s Hwf).
  destruct Hwf as [(a & Ha & Hl) Hcap]. cbn [fst snd] in *.
  unfold Slice.cap in Hcap. rewrite (array_lookup _ _ _ Ha) in *.
  cbv zeta.
  destruct (Z.ltb_spec (Z.of_nat (Slice.len (US.values s)))
              (US.reservoirSize s)) as [Hlt | Hge];
    [| destruct (Z.leb_spec (wrap64 (US.count s + 1)) 0) as [Hc | Hc];
       [| destruct (Z.ltb_spec (raw mod wrap64 (US.count s + 1))
                      (Z.of_nat (Slice.len (US.values s)))) as [Hr | Hr]]];
    cbn [state_of fst snd US.reservoirSize US.count US.values Slice.ptr
           Slice.len];
    unfold uniform_wf, slice_wf, Slice.cap;
    cbn [fst snd US.reservoirSize US.count US.values Slice.ptr Slice.len].
  - array_insert. rewrite length_insert.
    split; [split; [| exact Hcap] |].
    { eexists. split; [apply lookup_insert_eq |]. rewrite length_insert. lia. }
    repeat split; try lia.
    intros l Hne. now apply lookup_insert_ne.
  - rewrite (array_lookup _ _ _ Ha).
    split; [split; [| exact Hcap] |]; [eexists; split; [exact Ha | exact Hl] |].
    repeat split; try lia.
    intros Hcnt. rewrite wrap64_id in Hc by (unfold in_int64, min_int64; lia).
    lia.
  - array_insert. rewrite length_insert.
    split; [split; [| exact Hcap] |].
    { eexists. split; [apply lookup_insert_eq |]. rewrite length_insert. lia. }
    repeat split; try lia.
    intros l Hne. now apply lookup_insert_ne.
  - rewrite (array_lookup _ _ _ Ha).
    split; [split; [| exact Hcap] |]; [eexists; split; [exact Ha | exact Hl] |].
    repeat split; try lia.
Qed.

Lemma US_Clear_step st :
  uniform_wf st ->
  exists st',
    US.Clear st = Done tt st' /\ uniform_wf st' /\
    US.reservoirSize st'.2 = US.reservoirSize st.2 /\
    US.count st'.2 = 0 /\ Slice.len (US.values st'.2) = 0%nat /\
    Slice.ptr (US.values st'.2) = fresh (dom st.1) /\
    (forall l, l <> fresh (dom st.1) -> st'.1 !! l = st.1 !! l).
Proof.
  destruct st as [σ s]. intros [_ Hcap]. cbn [fst snd] in *.
  eexists. split; [apply US_Clear_run; lia |].
  unfold uniform_wf, slice_wf, Slice.cap.
  cbn [fst snd US.reservoirSize US.count US.values Slice.ptr Slice.len].
  array_insert. rewrite length_replicate.
  split; [split; [| lia] |].
  { eexists. split; [apply lookup_insert_eq |]. lia. }
  repeat split.
  intros l Hne. now apply lookup_insert_ne.
Qed.

(** C2: [Update(v)] on a uniform sample whose count is in [0, max_int64)
    increments the count.  If fewer values are held than the reservoir size,
    [v] is appended.  Otherwise [r = rand.Int63n(count)] is drawn from
    [0, count) with the new count, the reservoir is full, and [v] overwrites
    [values[r]] if [r] is less than the reservoir size; else the values and
    the arrays are unchanged. *)
Theorem US_Update_rule growslice raw v σ s :
  uniform_wf (σ, s) -> 0 <= US.count s < max_int64 ->
  exists σ' s',
    US.Update growslice raw v (σ, s) = Done tt (σ', s') /\
    US.count s' = US.count s + 1 /\
    US.reservoirSize s' = US.reservoirSize s /\
    let vals := Slice.elems (US.values s) σ in
    let vals' := Slice.elems (US.values s') σ' in
    if Z.of_nat (length vals) <? US.reservoirSize s then vals' = vals ++ [v]
    else
      let r := raw mod US.count s' in
      0 <= r < US.count s' /\
      Z.of_nat (length vals) = US.reservoirSize s /\
      if r <? US.reservoirSize s then vals' = <[Z.to_nat r := v]> vals
      else vals' = vals /\ σ' = σ.
Proof.
  intros Hwf Hcnt.
  assert (Hlen := elems_length _ _ (proj1 Hwf)). cbn [fst snd] in Hlen.
  pose proof (US_Update_run growslice raw v σ s Hwf) as Hrun.
  destruct Hwf as [(a & Ha & Hl) Hcap]. cbn [fst snd] in *.
  unfold Slice.cap in Hcap. rewrite (array_lookup _ _ _ Ha) in *.
  rewrite wrap64_id in Hrun by (unfold min_int64; lia).
  cbv zeta in Hrun. cbv zeta. rewrite Hlen.
  destruct (Z.ltb_spec (Z.of_nat (Slice.len (US.values s)))
              (US.reservoirSize s)) as [Hlt | Hge].
  - eexists _, _. split; [exact Hrun |].
    cbn [US.count US.reservoirSize US.values].
    split; [reflexivity |]. split; [reflexivity |].
    unfold Slice.elems. cbn [Slice.len]. array_insert.
    rewrite (array_lookup _ _ _ Ha).
    rewrite (take_S_r _ _ v) by (apply list_lookup_insert_eq; lia).
    now rewrite take_insert_ge by lia.
  - destruct (Z.leb_spec (US.count s + 1) 0) as [| Hc]; [lia |].
    assert (Hr := Z.mod_pos_bound raw (US.count s + 1) Hc).
    assert (Hfull : Z.of_nat (Slice.len (US.values s)) = US.reservoirSize s)
      by lia.
    rewrite Hfull in Hrun.
    destruct (Z.ltb_spec (raw mod (US.count s + 1)) (US.reservoirSize s))
      as [Hlt | Hnlt].
    + eexists _, _. split; [exact Hrun |].
      cbn [US.count US.reservoirSize US.values].
      split; [reflexivity |]. split; [reflexivity |].
      split; [exact Hr |]. split; [exact Hfull |].
      destruct (Z.ltb_spec (raw mod (US.count s + 1)) (US.reservoirSize s));
        [| lia].
      unfold Slice.elems. array_insert. rewrite (array_lookup _ _ _ Ha).
      apply take_insert_lt. lia.
    + eexists _, _. split; [exact Hrun |].
      cbn [US.count US.reservoirSize US.values].
      split; [reflexivity |]. split; [reflexivity |].
      split; [exact Hr |]. split; [exact Hfull |].
      destruct (Z.ltb_spec (raw mod (US.count s + 1)) (US.reservoirSize s));
        [lia |].
      split; reflexivity.
Qed.

(** A uniform sample of reservoir size 2 that has seen 5 values. *)
Definition uniform_ex : US.state :=
  ({[ 1%positive := [3; 4]%float ]}, US.mk 5 2 (Slice.mk 1%positive 2)).

Lemma uniform_ex_wf : uniform_wf uniform_ex.
Proof.
  split; [| reflexivity].
  exists [3; 4]%float. split; [reflexivity |]. cbn. lia.
Qed.

Lemma US_Update_rule_witness :
  exists σ' s',
    US.Update (Nat.mul 2) 13 9 uniform_ex = Done tt (σ', s') /\
    US.count s' = US.count uniform_ex.2 + 1 /\
    US.reservoirSize s' = US.reservoirSize uniform_ex.2 /\
    let vals := Slice.elems (US.values uniform_ex.2) uniform_ex.1 in
    let vals' := Slice.elems (US.values s') σ' in
    if Z.of_nat (length vals) <? US.reservoirSize uniform_ex.2
    then vals' = vals ++ [9%float]
    else
      let r := 13 mod US.count s' in
      0 <= r < US.count s' /\
      Z.of_nat (length vals) = US.reservoirSize uniform_ex.2 /\
      if r <? US.reservoirSize uniform_ex.2
      then vals' = <[Z.to_nat r := 9%float]> vals
      else vals' = vals /\ σ' = uniform_ex.1.
Proof.
  apply (US_Update_rule (Nat.mul 2) 13 9 uniform_ex.1 uniform_ex.2).
  - exact uniform_ex_wf.
  - vm_compute. split; [discriminate | reflexivity].
Defined.

(** 13 mod 6 = 1: the second value is replaced. *)
Example US_Update_ex :
  (let st := state_of (US.Update (Nat.mul 2) 13 9 uniform_ex) in
   (US.count st.2, Slice.elems (US.values st.2) st.1))
  = (6, [3; 9]%float).
Proof. vm_compute. reflexivity. Qed.

(** *** Count and size along a run *)

(** [Update] called with each draw and value of [calls] in turn. *)
Definition US_updates (growslice : nat -> nat) (calls : list (Z * float))
  : M US.state unit :=
  for_each calls (fun c => US.Update growslice c.1 c.2).

(** [Update] called at each time, with each value and draw, of [calls]. *)
Definition ED_updates (Exp : float -> float) (thr : Z)
    (calls : list (Z * float * float)) : M ED.t unit :=
  for_each calls (fun c => ED.Update Exp thr c.1.1 c.1.2 c.2).

Lemma US_updates_run growslice calls :
  forall st,
    uniform_wf st -> 0 <= US.count st.2 ->
    US.count st.2 + Z.of_nat (length calls) <= max_int64 ->
    Z.of_nat (Slice.len (US.values st.2))
    = Z.min (US.count st.2) (US.reservoirSize st.2) ->
    exists st',
      US_updates growslice calls st = Done tt st' /\ uniform_wf st' /\
      US.reservoirSize st'.2 = US.reservoirSize st.2 /\
      US.count st'.2 = US.count st.2 + Z.of_nat (length calls) /\
      Z.of_nat (Slice.len (US.values st'.2))
      = Z.min (US.count st'.2) (US.reservoirSize st'.2).
Proof.
  induction calls as [| c calls IH]; intros st Hwf Hc0 Hmax Hlen.
  - exists st. cbn [length Z.of_nat]. rewrite Z.add_0_r.
    split; [reflexivity |]. split; [exact Hwf |]. split; [reflexivity |].
    split; [reflexivity | exact Hlen].
  - cbn [length] in Hmax. rewrite Nat2Z.inj_succ in Hmax.
    destruct (US_Update_step growslice c.1 c.2 st Hwf)
      as (Hwf' & Hrs' & Hc' & _ & _ & Hl' & Hrun).
    rewrite wrap64_id in Hc' by (unfold min_int64; lia).
    destruct (IH _ Hwf') as (st' & Hrun' & Hwf'' & Hrs'' & Hc'' & Hl'');
      [lia | lia | lia |].
    exists st'. split.
    { unfold US_updates. cbn [for_each].
      rewrite (bind_Done _ _ _ _ _ (Hrun ltac:(lia))). exact Hrun'. }
    split; [exact Hwf'' |]. split; [congruence |].
    split; [cbn [length]; lia |]. exact Hl''.
Qed.

Lemma ED_updates_run Exp thr calls :
  forall s,
    sample_wf s -> 1 <= ED.reservoirSize s -> 0 <= ED.count s ->
    ED.count s + Z.of_nat (length calls) <= max_int64 ->
    Z.of_nat (Heap.len (ED.values s))
    = Z.min (ED.count s) (ED.reservoirSize s) ->
    exists s',
      ED_updates Exp thr calls s = Done tt s' /\ sample_wf s' /\
      ED.reservoirSize s' = ED.reservoirSize s /\
      ED.count s' = ED.count s + Z.of_nat (length calls) /\
      Z.of_nat (Heap.len (ED.values s'))
      = Z.min (ED.count s') (ED.reservoirSize s').
Proof.
  induction calls as [| c calls IH]; intros s Hwf Hrs Hc0 Hmax Hlen.
  - exists s. cbn [length Z.of_nat]. rewrite Z.add_0_r.
    split; [reflexivity |]. split; [exact Hwf |]. split; [reflexivity |].
    split; [reflexivity | exact Hlen].
  - cbn [length] in Hmax. rewrite Nat2Z.inj_succ in Hmax.
    destruct (Update_step Exp thr s c.1.1 c.1.2 c.2 Hwf)
      as (Hwf' & Hrs' & Hc' & Hl' & Hrun).
    rewrite wrap64_id in Hc' by (unfold min_int64; lia).
    destruct (IH _ Hwf') as (s' & Hrun' & Hwf'' & Hrs'' & Hc'' & Hl'');
      [lia | lia | lia | lia |].
    exists s'. split.
    { unfold ED_updates. cbn [for_each].
      rewrite (bind_Done _ _ _ _ _ (Hrun Hrs)). exact Hrun'. }
    split; [exact Hwf'' |]. split; [congruence |].
    split; [cbn [length]; lia |]. exact Hl''.
Qed.

(** C7: after [Clear] and then N calls of [Update] (N no more than the
    largest int64), on the uniform sample and on a decay sample of reservoir
    size at least 1, every call returns, [Count()] is N and [Size()] is the
    smaller of N and the reservoir size, so at most the reservoir size. *)
Theorem Count_and_Size_after_updates growslice Exp thr now
    (st : US.state) (s : ED.t)
    (ucalls : list (Z * float)) (dcalls : list (Z * float * float)) :
  uniform_wf st -> sample_wf s -> 1 <= ED.reservoirSize s ->
  Z.of_nat (length ucalls) <= max_int64 ->
  Z.of_nat (length dcalls) <= max_int64 ->
  (exists st',
      (US.Clear;; US_updates growslice ucalls) st = Done tt st' /\
      US.Count st' = Done (Z.of_nat (length ucalls)) st' /\
      US.Size st'
      = Done (Z.min (Z.of_nat (length ucalls)) (US.reservoirSize st.2)) st' /\
      Z.of_nat (Slice.len (US.values st'.2))
      = Z.min (US.count st'.2) (US.reservoirSize st'.2)) /\
  (exists s',
      (ED.Clear thr now;; ED_updates Exp thr dcalls) s = Done tt s' /\
      ED.Count s' = Done (Z.of_nat (length dcalls)) s' /\
      ED.Size s'
      = Done (Z.min (Z.of_nat (length dcalls)) (ED.reservoirSize s)) s').
Proof.
  intros Hu Hd Hrs Hun Hdn. split.
  - destruct (US_Clear_step st Hu)
      as (st0 & Hclr & Hwf0 & Hrs0 & Hc0 & Hl0 & _).
    pose proof (proj2 Hwf0) as Hcap0.
    destruct (US_updates_run growslice ucalls st0 Hwf0)
      as (st' & Hrun & Hwf' & Hrs' & Hc' & Hl'); [lia | lia | lia |].
    exists st'. split; [now rewrite (bind_Done _ _ _ _ _ Hclr) |].
    destruct st' as [σ' s']. cbn [fst snd] in *.
    unfold US.Count, US.Size, self, in_obj, mbind, M_bind, get, mret, M_ret.
    cbn [fst snd].
    split; [f_equal; lia |]. split; [f_equal; lia | exact Hl'].
  - destruct (Clear_spec thr now s Hd)
      as (s0 & Hclr & Hwf0 & Hrs0 & _ & Hc0 & Hl0 & _).
    pose proof (proj2 Hwf0) as Hcap0.
    destruct (ED_updates_run Exp thr dcalls s0 Hwf0)
      as (s' & Hrun & Hwf' & Hrs' & Hc' & Hl'); [lia | lia | lia | lia |].
    exists s'. split; [now rewrite (bind_Done _ _ _ _ _ Hclr) |].
    unfold ED.Count, ED.Size, ED.on_values, Heap.Size, mbind, M_bind, get,
      mret, M_ret.
    rewrite with_values_same.
    split; f_equal; lia.
Qed.

Definition ucalls_ex : list (Z * float) :=
  [(7, 1%float); (8, 2%float); (0, 3%float)].

Definition dcalls_ex : list (Z * float * float) :=
  [(0, 1%float, 0.5%float); (0, 2%float, 0.5%float)].

Lemma Count_and_Size_after_updates_witness :
  (exists st',
      (US.Clear;; US_updates (Nat.mul 2) ucalls_ex) uniform_ex
      = Done tt st' /\
      US.Count st' = Done (Z.of_nat (length ucalls_ex)) st' /\
      US.Size st'
      = Done (Z.min (Z.of_nat (length ucalls_ex))
                (US.reservoirSize uniform_ex.2)) st' /\
      Z.of_nat (Slice.len (US.values st'.2))
      = Z.min (US.count st'.2) (US.reservoirSize st'.2)) /\
  (exists s',
      (ED.Clear hour 0;; ED_updates Exp_sat hour dcalls_ex) sample_ex
      = Done tt s' /\
      ED.Count s' = Done (Z.of_nat (length dcalls_ex)) s' /\
      ED.Size s'
      = Done (Z.min (Z.of_nat (length dcalls_ex))
                (ED.reservoirSize sample_ex)) s').
Proof.
  apply (Count_and_Size_after_updates (Nat.mul 2) Exp_sat hour 0
           uniform_ex sample_ex ucalls_ex dcalls_ex).
  - exact uniform_ex_wf.
  - exact sample_ex_wf.
  - cbn. lia.
  - vm_compute. discriminate.
  - vm_compute. discriminate.
Defined.

(** Three values into a cleared uniform sample of reservoir size 2: the
    third draw, 0 mod 3 = 0, replaces the first value. *)
Example US_updates_ex :
  (let st := state_of ((US.Clear;; US_updates (Nat.mul 2) ucalls_ex)
                         uniform_ex) in
   (US.count st.2, Slice.elems (US.values st.2) st.1))
  = (3, [3; 2]%float).
Proof. vm_compute. reflexivity. Qed.

(** *** Snapshots *)

(** What a call returns, or the panic it ends in. *)
Definition answer {S A} (o : outcome S A) : A + panic :=
  match o with Done a _ => inl a | Panicked e _ => inr e end.

(** The elements of the slice that a call returns. *)
Definition answer_elems {T} (o : outcome (Slice.mem * T) Slice.t)
  : list float + panic :=
  match o with
  | Done sl st => inl (Slice.elems sl st.1)
  | Panicked e _ => inr e
  end.

(** [make([]float64, len(src))] followed by [copy] from [src]. *)
Lemma make_copy src σ :
  slice_wf src σ ->
  let n := Z.of_nat (Slice.len src) in
  let vs := Slice.mk (fresh (dom σ)) (Slice.len src) in
  exists σ1,
    Slice.make n n σ = Done vs σ1 /\
    Slice.copy vs src σ1
    = Done n (<[fresh (dom σ) := Slice.elems src σ]> σ).
Proof.
  intros (a & Ha & Hl) n vs. eexists. split.
  { unfold n. rewrite make_spec by lia. rewrite Nat2Z.id. reflexivity. }
  assert (Hne : fresh (dom σ) <> Slice.ptr src).
  { intros Heq. pose proof (fresh_lookup σ) as Hf. rewrite Heq in Hf.
    congruence. }
  unfold Slice.copy. cbn [vs Slice.len Slice.ptr]. rewrite Nat.min_id.
  array_insert.
  rewrite (elems_frame src σ) by now apply lookup_insert_ne.
  rewrite mem_insert_insert. unfold Slice.elems.
  rewrite (array_lookup _ _ _ Ha), take_take, Nat.min_id.
  rewrite drop_ge by (rewrite length_replicate; lia).
  now rewrite app_nil_r.
Qed.

Lemma US_Snapshot_spec σ s :
  uniform_wf (σ, s) ->
  US.Snapshot (σ, s)
  = Done (Snap.mk (US.count s)
            (Slice.mk (fresh (dom σ)) (Slice.len (US.values s))))
      (<[fresh (dom σ) := Slice.elems (US.values s) σ]> σ, s).
Proof.
  intros [Hwf _]. cbn [fst snd] in Hwf.
  destruct (make_copy _ _ Hwf) as (σ1 & Hmake & Hcopy).
  unfold US.Snapshot, self, in_obj, in_mem, mbind, M_bind, get, mret, M_ret.
  cbn [fst snd]. rewrite Hmake. cbn [fst snd]. now rewrite Hcopy.
Qed.

Lemma US_Values_spec σ s :
  uniform_wf (σ, s) ->
  US.Values (σ, s)
  = Done (Slice.mk (fresh (dom σ)) (Slice.len (US.values s)))
      (<[fresh (dom σ) := Slice.elems (US.values s) σ]> σ, s).
Proof.
  intros [Hwf _]. cbn [fst snd] in Hwf.
  destruct (make_copy _ _ Hwf) as (σ1 & Hmake & Hcopy).
  unfold US.Values, self, in_obj, in_mem, mbind, M_bind, get, mret, M_ret.
  cbn [fst snd]. rewrite Hmake. cbn [fst snd]. now rewrite Hcopy.
Qed.

Lemma Snap_Values_spec σ s :
  slice_wf (Snap.values s) σ ->
  Snap.Values (σ, s)
  = Done (Slice.mk (fresh (dom σ)) (Slice.len (Snap.values s)))
      (<[fresh (dom σ) := Slice.elems (Snap.values s) σ]> σ, s).
Proof.
  intros Hwf.
  destruct (make_copy _ _ Hwf) as (σ1 & Hmake & Hcopy).
  unfold Snap.Values, self, in_obj, in_mem, mbind, M_bind, get, mret, M_ret.
  cbn [fst snd]. rewrite Hmake. cbn [fst snd]. now rewrite Hcopy.
Qed.

(** A copy holds the elements it was made from. *)
Lemma elems_copy p sl σ :
  slice_wf sl σ ->
  Slice.elems (Slice.mk p (Slice.len sl)) (<[p := Slice.elems sl σ]> σ)
  = Slice.elems sl σ.
Proof.
  intros Hwf. unfold Slice.elems at 1. array_insert.
  cbn [Slice.len]. apply take_ge. rewrite (elems_length _ _ Hwf). lia.
Qed.

(** The loop [for i, v := range vals { values[i] = v.v }]. *)
Lemma store_loop vs (l : list item) :
  forall (i : nat) (σ : Slice.mem) a,
    σ !! Slice.ptr vs = Some a ->
    (i + length l <= Slice.len vs)%nat -> (Slice.len vs <= length a)%nat ->
    for_each (zip (seq i (length l)) l)
      (fun iv => Slice.store vs (Z.of_nat iv.1) (v iv.2)) σ
    = Done tt
        (<[Slice.ptr vs := take i a ++ map v l ++ drop (i + length l) a]> σ).
Proof.
  induction l as [| x l IH]; intros i σ a Ha Hi Hl.
  - cbn [length seq zip zip_with for_each map app].
    rewrite Nat.add_0_r, take_drop. now rewrite mem_insert_id.
  - cbn [length seq zip zip_with for_each map] in *.
    rewrite (bind_Done _ _ _ tt _ (store_spec vs (Z.of_nat i) (v x) σ
                                     ltac:(lia))).
    rewrite (IH (S i) _ (<[i := v x]> a)).
    + rewrite Nat2Z.id, (array_lookup _ _ _ Ha), mem_insert_insert.
      do 2 f_equal.
      rewrite (take_S_r _ _ (v x)) by (apply list_lookup_insert_eq; lia).
      rewrite take_insert_ge by lia.
      rewrite drop_insert_lt by lia.
      rewrite <- app_assoc. cbn [app].
      now replace (S i + length l)%nat with (i + S (length l))%nat by lia.
    + rewrite Nat2Z.id, (array_lookup _ _ _ Ha). apply lookup_insert_eq.
    + lia.
    + rewrite length_insert. lia.
Qed.

Lemma ED_Snapshot_spec σ s :
  ED.Snapshot (σ, s)
  = Done (Snap.mk (ED.count s)
            (Slice.mk (fresh (dom σ)) (length (Heap.items (ED.values s)))))
      (<[fresh (dom σ) := map v (Heap.items (ED.values s))]> σ, s).
Proof.
  set (vals := Heap.items (ED.values s)).
  unfold ED.Snapshot, self, in_obj, in_mem, mbind, M_bind, get, mret, M_ret.
  cbn [fst snd]. fold vals.
  rewrite (make_spec _ _ σ) by lia. cbn [fst snd]. rewrite Nat2Z.id.
  rewrite (store_loop _ vals 0 _ (replicate (length vals) 0%float)).
  - cbn [Slice.ptr take app Nat.add fst snd].
    rewrite drop_ge by (rewrite length_replicate; lia).
    now rewrite app_nil_r, mem_insert_insert.
  - apply lookup_insert_eq.
  - cbn. lia.
  - rewrite length_replicate. cbn. lia.
Qed.

(** *** Snapshot isolation *)

(** The calls that change a sample. *)
Inductive uniform_call : Type :=
| UUpdate (raw : Z) (x : float)
| UClear.

Inductive decay_call : Type :=
| DUpdate (now : Z) (x u : float)
| DClear (now : Z).

Definition US_call (growslice : nat -> nat) (c : uniform_call)
  : M US.state unit :=
  match c with
  | UUpdate raw x => US.Update growslice raw x
  | UClear => US.Clear
  end.

Definition ED_call (Exp : float -> float) (thr : Z) (c : decay_call)
  : M (Slice.mem * ED.t) unit :=
  match c with
  | DUpdate now x u => in_obj (ED.Update Exp thr now x u)
  | DClear now => in_obj (ED.Clear thr now)
  end.

(** The state after the calls [cs], each one made in the state that the one
    before it left, whether it returned or panicked. *)
Definition after_calls {S C} (run : C -> M S unit) (cs : list C) (st : S) : S :=
  fold_left (fun st c => state_of (run c st)) cs st.

(** Everything that can be read from a snapshot. *)
Definition snapshot_reads (sort : list float -> list float) (undef : Z)
    (p : float) (ps : list float) (st : Snap.state) :=
  (answer (Snap.Count st), answer (Snap.Size st),
   answer_elems (Snap.Values st),
   answer (Snap.Min st), answer (Snap.Max st), answer (Snap.Mean st),
   answer (Snap.Sum st), answer (Snap.Variance st), answer (Snap.StdDev st),
   answer (Snap.Percentile sort undef p st),
   answer (Snap.Percentiles sort undef ps st)).

Lemma answer_on_elems {T A} sl (m : M (list float) A) σ (s : T) :
  answer (in_mem (Slice.on_elems sl m) (σ, s)) = answer (m (Slice.elems sl σ)).
Proof.
  unfold in_mem, Slice.on_elems. cbn [fst snd].
  now destruct (m (Slice.elems sl σ)).
Qed.

(** The reads depend on the snapshot and on its array only. *)
Lemma snapshot_reads_frame sort undef p ps snap (σ1 σ2 : Slice.mem) :
  slice_wf (Snap.values snap) σ1 ->
  σ2 !! Slice.ptr (Snap.values snap) = σ1 !! Slice.ptr (Snap.values snap) ->
  snapshot_reads sort undef p ps (σ2, snap)
  = snapshot_reads sort undef p ps (σ1, snap).
Proof.
  intros Hwf1 Heq.
  assert (Hwf2 : slice_wf (Snap.values snap) σ2).
  { destruct Hwf1 as (a & Ha & Hl). exists a. now rewrite Heq. }
  assert (He := elems_frame _ _ _ Heq).
  unfold snapshot_reads.
  rewrite (Snap_Values_spec _ _ Hwf1), (Snap_Values_spec _ _ Hwf2).
  unfold Snap.Percentile, Snap.Percentiles, self, in_obj, get, mbind, M_bind.
  cbn [fst snd]. unfold Snap.state. rewrite !answer_on_elems.
  unfold Snap.Count, Snap.Size, Snap.Min, Snap.Max, Snap.Mean, Snap.Sum,
    Snap.Variance, Snap.StdDev, self, in_obj, in_mem, Slice.read, get, mbind,
    M_bind, mret, M_ret.
  cbn [fst snd]. unfold answer, answer_elems. cbv beta iota. cbn [fst snd].
  rewrite !elems_copy by assumption.
  rewrite He. reflexivity.
Qed.

(** The calls on a uniform sample leave alone an array that is not the
    sample's. *)
Lemma US_calls_frame growslice p (a : list float) cs :
  forall st,
    uniform_wf st -> st.1 !! p = Some a -> Slice.ptr (US.values st.2) <> p ->
    (after_calls (US_call growslice) cs st).1 !! p = Some a.
Proof.
  induction cs as [| c cs IH]; intros st Hwf Hp Hne; [exact Hp |].
  cbn [after_calls fold_left]. apply IH; destruct c as [raw x |];
    cbn [US_call].
  - apply US_Update_step, Hwf.
  - destruct (US_Clear_step st Hwf) as (st' & Hrun & Hwf' & _).
    now rewrite Hrun.
  - destruct (US_Update_step growslice raw x st Hwf)
      as (_ & _ & _ & _ & Hfr & _).
    rewrite Hfr by congruence. exact Hp.
  - destruct (US_Clear_step st Hwf) as (st' & Hrun & _ & _ & _ & _ & _ & Hfr).
    rewrite Hrun. cbn [state_of]. rewrite Hfr; [exact Hp |].
    intros ->. pose proof (fresh_lookup st.1). congruence.
  - destruct (US_Update_step growslice raw x st Hwf)
      as (_ & _ & _ & Hptr & _).
    now rewrite Hptr.
  - destruct (US_Clear_step st Hwf) as (st' & Hrun & _ & _ & _ & _ & Hptr & _).
    rewrite Hrun. cbn [state_of]. rewrite Hptr.
    intros <-. pose proof (fresh_lookup st.1). congruence.
Qed.

(** The calls on a decay sample write to no [[]float64] at all: the heap's
    array is of another type. *)
Lemma ED_calls_frame Exp thr cs :
  forall st, (after_calls (ED_call Exp thr) cs st).1 = st.1.
Proof.
  induction cs as [| c cs IH]; intros st; [reflexivity |].
  change (after_calls (ED_call Exp thr) (c :: cs) st)
    with (after_calls (ED_call Exp thr) cs (state_of (ED_call Exp thr c st))).
  rewrite IH. destruct c; cbn [ED_call]; unfold in_obj;
    match goal with |- context [match ?o with _ => _ end] => destruct o end;
    reflexivity.
Qed.

(** C6: [Snapshot()] of a uniform or of a decay sample returns a snapshot
    with the sample's count and a copy of its values, and after any later
    calls of [Update] and [Clear] on the sample, returning or panicking,
    everything read from the snapshot - [Count], [Size], [Values], [Min],
    [Max], [Mean], [Sum], [Variance], [StdDev], [Percentile],
    [Percentiles] - is what it was when the snapshot was taken. *)
Theorem snapshot_isolation growslice Exp thr sort undef p ps
    (st : US.state) (σ : Slice.mem) (s : ED.t)
    (ucalls : list uniform_call) (dcalls : list decay_call) :
  uniform_wf st ->
  (exists snap st1,
      US.Snapshot st = Done snap st1 /\ st1.2 = st.2 /\
      Snap.count snap = US.count st.2 /\
      Slice.elems (Snap.values snap) st1.1 = Slice.elems (US.values st.2) st.1 /\
      snapshot_reads sort undef p ps
        ((after_calls (US_call growslice) ucalls st1).1, snap)
      = snapshot_reads sort undef p ps (st1.1, snap)) /\
  (exists snap st1,
      ED.Snapshot (σ, s) = Done snap st1 /\ st1.2 = s /\
      Snap.count snap = ED.count s /\
      Slice.elems (Snap.values snap) st1.1 = map v (Heap.items (ED.values s)) /\
      snapshot_reads sort undef p ps
        ((after_calls (ED_call Exp thr) dcalls st1).1, snap)
      = snapshot_reads sort undef p ps (st1.1, snap)).
Proof.
  intros Hwf. split.
  - destruct st as [σu su].
    assert (Hs := proj1 Hwf). cbn [fst snd] in Hs.
    assert (Hf := fresh_lookup σu).
    assert (Hne : Slice.ptr (US.values su) <> fresh (dom σu)).
    { destruct Hs as (a & Ha & _). congruence. }
    eexists _, _. split; [apply (US_Snapshot_spec _ _ Hwf) |].
    cbn [fst snd Snap.count Snap.values].
    split; [reflexivity |]. split; [reflexivity |].
    split; [apply (elems_copy _ _ _ Hs) |].
    assert (Hwf1 : uniform_wf
                     (<[fresh (dom σu) := Slice.elems (US.values su) σu]> σu,
                      su)).
    { destruct Hwf as [(a & Ha & Hl) Hcap]. cbn [fst snd] in *.
      unfold uniform_wf, slice_wf, Slice.cap, Slice.array in *.
      cbn [fst snd]. rewrite mem_lookup_insert_ne by congruence.
      split; [now exists a | exact Hcap]. }
    apply snapshot_reads_frame.
    + eexists. cbn [Snap.values Slice.ptr Slice.len].
      split; [apply lookup_insert_eq |]. rewrite (elems_length _ _ Hs). lia.
    + cbn [Snap.values Slice.ptr].
      rewrite (US_calls_frame growslice (fresh (dom σu))
                 (Slice.elems (US.values su) σu));
        [now rewrite mem_lookup_insert | exact Hwf1 | apply lookup_insert_eq
        | exact Hne].
  - eexists _, _. split; [apply ED_Snapshot_spec |].
    cbn [fst snd Snap.count Snap.values].
    split; [reflexivity |]. split; [reflexivity |].
    split.
    { unfold Slice.elems. array_insert. cbn [Slice.len].
      apply take_ge. rewrite length_map. lia. }
    now rewrite ED_calls_frame.
Qed.

Lemma snapshot_isolation_witness :
  (exists snap st1,
      US.Snapshot uniform_ex = Done snap st1 /\ st1.2 = uniform_ex.2 /\
      Snap.count snap = US.count uniform_ex.2 /\
      Slice.elems (Snap.values snap) st1.1
      = Slice.elems (US.values uniform_ex.2) uniform_ex.1 /\
      snapshot_reads isort min_int64 0.5 [0; 1]%float
        ((after_calls (US_call (Nat.mul 2))
            [UUpdate 13 9; UClear; UUpdate 0 1] st1).1, snap)
      = snapshot_reads isort min_int64 0.5 [0; 1]%float (st1.1, snap)) /\
  (exists snap st1,
      ED.Snapshot (∅, sample_ex) = Done snap st1 /\ st1.2 = sample_ex /\
      Snap.count snap = ED.count sample_ex /\
      Slice.elems (Snap.values snap) st1.1
      = map v (Heap.items (ED.values sample_ex)) /\
      snapshot_reads isort min_int64 0.5 [0; 1]%float
        ((after_calls (ED_call Exp_sat hour)
            [DUpdate 5 9 0.5; DClear 6] st1).1, snap)
      = snapshot_reads isort min_int64 0.5 [0; 1]%float (st1.1, snap)).
Proof.
  apply (snapshot_isolation (Nat.mul 2) Exp_sat hour isort min_int64 0.5
           [0; 1]%float uniform_ex ∅ sample_ex
           [UUpdate 13 9; UClear; UUpdate 0 1]
           [DUpdate 5 9 0.5; DClear 6]).
  exact uniform_ex_wf.
Defined.

(** A snapshot of [uniform_ex], read after the sample went on: the sample
    holds 1, the snapshot still 3 and 4. *)
Example snapshot_isolation_ex :
  match US.Snapshot uniform_ex with
  | Done snap st1 =>
      let st2 := after_calls (US_call (Nat.mul 2))
                   [UUpdate 13 9; UClear; UUpdate 0 1] st1 in
      (Slice.elems (US.values st2.2) st2.1,
       answer_elems (Snap.Values (st2.1, snap)),
       answer (Snap.Count (st2.1, snap)),
       answer (Snap.Mean (st2.1, snap)))
      = ([1], inl [3; 4], inl 5%Z, inl 3.5)%float
  | Panicked _ _ => False
  end.
Proof. vm_compute. reflexivity. Qed.

(** *** Calls that a snapshot refuses *)

(** C9: [Update] and [Clear] on a snapshot panic, whatever the snapshot
    holds, and leave the snapshot - its count, its values - and the arrays
    as they were. *)
Theorem snapshot_Update_Clear_panic (st : Snap.state) (x : float) :
  Snap.Update x st
  = Panicked (panic_msg "Update called on a SampleSnapshotFloat64") st /\
  Snap.Clear st
  = Panicked (panic_msg "Clear called on a SampleSnapshotFloat64") st.
Proof. split; reflexivity. Qed.

(** *** The percentile functions sort the slice they are given *)

Lemma SamplePercentilesFloat64_state sort undef ps values :
  state_of (SamplePercentilesFloat64 sort undef ps values)
  = if decide (0 < length values)%nat then sort values else values.
Proof.
  unfold SamplePercentilesFloat64.
  destruct (decide (0 < length values)%nat); [| reflexivity].
  now destruct (mapM _ ps).
Qed.

Lemma SamplePercentileFloat64_state sort undef p values :
  state_of (SamplePercentileFloat64 sort undef p values)
  = state_of (SamplePercentilesFloat64 sort undef [p] values).
Proof.
  unfold SamplePercentileFloat64, mbind, M_bind.
  destruct (SamplePercentilesFloat64 sort undef [p] values) as [scores st |];
    [| reflexivity].
  cbn [state_of]. now destruct (index scores 0).
Qed.

Lemma on_elems_state {T A} sl (m : M (list float) A) σ (s : T) :
  slice_wf sl σ ->
  length (state_of (m (Slice.elems sl σ))) = Slice.len sl ->
  let st' := state_of (in_mem (Slice.on_elems sl m) (σ, s)) in
  st'.2 = s /\
  Slice.elems sl st'.1 = state_of (m (Slice.elems sl σ)) /\
  (forall l, l <> Slice.ptr sl -> st'.1 !! l = σ !! l).
Proof.
  intros Hwf Hlen st'. subst st'. unfold in_mem, Slice.on_elems.
  cbn [fst snd].
  destruct (m (Slice.elems sl σ)) as [a vs | e vs]; cbn [state_of fst snd] in *.
  all: split; [reflexivity |]; split;
    [| intros l Hne; now apply mem_lookup_insert_ne].
  all: unfold Slice.elems at 1; array_insert;
    rewrite take_app_length' by (symmetry; exact Hlen); reflexivity.
Qed.

(** C5, as amended: [SamplePercentilesFloat64] and
    [SamplePercentileFloat64] leave in the slice they are given what
    [sort.Sort] made of it, a permutation of its elements, and leave an empty
    slice as it is.  [Percentiles] of a uniform sample hands them the
    sample's own values, which are sorted in place; [Percentiles] of a decay
    sample hands them a copy, and the sample is unchanged. *)
Theorem SamplePercentilesFloat64_sorts_in_place sort undef ps p values
    (st : US.state) (s : ED.t) :
  sort_contract sort -> uniform_wf st ->
  let after := state_of (SamplePercentilesFloat64 sort undef ps values) in
  after ≡ₚ values /\
  (values <> [] -> after = sort values) /\
  (values = [] -> after = values) /\
  state_of (SamplePercentileFloat64 sort undef p values) = after /\
  (let st' := state_of (US.Percentiles sort undef ps st) in
   st'.2 = st.2 /\
   Slice.elems (US.values st.2) st'.1
   = state_of (SamplePercentilesFloat64 sort undef ps
                 (Slice.elems (US.values st.2) st.1))) /\
  state_of (ED.Percentiles sort undef ps s) = s.
Proof.
  intros Hsort Hwf after. subst after.
  rewrite SamplePercentileFloat64_state, !SamplePercentilesFloat64_state.
  split; [destruct (decide _); [apply (sort_perm _ Hsort) | reflexivity] |].
  split.
  { intros Hne. destruct (decide _) as [| Hn]; [reflexivity |].
    destruct values; [congruence | cbn in Hn; lia]. }
  split; [intros ->; reflexivity |].
  split; [reflexivity |].
  split.
  - destruct st as [σ su]. destruct Hwf as [Hs _]. cbn [fst snd] in *.
    unfold US.Percentiles, self, in_obj, get, mbind, M_bind. cbn [fst snd].
    destruct (on_elems_state (T:=US.t) (US.values su)
                (SamplePercentilesFloat64 sort undef ps) σ su Hs)
      as (H2 & He & _).
    { rewrite SamplePercentilesFloat64_state.
      destruct (decide _);
        [rewrite (sort_perm _ Hsort) |]; apply (elems_length _ _ Hs). }
    split; [exact H2 |]. etransitivity; [exact He |].
    now rewrite SamplePercentilesFloat64_state.
  - unfold ED.Percentiles, ED.Values, mbind, M_bind, get, mret, M_ret, throw.
    now destruct (SamplePercentilesFloat64 _ _ _ _).
Qed.

Lemma SamplePercentilesFloat64_sorts_in_place_witness :
  let after :=
    state_of (SamplePercentilesFloat64 isort min_int64 [0.5]%float
                [2; 1]%float) in
  after ≡ₚ [2; 1]%float /\
  ([2; 1]%float <> [] -> after = isort [2; 1]%float) /\
  ([2; 1]%float = [] -> after = [2; 1]%float) /\
  state_of (SamplePercentileFloat64 isort min_int64 0.25 [2; 1]%float) = after /\
  (let st' :=
     state_of (US.Percentiles isort min_int64 [0.5]%float uniform_ex) in
   st'.2 = uniform_ex.2 /\
   Slice.elems (US.values uniform_ex.2) st'.1
   = state_of (SamplePercentilesFloat64 isort min_int64 [0.5]%float
                 (Slice.elems (US.values uniform_ex.2) uniform_ex.1))) /\
  state_of (ED.Percentiles isort min_int64 [0.5]%float sample_ex) = sample_ex.
Proof.
  apply (SamplePercentilesFloat64_sorts_in_place isort min_int64
           [0.5]%float 0.25 [2; 1]%float uniform_ex sample_ex).
  - exact isort_contract.
  - exact uniform_ex_wf.
Defined.

(** C5, as stated, fails: the slice [2, 1] holds [1, 2] after the call. *)
Lemma SamplePercentilesFloat64_mutates_input :
  ~ (forall sort undef ps values,
        sort_contract sort ->
        state_of (SamplePercentilesFloat64 sort undef ps values) = values).
Proof.
  intros H.
  specialize (H isort min_int64 [0.5]%float [2; 1]%float isort_contract).
  vm_compute in H. discriminate.
Qed.

(** * Further properties of the code *)

(** ** The statistics functions *)

Lemma max_loop l :
  forall m,
    F64.ordered m ->
    let r := fold_left (fun max v => if (max <? v)%float then v else max) l m in
    F64.ordered r /\ (m <=? r)%float = true /\
    (forall x, x ∈ l -> F64.ordered x -> (x <=? r)%float = true) /\
    (r = m \/ r ∈ l).
Proof.
  induction l as [| y l IH]; intros m Hm; cbn [fold_left].
  - split; [exact Hm |]. split; [now apply F64.leb_refl |].
    split; [| now left]. intros x Hx. inversion Hx.
  - destruct (m <? y)%float eqn:E.
    + assert (Hmy := F64.ltb_leb _ _ E).
      destruct (F64.leb_ordered _ _ Hmy) as [_ Hy].
      destruct (IH y Hy) as (Hr & Hyr & Hall & Hin).
      split; [exact Hr |].
      split; [exact (F64.leb_trans _ _ _ Hmy Hyr) |].
      split.
      * intros x Hx Hox. apply elem_of_cons in Hx as [-> | Hx]; auto.
      * right. destruct Hin as [-> | Hin];
          [apply list_elem_of_here | now apply list_elem_of_further].
    + destruct (IH m Hm) as (Hr & Hmr & Hall & Hin).
      split; [exact Hr |]. split; [exact Hmr |].
      split.
      * intros x Hx Hox. apply elem_of_cons in Hx as [-> | Hx]; auto.
        exact (F64.leb_trans _ _ _ (F64.not_ltb_leb _ _ Hm Hox E) Hmr).
      * destruct Hin as [-> | Hin]; [now left |].
        right. now apply list_elem_of_further.
Qed.

Lemma min_loop l :
  forall m,
    F64.ordered m ->
    let r := fold_left (fun min v => if (v <? min)%float then v else min) l m in
    F64.ordered r /\ (r <=? m)%float = true /\
    (forall x, x ∈ l -> F64.ordered x -> (r <=? x)%float = true) /\
    (r = m \/ r ∈ l).
Proof.
  induction l as [| y l IH]; intros m Hm; cbn [fold_left].
  - split; [exact Hm |]. split; [now apply F64.leb_refl |].
    split; [| now left]. intros x Hx. inversion Hx.
  - destruct (y <? m)%float eqn:E.
    + assert (Hym := F64.ltb_leb _ _ E).
      destruct (F64.leb_ordered _ _ Hym) as [Hy _].
      destruct (IH y Hy) as (Hr & Hry & Hall & Hin).
      split; [exact Hr |].
      split; [exact (F64.leb_trans _ _ _ Hry Hym) |].
      split.
      * intros x Hx Hox. apply elem_of_cons in Hx as [-> | Hx]; auto.
      * right. destruct Hin as [-> | Hin];
          [apply list_elem_of_here | now apply list_elem_of_further].
    + destruct (IH m Hm) as (Hr & Hrm & Hall & Hin).
      split; [exact Hr |]. split; [exact Hrm |].
      split.
      * intros x Hx Hox. apply elem_of_cons in Hx as [-> | Hx]; auto.
        exact (F64.leb_trans _ _ _ Hrm (F64.not_ltb_leb _ _ Hox Hm E)).
      * destruct Hin as [-> | Hin]; [now left |].
        right. now apply list_elem_of_further.
Qed.

Lemma ordered_MaxFloat64 :
  F64.ordered F64.MaxFloat64 /\ F64.ordered (- F64.MaxFloat64).
Proof. split; reflexivity. Qed.

(** [SampleMaxFloat64] never returns NaN; its result is at least every
    value that is not NaN (a NaN among the values is passed over); and for
    values that are not empty it is one of the values, or [-MaxFloat64],
    where the loop starts. *)
Theorem SampleMaxFloat64_bound values :
  F64.ordered (SampleMaxFloat64 values) /\
  (forall x, x ∈ values -> F64.ordered x ->
             (x <=? SampleMaxFloat64 values)%float = true) /\
  (values <> [] ->
   SampleMaxFloat64 values ∈ values \/
   SampleMaxFloat64 values = (- F64.MaxFloat64)%float).
Proof.
  unfold SampleMaxFloat64.
  destruct (decide (0%nat = length values)) as [H0 | Hn].
  - destruct values; [| discriminate].
    split; [reflexivity |]. split; [| congruence].
    intros x Hx. inversion Hx.
  - destruct (max_loop values _ (proj2 ordered_MaxFloat64))
      as (Hr & _ & Hall & Hin).
    split; [exact Hr |]. split; [exact Hall |]. intros _. tauto.
Qed.

(** [SampleMinFloat64] never returns NaN; its result is at most every value
    that is not NaN; and for values that are not empty it is one of the
    values, or [MaxFloat64], where the loop starts. *)
Theorem SampleMinFloat64_bound values :
  F64.ordered (SampleMinFloat64 values) /\
  (forall x, x ∈ values -> F64.ordered x ->
             (SampleMinFloat64 values <=? x)%float = true) /\
  (values <> [] ->
   SampleMinFloat64 values ∈ values \/
   SampleMinFloat64 values = F64.MaxFloat64).
Proof.
  unfold SampleMinFloat64.
  destruct (decide (0%nat = length values)) as [H0 | Hn].
  - destruct values; [| discriminate].
    split; [reflexivity |]. split; [| congruence].
    intros x Hx. inversion Hx.
  - destruct (min_loop values _ (proj1 ordered_MaxFloat64))
      as (Hr & _ & Hall & Hin).
    split; [exact Hr |]. split; [exact Hall |]. intros _. tauto.
Qed.

(** The maximum of the single value [-Inf] is [-MaxFloat64], and the
    minimum of [+Inf] is [MaxFloat64]: neither is a value of the slice. *)
Example SampleMaxFloat64_neg_infinity :
  SampleMaxFloat64 [neg_infinity] = (- F64.MaxFloat64)%float /\
  SampleMinFloat64 [infinity] = F64.MaxFloat64.
Proof. split; reflexivity. Qed.

(** [SamplePercentilesFloat64] returns one score for each percentile asked
    for, or panics on an index out of range, which it can do only on values
    that are not empty. *)
Theorem SamplePercentilesFloat64_length sort undef ps values :
  match SamplePercentilesFloat64 sort undef ps values with
  | Done scores _ => length scores = length ps
  | Panicked e _ => e = index_out_of_range /\ values <> []
  end.
Proof.
  unfold SamplePercentilesFloat64.
  destruct (decide (0 < length values)%nat) as [Hpos | Hz].
  - destruct (mapM _ ps) as [scores |] eqn:E.
    + symmetry. exact (length_mapM _ _ _ E).
    + split; [reflexivity |]. intros ->. cbn in Hpos. lia.
  - apply length_replicate.
Qed.

(** ** The heap of the decay sample *)

(** [Push] into a heap with room returns: the heap is one longer, in the
    same array, and holds the pushed item and the items it held. *)
Theorem Heap_Push_adds_item x h :
  (Heap.len h < Heap.cap h)%nat ->
  exists h',
    Heap.Push x h = Done tt h' /\
    Heap.len h' = S (Heap.len h) /\ Heap.cap h' = Heap.cap h /\
    Heap.items h' ≡ₚ x :: Heap.items h.
Proof.
  intros Hroom.
  destruct (Push_spec x h Hroom) as (a' & Hrun & Hlen & Hperm & _).
  exists (Heap.mk a' (S (Heap.len h))). split; [exact Hrun |].
  split; [reflexivity |]. split; [exact Hlen | exact Hperm].
Qed.

Lemma Heap_Push_adds_item_witness :
  exists h',
    Heap.Push (mkSample 0.5 5) heap_ex = Done tt h' /\
    Heap.len h' = S (Heap.len heap_ex) /\ Heap.cap h' = Heap.cap heap_ex /\
    Heap.items h' ≡ₚ mkSample 0.5 5 :: Heap.items heap_ex.
Proof. apply (Heap_Push_adds_item (mkSample 0.5 5) heap_ex). cbn. lia. Defined.

(** [Push] into a heap that fills its array panics in [h.s[0 : n+1]] and
    leaves the heap as it was. *)
Theorem Heap_Push_full_panics x h :
  (Heap.cap h <= Heap.len h)%nat ->
  Heap.Push x h = Panicked slice_bounds_out_of_range h.
Proof. apply Push_full. Qed.

Lemma Heap_Push_full_panics_witness :
  Heap.Push (mkSample 0.5 5) (heap_of [(1, 10); (2, 20)]%float 0)
  = Panicked slice_bounds_out_of_range (heap_of [(1, 10); (2, 20)]%float 0).
Proof.
  apply (Heap_Push_full_panics (mkSample 0.5 5)
           (heap_of [(1, 10); (2, 20)]%float 0)).
  cbn. lia.
Defined.

(** [Pop] on a heap that is not empty returns the item at the root; the heap
    is one shorter, in the same array, and holds the other items. *)
Theorem Heap_Pop_takes_root h :
  (0 < Heap.len h)%nat -> heap_wf h ->
  exists x h',
    Heap.Pop h = Done x h' /\ Heap.s h !! 0%nat = Some x /\
    S (Heap.len h') = Heap.len h /\ Heap.cap h' = Heap.cap h /\
    Heap.items h ≡ₚ x :: Heap.items h'.
Proof.
  intros Hpos Hwf.
  destruct (Pop_spec h Hpos Hwf) as (a' & Hrun & Hlen & Hperm & _).
  eexists _, _. split; [exact Hrun |].
  split.
  { apply list_lookup_lookup_total_lt. destruct Hwf as [Hle _].
    unfold Heap.cap in Hle. lia. }
  cbn [Heap.len]. split; [lia |]. split; [exact Hlen | exact Hperm].
Qed.

Lemma Heap_Pop_takes_root_witness :
  exists x h',
    Heap.Pop heap_ex = Done x h' /\ Heap.s heap_ex !! 0%nat = Some x /\
    S (Heap.len h') = Heap.len heap_ex /\ Heap.cap h' = Heap.cap heap_ex /\
    Heap.items heap_ex ≡ₚ x :: Heap.items h'.
Proof.
  apply (Heap_Pop_takes_root heap_ex); [cbn; lia | exact heap_ex_wf].
Defined.

(** [Pop] called [n] times, with what the calls return. *)
Fixpoint pop_all (n : nat) : M Heap.t (list item) :=
  match n with
  | O => mret []
  | S n => x ← Heap.Pop; xs ← pop_all n; mret (x :: xs)
  end.

(** The items in the order of their priorities. *)
Definition by_priority (xs : list item) : Prop :=
  StronglySorted (fun a b => (k a <=? k b)%float = true) xs.

(** Emptying a min-heap whose priorities are not NaN by [Pop] returns its
    items in the order of their priorities. *)
Theorem Heap_Pop_in_order h :
  heap_wf h -> is_min_heap h -> heap_no_nan h ->
  exists xs h',
    pop_all (Heap.len h) h = Done xs h' /\ Heap.len h' = 0%nat /\
    xs ≡ₚ Heap.items h /\ by_priority xs.
Proof.
  destruct h as [a n]. revert a.
  induction n as [| n IH]; intros a Hwf Hheap Hnan.
  - exists [], (Heap.mk a 0). split; [reflexivity |].
    split; [reflexivity |]. split; [reflexivity | constructor].
  - destruct (Pop_spec (Heap.mk a (S n)) ltac:(cbn; lia) Hwf)
      as (a' & Hrun & Hlen & Hperm & _ & Hord).
    destruct (Hord Hnan Hheap) as (Hheap' & Hnan' & Hmin).
    cbn [Heap.s Heap.len pred] in *.
    assert (Hwf' : heap_wf (Heap.mk a' n)).
    { destruct Hwf as [Hle Hmax]. unfold heap_wf, Heap.cap in *.
      cbn [Heap.s Heap.len] in *. lia. }
    destruct (IH a' Hwf' Hheap' Hnan') as (xs & h' & Hrun' & Hl' & Hp' & Hs').
    exists (a !!! 0%nat :: xs), h'. cbn [pop_all].
    rewrite (bind_Done _ _ _ _ _ Hrun).
    cbn [Heap.len] in Hrun'. rewrite (bind_Done _ _ _ _ _ Hrun').
    split; [reflexivity |]. split; [exact Hl' |].
    unfold Heap.items in *. cbn [Heap.s Heap.len] in *.
    split; [now rewrite Hperm, Hp' |].
    constructor; [exact Hs' |].
    rewrite Hperm in Hmin. apply Forall_cons in Hmin as [_ Hmin].
    now rewrite Hp'.
Qed.

Lemma Heap_Pop_in_order_witness :
  exists xs h',
    pop_all (Heap.len heap_ex) heap_ex = Done xs h' /\ Heap.len h' = 0%nat /\
    xs ≡ₚ Heap.items heap_ex /\ by_priority xs.
Proof.
  apply (Heap_Pop_in_order heap_ex);
    [exact heap_ex_wf | exact heap_ex_min_heap | exact heap_ex_no_nan].
Defined.

Example pop_all_ex :
  answer (pop_all 4 heap_ex)
  = inl [mkSample 1 10; mkSample 2 20; mkSample 3 30; mkSample 4 40]%float.
Proof. vm_compute. reflexivity. Qed.

(** ** The decay sample *)

(** One [update] on a sample of reservoir size at least 1, in full: it
    returns; the epoch is kept, or moved to [now] when [now] is after the
    deadline; and the values held are the new value and the values held
    before, less the root's when the reservoir was full. *)
Lemma update_full_spec Exp thr s now x u :
  sample_wf s -> 1 <= ED.reservoirSize s ->
  exists s' kept,
    ED.update Exp thr now x u s = Done tt s' /\ sample_wf s' /\
    ED.reservoirSize s' = ED.reservoirSize s /\
    ((now <= ED.t1 s /\ ED.t0 s' = ED.t0 s /\ ED.t1 s' = ED.t1 s) \/
     (ED.t1 s < now /\ ED.t0 s' = now /\ ED.t1 s' = now + thr)) /\
    (if decide (Heap.len (ED.values s) = Heap.cap (ED.values s))
     then Heap.items (ED.values s) ≡ₚ Heap.s (ED.values s) !!! 0%nat :: kept
     else kept = Heap.items (ED.values s)) /\
    map v (Heap.items (ED.values s')) ≡ₚ x :: map v kept /\
    (now <= ED.t1 s ->
     Heap.items (ED.values s') ≡ₚ mkSample (priority Exp s now u) x :: kept).
Proof.
  intros Hwf Hrs.
  destruct (update_insert_spec Exp s now x u Hwf Hrs)
    as (h1 & Hins & Hwf1 & Hcap1 & Hitems).
  set (s1 := ED.mk (ED.alpha s) (wrap64 (ED.count s + 1))
               (ED.reservoirSize s) (ED.t0 s) (ED.t1 s) h1) in *.
  assert (Hkept : exists kept,
             (if decide (Heap.len (ED.values s) = Heap.cap (ED.values s))
              then Heap.items (ED.values s)
                   ≡ₚ Heap.s (ED.values s) !!! 0%nat :: kept
              else kept = Heap.items (ED.values s)) /\
             Heap.items h1 ≡ₚ mkSample (priority Exp s now u) x :: kept).
  { destruct (decide _).
    - destruct Hitems as (_ & rest & H1 & H2). now exists rest.
    - destruct Hitems as (_ & H2). now eexists. }
  destruct Hkept as (kept & Hk & Hh1).
  rewrite (update_unfold _ _ _ _ _ _ _ Hins). unfold After. cbn [s1 ED.t1].
  destruct (Z.ltb_spec (ED.t1 s) now) as [Hlt | Hle].
  - destruct (rescale_spec Exp thr s1 now Hwf1) as (b' & Hres & Hlen & Hperm).
    cbn [s1 ED.values ED.alpha ED.count ED.reservoirSize ED.t0] in Hres, Hlen,
        Hperm.
    eexists _, kept. split; [exact Hres |].
    cbn [ED.values ED.reservoirSize ED.t0 ED.t1].
    split.
    { destruct Hwf as [_ Hc], Hwf1 as [Hle1 Hm1].
      unfold sample_wf, heap_wf, Heap.cap in *.
      cbn [ED.values ED.reservoirSize Heap.s Heap.len]. rewrite Hlen.
      split; [split |]; lia. }
    split; [reflexivity |]. split; [right; repeat split; lia |].
    split; [exact Hk |]. split; [| lia].
    unfold Heap.items at 1. cbn [Heap.s Heap.len].
    rewrite Hperm, map_v_scale, Hh1. reflexivity.
  - exists s1, kept. split; [reflexivity |].
    cbn [s1 ED.values ED.reservoirSize ED.t0 ED.t1].
    split.
    { destruct Hwf as [_ Hc]. split; [exact Hwf1 |].
      cbn [s1 ED.values ED.reservoirSize]. lia. }
    split; [reflexivity |]. split; [left; repeat split; lia |].
    split; [exact Hk |]. split; [now rewrite Hh1 | intros _; exact Hh1].
Qed.

Lemma root_minimal_items h :
  heap_wf h -> is_min_heap h -> heap_no_nan h ->
  Forall (fun y => (k (Heap.s h !!! 0%nat) <=? k y)%float = true)
    (Heap.items h).
Proof.
  intros [Hle _] Hheap Hnan. apply Forall_lookup. intros i y Hy.
  apply lookup_take_Some in Hy as [Hy Hi].
  pose proof (root_minimal _ _ Hheap Hnan i Hi) as Hr.
  unfold le_at, key in Hr.
  now rewrite (list_lookup_total_correct _ _ _ Hy) in Hr.
Qed.

(** An update of a full decay sample, before the deadline, evicts the item
    at the root and nothing else, and holds the new item in its place; when
    the heap is a min-heap with no NaN priority the evicted item has the
    least priority of all.  While there is room nothing is evicted. *)
Theorem update_evicts_least Exp thr s now x u :
  sample_wf s -> 1 <= ED.reservoirSize s -> now <= ED.t1 s ->
  exists s',
    ED.update Exp thr now x u s = Done tt s' /\
    if decide (Heap.len (ED.values s) = Heap.cap (ED.values s)) then
      exists root kept,
        Heap.s (ED.values s) !! 0%nat = Some root /\
        Heap.items (ED.values s) ≡ₚ root :: kept /\
        Heap.items (ED.values s')
        ≡ₚ mkSample (priority Exp s now u) x :: kept /\
        (is_min_heap (ED.values s) -> heap_no_nan (ED.values s) ->
         Forall (fun y => (k root <=? k y)%float = true)
           (Heap.items (ED.values s)))
    else
      Heap.items (ED.values s')
      ≡ₚ mkSample (priority Exp s now u) x :: Heap.items (ED.values s).
Proof.
  intros Hwf Hrs Hnow.
  destruct (update_full_spec Exp thr s now x u Hwf Hrs)
    as (s' & kept & Hrun & _ & _ & _ & Hk & _ & Hitems).
  exists s'. split; [exact Hrun |].
  destruct (decide _) as [Hfull | Hroom].
  - exists (Heap.s (ED.values s) !!! 0%nat), kept.
    split.
    { apply list_lookup_lookup_total_lt.
      destruct Hwf as [_ Hc]. unfold Heap.cap in *. lia. }
    split; [exact Hk |]. split; [exact (Hitems Hnow) |].
    intros Hheap Hnan. exact (root_minimal_items _ (proj1 Hwf) Hheap Hnan).
  - subst kept. exact (Hitems Hnow).
Qed.

(** A full decay sample: reservoir size 4 and the four items of [heap_ex]. *)
Definition sample_full_ex : ED.t :=
  ED.mk 1 4 4 0 hour (heap_of [(1, 10); (2, 20); (4, 40); (3, 30)]%float 0).

Lemma sample_full_ex_wf : sample_wf sample_full_ex.
Proof.
  split; [split; [cbn; lia | vm_compute; discriminate] | reflexivity].
Qed.

Lemma update_evicts_least_witness :
  exists s',
    ED.update Exp_sat hour 0 50 0.5 sample_full_ex = Done tt s' /\
    if decide (Heap.len (ED.values sample_full_ex)
               = Heap.cap (ED.values sample_full_ex)) then
      exists root kept,
        Heap.s (ED.values sample_full_ex) !! 0%nat = Some root /\
        Heap.items (ED.values sample_full_ex) ≡ₚ root :: kept /\
        Heap.items (ED.values s')
        ≡ₚ mkSample (priority Exp_sat sample_full_ex 0 0.5) 50 :: kept /\
        (is_min_heap (ED.values sample_full_ex) ->
         heap_no_nan (ED.values sample_full_ex) ->
         Forall (fun y => (k root <=? k y)%float = true)
           (Heap.items (ED.values sample_full_ex)))
    else
      Heap.items (ED.values s')
      ≡ₚ mkSample (priority Exp_sat sample_full_ex 0 0.5) 50
         :: Heap.items (ED.values sample_full_ex).
Proof.
  apply (update_evicts_least Exp_sat hour sample_full_ex 0 50 0.5).
  - exact sample_full_ex_wf.
  - cbn. lia.
  - vm_compute. discriminate.
Defined.

(** The item of priority 1 leaves; the new one, of priority
    [Exp(0) / 0.5 = 2], comes in. *)
Example update_evicts_least_ex :
  Heap.items
    (ED.values (state_of (ED.update Exp_sat hour 0 50 0.5 sample_full_ex)))
  = [mkSample 2 20; mkSample 2 50; mkSample 4 40; mkSample 3 30]%float.
Proof. vm_compute. reflexivity. Qed.

(** The values a decay sample holds. *)
Definition ED_held (st : Slice.mem * ED.t) : list float :=
  map v (Heap.items (ED.values st.2)).

(** The values given to a sample since it was last cleared, after one more
    call. *)
Definition decay_supplied (held : list float) (c : decay_call) : list float :=
  match c with
  | DUpdate _ x _ => x :: held
  | DClear _ => []
  end.

Definition uniform_supplied (held : list float) (c : uniform_call)
  : list float :=
  match c with
  | UUpdate _ x => x :: held
  | UClear => []
  end.

Lemma ED_call_step Exp thr c st :
  sample_wf st.2 ->
  let st' := state_of (ED_call Exp thr c st) in
  sample_wf st'.2 /\ ED.reservoirSize st'.2 = ED.reservoirSize st.2 /\
  (ED.t1 st.2 = ED.t0 st.2 + thr -> ED.t1 st'.2 = ED.t0 st'.2 + thr) /\
  ED_held st' ⊆ decay_supplied (ED_held st) c.
Proof.
  destruct st as [σ s]. cbn [fst snd]. intros Hwf.
  destruct c as [now x u | now]; cbn [ED_call decay_supplied]; unfold in_obj;
    cbn [fst snd].
  - destruct (decide (ED.reservoirSize s = 0)) as [Hz | Hnz].
    + destruct (zero_reservoir_Update_spec Exp thr s now x u Hwf Hz)
        as (Hrun & Hwf' & Hrs').
      rewrite Hrun. cbn [state_of fst snd].
      split; [exact Hwf' |]. split; [reflexivity |]. split; [tauto |].
      unfold ED_held. cbn [fst snd ED.with_count ED.values].
      apply list_subseteq_cons. reflexivity.
    + assert (Hrs : 1 <= ED.reservoirSize s) by (destruct Hwf; lia).
      destruct (update_full_spec Exp thr s now x u Hwf Hrs)
        as (s' & kept & Hrun & Hwf' & Hrs' & Hep & Hk & Hv & _).
      unfold ED.Update. rewrite Hrun. cbn [state_of fst snd].
      split; [exact Hwf' |]. split; [exact Hrs' |].
      split; [intros Hinv; destruct Hep as [(_ & -> & ->) | (_ & -> & ->)];
              [exact Hinv | reflexivity] |].
      unfold ED_held. cbn [fst snd]. intros y Hy. rewrite Hv in Hy.
      apply elem_of_cons in Hy as [-> | Hy]; [apply list_elem_of_here |].
      apply list_elem_of_further.
      destruct (decide _); [| now subst kept].
      rewrite Hk. cbn [map]. now apply list_elem_of_further.
  - destruct (Clear_spec thr now s Hwf)
      as (s' & Hrun & Hwf' & Hrs' & _ & _ & Hl' & Ht0 & Ht1).
    rewrite Hrun. cbn [state_of fst snd].
    split; [exact Hwf' |]. split; [exact Hrs' |].
    split; [intros _; lia |].
    unfold ED_held, Heap.items. cbn [fst snd]. rewrite Hl'. reflexivity.
Qed.

Lemma supplied_mono {C} (f : list float -> C -> list float) :
  (forall A B c, A ⊆ B -> f A c ⊆ f B c) ->
  forall cs A B, A ⊆ B -> fold_left f cs A ⊆ fold_left f cs B.
Proof.
  intros Hf cs. induction cs as [| c cs IH]; intros A B HAB; [exact HAB |].
  cbn [fold_left]. apply IH, Hf, HAB.
Qed.

Lemma decay_supplied_mono A B c :
  A ⊆ B -> decay_supplied A c ⊆ decay_supplied B c.
Proof.
  intros HAB. destruct c; cbn [decay_supplied]; [| reflexivity].
  intros y Hy. apply elem_of_cons in Hy as [-> | Hy];
    [apply list_elem_of_here | apply list_elem_of_further, HAB, Hy].
Qed.

Lemma uniform_supplied_mono A B c :
  A ⊆ B -> uniform_supplied A c ⊆ uniform_supplied B c.
Proof.
  intros HAB. destruct c; cbn [uniform_supplied]; [| reflexivity].
  intros y Hy. apply elem_of_cons in Hy as [-> | Hy];
    [apply list_elem_of_here | apply list_elem_of_further, HAB, Hy].
Qed.

Lemma ED_calls_inv Exp thr cs :
  forall st,
    sample_wf st.2 ->
    let st' := after_calls (ED_call Exp thr) cs st in
    sample_wf st'.2 /\ ED.reservoirSize st'.2 = ED.reservoirSize st.2 /\
    (ED.t1 st.2 = ED.t0 st.2 + thr -> ED.t1 st'.2 = ED.t0 st'.2 + thr) /\
    ED_held st' ⊆ fold_left decay_supplied cs (ED_held st).
Proof.
  induction cs as [| c cs IH]; intros st Hwf.
  - cbv zeta. cbn [after_calls fold_left].
    split; [exact Hwf |]. split; [reflexivity |]. split; [tauto | reflexivity].
  - destruct (ED_call_step Exp thr c st Hwf) as (Hwf1 & Hrs1 & Ht1 & Hh1).
    destruct (IH _ Hwf1) as (Hwf' & Hrs' & Ht' & Hh').
    change (after_calls (ED_call Exp thr) (c :: cs) st)
      with (after_calls (ED_call Exp thr) cs
              (state_of (ED_call Exp thr c st))).
    cbv zeta. split; [exact Hwf' |]. split; [congruence |].
    split; [tauto |]. cbn [fold_left].
    etransitivity; [exact Hh' |].
    apply (supplied_mono _ decay_supplied_mono), Hh1.
Qed.

(** The deadline of a decay sample is its epoch start plus the rescale
    interval after [NewExpDecaySampleFloat64] and after every later call of
    [Update] and [Clear], returning or panicking; the reservoir size never
    changes and the heap stays inside its array. *)
Theorem ED_deadline_invariant Exp thr size a t0 s cs :
  size <= max_int64 -> ED.New thr size a t0 = Some s ->
  forall σ,
    let st' := after_calls (ED_call Exp thr) cs (σ, s) in
    ED.t1 st'.2 = ED.t0 st'.2 + thr /\
    ED.reservoirSize st'.2 = size /\
    Z.of_nat (Heap.len (ED.values st'.2)) <= ED.reservoirSize st'.2.
Proof.
  intros Hmax Hnew σ.
  destruct (New_wf thr size a t0 s Hmax Hnew)
    as (Hwf & Hrs & _ & _ & _ & Ht0 & Ht1).
  destruct (ED_calls_inv Exp thr cs (σ, s) Hwf) as (Hwf' & Hrs' & Ht' & _).
  cbn [fst snd] in *. cbv zeta.
  split; [apply Ht'; lia |]. split; [congruence |].
  destruct Hwf' as [[Hle _] Hcap]. lia.
Qed.

(** The sample that [NewExpDecaySampleFloat64(2, 1)] makes at time 0. *)
Definition sample_new_ex : ED.t :=
  ED.mk 1 0 2 0 hour (heap_of [] 2).

Definition decay_calls_ex : list decay_call :=
  [DUpdate 0 7 0.5; DUpdate (hour + 1000) 8 0.5; DUpdate (hour + 2000) 9 0.5;
   DClear 5; DUpdate 6 9 0.25].

Lemma ED_deadline_invariant_witness :
  let st' := after_calls (ED_call Exp_sat hour) decay_calls_ex
               (∅, sample_new_ex) in
  ED.t1 st'.2 = ED.t0 st'.2 + hour /\
  ED.reservoirSize st'.2 = 2 /\
  Z.of_nat (Heap.len (ED.values st'.2)) <= ED.reservoirSize st'.2.
Proof.
  apply (ED_deadline_invariant Exp_sat hour 2 1 0 sample_new_ex
           decay_calls_ex).
  - vm_compute. discriminate.
  - reflexivity.
Defined.

(** A decay sample holds no value that it was not given since it was last
    cleared: after any calls of [Update] and [Clear], returning or
    panicking, every value held was held at the start or given since. *)
Theorem ED_holds_only_supplied Exp thr cs (st : Slice.mem * ED.t) :
  sample_wf st.2 ->
  ED_held (after_calls (ED_call Exp thr) cs st)
  ⊆ fold_left decay_supplied cs (ED_held st).
Proof. intros Hwf. apply (ED_calls_inv Exp thr cs st Hwf). Qed.

Lemma ED_holds_only_supplied_witness :
  ED_held (after_calls (ED_call Exp_sat hour) decay_calls_ex (∅, sample_ex))
  ⊆ fold_left decay_supplied decay_calls_ex (ED_held (∅, sample_ex)).
Proof.
  apply (ED_holds_only_supplied Exp_sat hour decay_calls_ex (∅, sample_ex)).
  exact sample_ex_wf.
Defined.

(** ** The uniform sample *)

(** The values a uniform sample holds. *)
Definition US_held (st : US.state) : list float :=
  Slice.elems (US.values st.2) st.1.

Lemma elem_of_insert_inv {A} (l : list A) i x y :
  y ∈ <[i := x]> l -> y = x \/ y ∈ l.
Proof.
  intros H. apply list_elem_of_lookup in H as [j Hj].
  apply list_lookup_insert_Some in Hj as [(_ & -> & _) | (_ & Hj)];
    [now left | right; exact (list_elem_of_lookup_2 _ _ _ Hj)].
Qed.

Lemma US_call_step growslice c st :
  uniform_wf st ->
  let st' := state_of (US_call growslice c st) in
  uniform_wf st' /\ US.reservoirSize st'.2 = US.reservoirSize st.2 /\
  US_held st' ⊆ uniform_supplied (US_held st) c.
Proof.
  intros Hwf. destruct c as [raw x |]; cbn [US_call uniform_supplied].
  - destruct (US_Update_step growslice raw x st Hwf)
      as (Hwf' & Hrs' & _ & _).
    cbv zeta. split; [exact Hwf' |]. split; [exact Hrs' |].
    destruct st as [σ s]. unfold US_held.
    rewrite (US_Update_run growslice raw x σ s Hwf).
    destruct Hwf as [(a & Ha & Hl) Hcap]. cbn [fst snd] in *.
    unfold Slice.cap in Hcap. rewrite (array_lookup _ _ _ Ha) in *.
    cbv zeta.
    destruct (Z.ltb_spec (Z.of_nat (Slice.len (US.values s)))
                (US.reservoirSize s)) as [Hlt | Hge];
      [| destruct (Z.leb_spec (wrap64 (US.count s + 1)) 0) as [Hc | Hc];
         [| destruct (Z.ltb_spec (raw mod wrap64 (US.count s + 1))
                        (Z.of_nat (Slice.len (US.values s)))) as [Hr | Hr]]];
      cbn [state_of fst snd US.values]; unfold Slice.elems;
      cbn [Slice.len Slice.ptr]; array_insert;
      rewrite ?(array_lookup _ _ _ Ha).
    + rewrite (take_S_r _ _ x) by (apply list_lookup_insert_eq; lia).
      rewrite take_insert_ge by lia.
      intros y Hy. apply elem_of_app in Hy as [Hy | Hy];
        [now apply list_elem_of_further |].
      apply list_elem_of_singleton in Hy as ->. apply list_elem_of_here.
    + apply list_subseteq_cons. reflexivity.
    + pose proof (Z.mod_pos_bound raw _ Hc).
      rewrite take_insert_lt by lia.
      intros y Hy. apply elem_of_insert_inv in Hy as [-> | Hy];
        [apply list_elem_of_here | now apply list_elem_of_further].
    + apply list_subseteq_cons. reflexivity.
  - destruct (US_Clear_step st Hwf) as (st' & Hrun & Hwf' & Hrs' & _ & Hl' & _).
    rewrite Hrun. cbv zeta. cbn [state_of].
    split; [exact Hwf' |]. split; [exact Hrs' |].
    unfold US_held, Slice.elems. rewrite Hl'. reflexivity.
Qed.

Lemma US_calls_inv growslice cs :
  forall st,
    uniform_wf st ->
    let st' := after_calls (US_call growslice) cs st in
    uniform_wf st' /\ US.reservoirSize st'.2 = US.reservoirSize st.2 /\
    US_held st' ⊆ fold_left uniform_supplied cs (US_held st).
Proof.
  induction cs as [| c cs IH]; intros st Hwf.
  - cbv zeta. cbn [after_calls fold_left].
    split; [exact Hwf |]. split; reflexivity.
  - destruct (US_call_step growslice c st Hwf) as (Hwf1 & Hrs1 & Hh1).
    destruct (IH _ Hwf1) as (Hwf' & Hrs' & Hh').
    change (after_calls (US_call growslice) (c :: cs) st)
      with (after_calls (US_call growslice) cs
              (state_of (US_call growslice c st))).
    cbv zeta. split; [exact Hwf' |]. split; [congruence |].
    cbn [fold_left]. etransitivity; [exact Hh' |].
    apply (supplied_mono _ uniform_supplied_mono), Hh1.
Qed.

(** A uniform sample holds no value that it was not given since it was last
    cleared, and never more values than its reservoir size, after any calls
    of [Update] and [Clear], returning or panicking. *)
Theorem US_holds_only_supplied growslice cs (st : US.state) :
  uniform_wf st ->
  let st' := after_calls (US_call growslice) cs st in
  US_held st' ⊆ fold_left uniform_supplied cs (US_held st) /\
  Z.of_nat (length (US_held st')) <= US.reservoirSize st.2.
Proof.
  intros Hwf. destruct (US_calls_inv growslice cs st Hwf) as (Hwf' & Hrs' & Hh).
  cbv zeta. split; [exact Hh |].
  unfold US_held. rewrite (elems_length _ _ (proj1 Hwf')).
  destruct Hwf' as [(a & Ha & Hl) Hcap]. unfold Slice.cap in Hcap.
  rewrite (array_lookup _ _ _ Ha) in Hcap. lia.
Qed.

Definition uniform_calls_ex : list uniform_call :=
  [UUpdate 13 9; UClear; UUpdate 0 1; UUpdate 5 2; UUpdate 7 3].

Lemma US_holds_only_supplied_witness :
  let st' := after_calls (US_call (Nat.mul 2)) uniform_calls_ex uniform_ex in
  US_held st' ⊆ fold_left uniform_supplied uniform_calls_ex
                  (US_held uniform_ex) /\
  Z.of_nat (length (US_held st')) <= US.reservoirSize uniform_ex.2.
Proof.
  apply (US_holds_only_supplied (Nat.mul 2) uniform_calls_ex uniform_ex).
  exact uniform_ex_wf.
Defined.

Lemma US_appends growslice calls :
  forall st,
    uniform_wf st ->
    Z.of_nat (Slice.len (US.values st.2)) + Z.of_nat (length calls)
    <= US.reservoirSize st.2 ->
    exists st',
      US_updates growslice calls st = Done tt st' /\ uniform_wf st' /\
      US.reservoirSize st'.2 = US.reservoirSize st.2 /\
      US_held st' = US_held st ++ map snd calls.
Proof.
  induction calls as [| c calls IH]; intros st Hwf Hroom.
  - exists st. split; [reflexivity |]. split; [exact Hwf |].
    split; [reflexivity |]. cbn [map]. now rewrite app_nil_r.
  - cbn [length] in Hroom. rewrite Nat2Z.inj_succ in Hroom.
    destruct (US_Update_step growslice c.1 c.2 st Hwf)
      as (Hwf1 & Hrs1 & _ & _ & _ & Hl1 & _).
    assert (Hrun : US.Update growslice c.1 c.2 st
                   = Done tt (state_of (US.Update growslice c.1 c.2 st)) /\
                   US_held (state_of (US.Update growslice c.1 c.2 st))
                   = US_held st ++ [c.2]).
    { destruct st as [σ s]. rewrite (US_Update_run growslice c.1 c.2 σ s Hwf).
      destruct Hwf as [(a & Ha & Hl) Hcap]. cbn [fst snd] in *.
      unfold Slice.cap in Hcap. rewrite (array_lookup _ _ _ Ha) in *.
      cbv zeta.
      destruct (Z.ltb_spec (Z.of_nat (Slice.len (US.values s)))
                  (US.reservoirSize s)) as [Hlt | Hge]; [| lia].
      split; [reflexivity |]. unfold US_held, Slice.elems.
      cbn [state_of fst snd US.values Slice.len Slice.ptr]. array_insert.
      rewrite (array_lookup _ _ _ Ha).
      rewrite (take_S_r _ _ c.2) by (apply list_lookup_insert_eq; lia).
      now rewrite take_insert_ge by lia. }
    destruct Hrun as [Hrun Hheld].
    destruct (IH _ Hwf1) as (st' & Hrun' & Hwf' & Hrs' & Hh'); [lia |].
    exists st'. split.
    { unfold US_updates. cbn [for_each].
      rewrite (bind_Done _ _ _ _ _ Hrun). exact Hrun'. }
    split; [exact Hwf' |]. split; [congruence |].
    rewrite Hh', Hheld, <- app_assoc. reflexivity.
Qed.

(** After [Clear], the first values given to a uniform sample, as many as
    its reservoir size, are all held, in the order given; no draw is made
    for them. *)
Theorem US_keeps_first_values growslice calls (st : US.state) :
  uniform_wf st ->
  Z.of_nat (length calls) <= US.reservoirSize st.2 ->
  exists st',
    (US.Clear;; US_updates growslice calls) st = Done tt st' /\
    US_held st' = map snd calls.
Proof.
  intros Hwf Hk.
  destruct (US_Clear_step st Hwf)
    as (st0 & Hclr & Hwf0 & Hrs0 & _ & Hl0 & _).
  destruct (US_appends growslice calls st0 Hwf0) as (st' & Hrun & _ & _ & Hh);
    [lia |].
  exists st'. split; [now rewrite (bind_Done _ _ _ _ _ Hclr) |].
  rewrite Hh. unfold US_held, Slice.elems. now rewrite Hl0.
Qed.

Lemma US_keeps_first_values_witness :
  exists st',
    (US.Clear;; US_updates (Nat.mul 2) [(7, 1%float); (8, 2%float)])
      uniform_ex = Done tt st' /\
    US_held st' = map snd [(7, 1%float); (8, 2%float)].
Proof.
  apply (US_keeps_first_values (Nat.mul 2) [(7, 1%float); (8, 2%float)]
           uniform_ex).
  - exact uniform_ex_wf.
  - cbn. lia.
Defined.

(** A uniform sample of reservoir size 0 takes every [Update] without a
    panic: the count goes up, the value is dropped, and no array is
    written. *)
Theorem US_zero_reservoir_discards growslice raw x (st : US.state) :
  uniform_wf st -> US.reservoirSize st.2 = 0 ->
  0 <= US.count st.2 < max_int64 ->
  US.Update growslice raw x st
  = Done tt (st.1, US.with_count (US.count st.2 + 1) st.2) /\
  US_held st = [].
Proof.
  destruct st as [σ s]. intros Hwf Hrs Hc. cbn [fst snd] in *.
  rewrite (US_Update_run growslice raw x σ s Hwf).
  assert (Hlen := elems_length _ _ (proj1 Hwf)).
  destruct Hwf as [(a & Ha & Hl) Hcap]. cbn [fst snd] in *.
  unfold Slice.cap in Hcap. rewrite (array_lookup _ _ _ Ha) in *.
  assert (Hn : Slice.len (US.values s) = 0%nat) by lia.
  rewrite wrap64_id by (unfold min_int64; lia). cbv zeta. rewrite Hn, Hrs.
  change (Z.of_nat 0) with 0. change (0 <? 0) with false. cbv iota.
  destruct (Z.leb_spec (US.count s + 1) 0); [lia |].
  destruct (Z.ltb_spec (raw mod (US.count s + 1)) 0) as [Hr |].
  { pose proof (Z.mod_pos_bound raw (US.count s + 1)). lia. }
  split; [unfold US.with_count; now rewrite Hrs |].
  unfold US_held. cbn [fst snd]. apply nil_length_inv. now rewrite Hlen.
Qed.

(** A uniform sample of reservoir size 0. *)
Definition uniform_zero_ex : US.state :=
  ({[ 1%positive := [] ]}, US.mk 5 0 (Slice.mk 1%positive 0)).

Lemma US_zero_reservoir_discards_witness :
  US.Update (Nat.mul 2) 13 9 uniform_zero_ex
  = Done tt (uniform_zero_ex.1,
             US.with_count (US.count uniform_zero_ex.2 + 1)
               uniform_zero_ex.2) /\
  US_held uniform_zero_ex = [].
Proof.
  apply (US_zero_reservoir_discards (Nat.mul 2) 13 9 uniform_zero_ex).
  - split; [| reflexivity].
    exists []. split; [reflexivity | cbn; lia].
  - reflexivity.
  - vm_compute. split; [discriminate | reflexivity].
Defined.

(** When the count of a full uniform sample is the largest int64, the next
    [Update] wraps it to the least int64 and panics in [rand.Int63n], which
    refuses an argument that is not positive; the values are unchanged. *)
Theorem US_Update_count_overflow growslice raw x (st : US.state) :
  uniform_wf st -> US.count st.2 = max_int64 ->
  US.reservoirSize st.2 <= Z.of_nat (Slice.len (US.values st.2)) ->
  US.Update growslice raw x st
  = Panicked invalid_argument_to_Int63n
      (st.1, US.with_count min_int64 st.2).
Proof.
  destruct st as [σ s]. intros Hwf Hc Hfull. cbn [fst snd] in *.
  rewrite (US_Update_run growslice raw x σ s Hwf). cbv zeta.
  destruct (Z.ltb_spec (Z.of_nat (Slice.len (US.values s)))
              (US.reservoirSize s)); [lia |].
  rewrite Hc. change (wrap64 (max_int64 + 1)) with min_int64.
  reflexivity.
Qed.

(** A full uniform sample whose count is the largest int64. *)
Definition uniform_overflow_ex : US.state :=
  ({[ 1%positive := [3; 4]%float ]},
   US.mk max_int64 2 (Slice.mk 1%positive 2)).

Lemma US_Update_count_overflow_witness :
  US.Update (Nat.mul 2) 13 9 uniform_overflow_ex
  = Panicked invalid_argument_to_Int63n
      (uniform_overflow_ex.1, US.with_count min_int64 uniform_overflow_ex.2).
Proof.
  apply (US_Update_count_overflow (Nat.mul 2) 13 9 uniform_overflow_ex).
  - split; [| reflexivity].
    exists [3; 4]%float. split; [reflexivity | cbn; lia].
  - reflexivity.
  - cbn. lia.
Defined.

(** ** What is read from a sample *)

(** Everything that can be read from a uniform sample and from a decay
    sample, in the order of [snapshot_reads]. *)
Definition US_reads (sort : list float -> list float) (undef : Z)
    (p : float) (ps : list float) (st : US.state) :=
  (answer (US.Count st), answer (US.Size st),
   answer_elems (US.Values st),
   answer (US.Min st), answer (US.Max st), answer (US.Mean st),
   answer (US.Sum st), answer (US.Variance st), answer (US.StdDev st),
   answer (US.Percentile sort undef p st),
   answer (US.Percentiles sort undef ps st)).

Definition ED_reads (sort : list float -> list float) (undef : Z)
    (p : float) (ps : list float) (s : ED.t) :=
  (answer (ED.Count s), answer (ED.Size s), answer (ED.Values s),
   answer (ED.Min s), answer (ED.Max s), answer (ED.Mean s),
   answer (ED.Sum s), answer (ED.Variance s), answer (ED.StdDev s),
   answer (ED.Percentile sort undef p s),
   answer (ED.Percentiles sort undef ps s)).

(** The reads of a collection of [count] values [vs]. *)
Definition reads_of (sort : list float -> list float) (undef : Z)
    (p : float) (ps : list float) (count : Z) (vs : list float) :=
  (inl count : Z + panic, inl (Z.of_nat (length vs)) : Z + panic,
   inl vs : list float + panic,
   inl (SampleMinFloat64 vs) : float + panic,
   inl (SampleMaxFloat64 vs) : float + panic,
   inl (SampleMeanFloat64 vs) : float + panic,
   inl (SampleSumFloat64 vs) : float + panic,
   inl (SampleVarianceFloat64 vs) : float + panic,
   inl (SampleStdDevFloat64 vs) : float + panic,
   answer (SamplePercentileFloat64 sort undef p vs),
   answer (SamplePercentilesFloat64 sort undef ps vs)).

Lemma snapshot_reads_of sort undef p ps σ snap :
  slice_wf (Snap.values snap) σ ->
  snapshot_reads sort undef p ps (σ, snap)
  = reads_of sort undef p ps (Snap.count snap)
      (Slice.elems (Snap.values snap) σ).
Proof.
  intros Hwf. unfold snapshot_reads, reads_of.
  rewrite (Snap_Values_spec _ _ Hwf).
  unfold Snap.Percentile, Snap.Percentiles, self, in_obj, get, mbind, M_bind.
  cbn [fst snd]. unfold Snap.state. rewrite !answer_on_elems.
  unfold Snap.Count, Snap.Size, Snap.Min, Snap.Max, Snap.Mean, Snap.Sum,
    Snap.Variance, Snap.StdDev, self, in_obj, in_mem, Slice.read, get, mbind,
    M_bind, mret, M_ret.
  cbn [fst snd]. unfold answer, answer_elems. cbv beta iota. cbn [fst snd].
  rewrite !elems_copy by assumption.
  now rewrite (elems_length _ _ Hwf).
Qed.

Lemma US_reads_of sort undef p ps st :
  uniform_wf st ->
  US_reads sort undef p ps st
  = reads_of sort undef p ps (US.count st.2) (US_held st).
Proof.
  destruct st as [σ s]. intros Hwf. unfold US_reads, reads_of, US_held.
  rewrite (US_Values_spec _ _ Hwf). destruct Hwf as [Hwf _].
  cbn [fst snd] in *.
  unfold US.Percentile, US.Percentiles, self, in_obj, get, mbind, M_bind.
  cbn [fst snd]. unfold US.state. rewrite !answer_on_elems.
  unfold US.Count, US.Size, US.Min, US.Max, US.Mean, US.Sum,
    US.Variance, US.StdDev, self, in_obj, in_mem, Slice.read, get, mbind,
    M_bind, mret, M_ret.
  cbn [fst snd]. unfold answer, answer_elems. cbv beta iota. cbn [fst snd].
  rewrite !elems_copy by assumption.
  now rewrite (elems_length _ _ Hwf).
Qed.

Lemma ED_reads_of sort undef p ps s :
  sample_wf s ->
  ED_reads sort undef p ps s
  = reads_of sort undef p ps (ED.count s) (map v (Heap.items (ED.values s))).
Proof.
  intros [[Hle _] _]. unfold ED_reads, reads_of.
  unfold ED.Percentile, ED.Percentiles, ED.Count, ED.Size, ED.Min, ED.Max,
    ED.Mean, ED.Sum, ED.Variance, ED.StdDev, ED.Values, ED.on_values,
    Heap.Size, get, mbind, M_bind, mret, M_ret, throw.
  assert (Hlen : length (map v (Heap.items (ED.values s)))
                 = Heap.len (ED.values s)).
  { rewrite length_map. unfold Heap.items. rewrite length_take.
    unfold Heap.cap in Hle. lia. }
  rewrite Hlen.
  unfold answer at 1 2 3 4 5 6 7 8 9. cbv beta iota.
  repeat f_equal.
  - now destruct (SamplePercentileFloat64 _ _ _ _).
  - now destruct (SamplePercentilesFloat64 _ _ _ _).
Qed.

(** A snapshot answers as its sample did when the snapshot was taken: the
    reads of the snapshot that [Snapshot()] returns - count, size, values,
    the statistics, the percentiles - are those of the uniform sample, or of
    the decay sample, that it was taken from. *)
Theorem snapshot_answers_as_sample sort undef p ps
    (st : US.state) (σ : Slice.mem) (s : ED.t) :
  uniform_wf st -> sample_wf s ->
  (exists snap st1,
      US.Snapshot st = Done snap st1 /\
      snapshot_reads sort undef p ps (st1.1, snap)
      = US_reads sort undef p ps st) /\
  (exists snap st1,
      ED.Snapshot (σ, s) = Done snap st1 /\
      snapshot_reads sort undef p ps (st1.1, snap)
      = ED_reads sort undef p ps s).
Proof.
  intros Hu Hd. split.
  - destruct st as [σu su]. assert (Hs := proj1 Hu). cbn [fst snd] in Hs.
    eexists _, _. split; [apply (US_Snapshot_spec _ _ Hu) |].
    rewrite (US_reads_of _ _ _ _ _ Hu), snapshot_reads_of.
    + cbn [fst snd Snap.values Snap.count]. unfold US_held. cbn [fst snd].
      now rewrite (elems_copy _ _ _ Hs).
    + eexists. cbn [fst snd Snap.values Slice.ptr Slice.len].
      split; [apply lookup_insert_eq |]. rewrite (elems_length _ _ Hs). lia.
  - eexists _, _. split; [apply ED_Snapshot_spec |].
    rewrite (ED_reads_of _ _ _ _ _ Hd), snapshot_reads_of.
    + cbn [fst snd Snap.values Snap.count]. f_equal.
      unfold Slice.elems. array_insert. cbn [Slice.len].
      apply take_ge. rewrite length_map. lia.
    + eexists. cbn [fst snd Snap.values Slice.ptr Slice.len].
      split; [apply lookup_insert_eq |]. rewrite length_map. lia.
Qed.

Lemma snapshot_answers_as_sample_witness :
  (exists snap st1,
      US.Snapshot uniform_ex = Done snap st1 /\
      snapshot_reads isort min_int64 0.5 [0; 1]%float (st1.1, snap)
      = US_reads isort min_int64 0.5 [0; 1]%float uniform_ex) /\
  (exists snap st1,
      ED.Snapshot (∅, sample_ex) = Done snap st1 /\
      snapshot_reads isort min_int64 0.5 [0; 1]%float (st1.1, snap)
      = ED_reads isort min_int64 0.5 [0; 1]%float sample_ex).
Proof.
  apply (snapshot_answers_as_sample isort min_int64 0.5 [0; 1]%float
           uniform_ex ∅ sample_ex).
  - exact uniform_ex_wf.
  - exact sample_ex_wf.
Defined.

Lemma reads_of_nil sort undef p ps count :
  reads_of sort undef p ps count []
  = (inl count, inl 0, inl [], inl 0%float, inl 0%float, inl 0%float,
     inl 0%float, inl 0%float, inl 0%float, inl 0%float,
     inl (replicate (length ps) 0%float)).
Proof. reflexivity. Qed.

(** After [Clear] a sample reads as empty: count and size are 0, there are
    no values, every statistic is 0, and so is every percentile asked for. *)
Theorem Clear_resets_reads thr now sort undef p ps
    (st : US.state) (s : ED.t) :
  uniform_wf st -> sample_wf s ->
  (exists st',
      US.Clear st = Done tt st' /\
      US_reads sort undef p ps st' = reads_of sort undef p ps 0 []) /\
  (exists s',
      ED.Clear thr now s = Done tt s' /\
      ED_reads sort undef p ps s' = reads_of sort undef p ps 0 []) /\
  reads_of sort undef p ps 0 []
  = (inl 0, inl 0, inl [], inl 0%float, inl 0%float, inl 0%float,
     inl 0%float, inl 0%float, inl 0%float, inl 0%float,
     inl (replicate (length ps) 0%float)).
Proof.
  intros Hu Hd. split; [| split; [| apply reads_of_nil]].
  - destruct (US_Clear_step st Hu) as (st' & Hrun & Hwf' & _ & Hc & Hl & _).
    exists st'. split; [exact Hrun |].
    rewrite (US_reads_of _ _ _ _ _ Hwf'), Hc. f_equal.
    unfold US_held, Slice.elems. now rewrite Hl.
  - destruct (Clear_spec thr now s Hd)
      as (s' & Hrun & Hwf' & _ & _ & Hc & Hl & _).
    exists s'. split; [exact Hrun |].
    rewrite (ED_reads_of _ _ _ _ _ Hwf'), Hc. f_equal.
    unfold Heap.items. now rewrite Hl.
Qed.

Lemma Clear_resets_reads_witness :
  (exists st',
      US.Clear uniform_ex = Done tt st' /\
      US_reads isort min_int64 0.5 [0; 1]%float st'
      = reads_of isort min_int64 0.5 [0; 1]%float 0 []) /\
  (exists s',
      ED.Clear hour 7 sample_ex = Done tt s' /\
      ED_reads isort min_int64 0.5 [0; 1]%float s'
      = reads_of isort min_int64 0.5 [0; 1]%float 0 []) /\
  reads_of isort min_int64 0.5 [0; 1]%float 0 []
  = (inl 0, inl 0, inl [], inl 0%float, inl 0%float, inl 0%float,
     inl 0%float, inl 0%float, inl 0%float, inl 0%float,
     inl (replicate (length [0; 1]%float) 0%float)).
Proof.
  apply (Clear_resets_reads hour 7 isort min_int64 0.5 [0; 1]%float
           uniform_ex sample_ex).
  - exact uniform_ex_wf.
  - exact sample_ex_wf.
Defined.

(** ** Making a sample *)

(** Both constructors panic on a negative reservoir size, in [make]. *)
Theorem New_negative_panics thr size a now (σ : Slice.mem) :
  size < 0 ->
  ED.New thr size a now = None /\
  US.New size σ = Panicked makeslice_out_of_range σ.
Proof.
  intros Hs. split; [| now apply US_New_panics].
  unfold ED.New, Heap.new. destruct (Z.leb_spec 0 size); [lia | reflexivity].
Qed.

Lemma New_negative_panics_witness :
  ED.New hour (-1) 0.5 0 = None /\
  US.New (-1) ∅ = Panicked makeslice_out_of_range ∅.
Proof. apply (New_negative_panics hour (-1) 0.5 0 ∅). lia. Defined.

(** What a constructor returns is an empty sample.  When
    [NewExpDecaySampleFloat64] or [NewUniformSampleFloat64] returns (the
    runtime's [make] refuses a negative capacity and one it cannot
    allocate), the sample has the reservoir size asked for and reads as
    empty; the uniform sample's array is a new one, and the arrays there
    were are as they were. *)
Theorem New_is_empty thr sized sizeu a now sort undef p ps
    (σ σ' : Slice.mem) (s : ED.t) (su : US.t) :
  sized <= max_int64 ->
  ED.New thr sized a now = Some s ->
  US.New sizeu σ = Done su σ' ->
  (sample_wf s /\ ED.reservoirSize s = sized /\
   ED_reads sort undef p ps s = reads_of sort undef p ps 0 []) /\
  (uniform_wf (σ', su) /\ US.reservoirSize su = sizeu /\
   US_reads sort undef p ps (σ', su) = reads_of sort undef p ps 0 [] /\
   σ !! Slice.ptr (US.values su) = None /\
   (forall l, l <> Slice.ptr (US.values su) -> σ' !! l = σ !! l)).
Proof.
  intros Hmax Hd Hu. split.
  - destruct (New_wf thr sized a now s Hmax Hd)
      as (Hwf & Hrs & _ & Hc & Hl & _).
    split; [exact Hwf |]. split; [exact Hrs |].
    rewrite (ED_reads_of _ _ _ _ _ Hwf), Hc. unfold Heap.items.
    now rewrite Hl.
  - destruct (Z.lt_ge_cases sizeu 0) as [Hneg | Hpos].
    { rewrite (US_New_panics sizeu σ Hneg) in Hu. discriminate. }
    destruct (US_New_spec sizeu σ Hpos) as (s1 & Hrun & Hs & Hwf).
    rewrite Hrun in Hu. injection Hu as <- <-. split; [exact Hwf |].
    rewrite (US_reads_of _ _ _ _ _ Hwf).
    subst s1. cbn [fst snd US.reservoirSize US.values US.count Slice.ptr].
    split; [reflexivity |]. split; [reflexivity |].
    split; [apply fresh_lookup |].
    intros l Hne. now apply mem_lookup_insert_ne.
Qed.

(** What [NewUniformSampleFloat64(2)] returns beside the array of
    [uniform_ex]. *)
Definition uniform_new_ex : US.state :=
  (<[2%positive := [0; 0]%float]> uniform_ex.1,
   US.mk 0 2 (Slice.mk 2%positive 0)).

Lemma New_is_empty_witness :
  (sample_wf sample_new_ex /\ ED.reservoirSize sample_new_ex = 2 /\
   ED_reads isort min_int64 0.5 [0; 1]%float sample_new_ex
   = reads_of isort min_int64 0.5 [0; 1]%float 0 []) /\
  (uniform_wf (uniform_new_ex.1, uniform_new_ex.2) /\
   US.reservoirSize uniform_new_ex.2 = 2 /\
   US_reads isort min_int64 0.5 [0; 1]%float
     (uniform_new_ex.1, uniform_new_ex.2)
   = reads_of isort min_int64 0.5 [0; 1]%float 0 [] /\
   uniform_ex.1 !! Slice.ptr (US.values uniform_new_ex.2) = None /\
   (forall l, l <> Slice.ptr (US.values uniform_new_ex.2) ->
              uniform_new_ex.1 !! l = uniform_ex.1 !! l)).
Proof.
  apply (New_is_empty hour 2 2 1 0 isort min_int64 0.5 [0; 1]%float
           uniform_ex.1 uniform_new_ex.1 sample_new_ex uniform_new_ex.2).
  - vm_compute. discriminate.
  - reflexivity.
  - vm_compute. reflexivity.
Defined.

(** ** Values *)

(** [Values()] of a uniform sample and of a snapshot returns the values in
    an array of its own, one that was not there before the call; the sample
    or snapshot and every other array are as they were. *)
Theorem Values_returns_copy (st : US.state) (sn : Snap.state) :
  uniform_wf st -> slice_wf (Snap.values sn.2) sn.1 ->
  (exists vs σ',
      US.Values st = Done vs (σ', st.2) /\
      Slice.elems vs σ' = US_held st /\
      st.1 !! Slice.ptr vs = None /\
      (forall l, l <> Slice.ptr vs -> σ' !! l = st.1 !! l)) /\
  (exists vs σ',
      Snap.Values sn = Done vs (σ', sn.2) /\
      Slice.elems vs σ' = Slice.elems (Snap.values sn.2) sn.1 /\
      sn.1 !! Slice.ptr vs = None /\
      (forall l, l <> Slice.ptr vs -> σ' !! l = sn.1 !! l)).
Proof.
  intros Hu Hs. split.
  - destruct st as [σ s]. eexists _, _.
    split; [apply (US_Values_spec _ _ Hu) |]. cbn [fst snd Slice.ptr].
    split; [apply (elems_copy _ _ _ (proj1 Hu)) |].
    split; [apply fresh_lookup |].
    intros l Hne. now apply mem_lookup_insert_ne.
  - destruct sn as [σ s]. eexists _, _.
    split; [apply (Snap_Values_spec _ _ Hs) |]. cbn [fst snd Slice.ptr].
    split; [apply (elems_copy _ _ _ Hs) |].
    split; [apply fresh_lookup |].
    intros l Hne. now apply mem_lookup_insert_ne.
Qed.

(** A snapshot of two values. *)
Definition snapshot_ex : Snap.state :=
  ({[ 1%positive := [3; 4]%float ]}, Snap.mk 5 (Slice.mk 1%positive 2)).

Lemma snapshot_ex_wf : slice_wf (Snap.values snapshot_ex.2) snapshot_ex.1.
Proof. exists [3; 4]%float. split; [reflexivity | cbn; lia]. Qed.

Lemma Values_returns_copy_witness :
  (exists vs σ',
      US.Values uniform_ex = Done vs (σ', uniform_ex.2) /\
      Slice.elems vs σ' = US_held uniform_ex /\
      uniform_ex.1 !! Slice.ptr vs = None /\
      (forall l, l <> Slice.ptr vs -> σ' !! l = uniform_ex.1 !! l)) /\
  (exists vs σ',
      Snap.Values snapshot_ex = Done vs (σ', snapshot_ex.2) /\
      Slice.elems vs σ' = Slice.elems (Snap.values snapshot_ex.2) snapshot_ex.1 /\
      snapshot_ex.1 !! Slice.ptr vs = None /\
      (forall l, l <> Slice.ptr vs -> σ' !! l = snapshot_ex.1 !! l)).
Proof.
  apply (Values_returns_copy uniform_ex snapshot_ex).
  - exact uniform_ex_wf.
  - exact snapshot_ex_wf.
Defined.

(** [Percentiles] of a snapshot sorts the snapshot's own values in place:
    the snapshot then holds a permutation of its values, as [sort.Sort]
    arranged them; its count and every other array are as they were. *)
Theorem Snap_Percentiles_sorts_snapshot sort undef ps (sn : Snap.state) :
  sort_contract sort -> slice_wf (Snap.values sn.2) sn.1 ->
  let held := Slice.elems (Snap.values sn.2) sn.1 in
  let sn' := state_of (Snap.Percentiles sort undef ps sn) in
  sn'.2 = sn.2 /\
  Slice.elems (Snap.values sn.2) sn'.1
  = (if decide (held = []) then held else sort held) /\
  Slice.elems (Snap.values sn.2) sn'.1 ≡ₚ held /\
  (forall l, l <> Slice.ptr (Snap.values sn.2) -> sn'.1 !! l = sn.1 !! l).
Proof.
  destruct sn as [σ s]. cbn [fst snd]. intros Hsort Hwf. cbv zeta.
  unfold Snap.Percentiles, self, in_obj, get, mbind, M_bind. cbn [fst snd].
  destruct (on_elems_state (T:=Snap.t) (Snap.values s)
              (SamplePercentilesFloat64 sort undef ps) σ s Hwf)
    as (H2 & He & Hfr).
  { rewrite SamplePercentilesFloat64_state.
    destruct (decide _);
      [rewrite (sort_perm _ Hsort) |]; apply (elems_length _ _ Hwf). }
  split; [exact H2 |].
  assert (Hst : Slice.elems (Snap.values s)
                  (state_of
                     (in_mem
                        (Slice.on_elems (Snap.values s)
                           (SamplePercentilesFloat64 sort undef ps))
                        (σ, s))).1
                = if decide (Slice.elems (Snap.values s) σ = [])
                  then Slice.elems (Snap.values s) σ
                  else sort (Slice.elems (Snap.values s) σ)).
  { etransitivity; [exact He |]. rewrite SamplePercentilesFloat64_state.
    destruct (Slice.elems (Snap.values s) σ) as [| y l] eqn:E.
    - reflexivity.
    - destruct (decide (0 < length (y :: l))%nat) as [| Hn];
        [| cbn in Hn; lia].
      destruct (decide (y :: l = [])); [discriminate | reflexivity]. }
  split; [exact Hst |]. split; [| exact Hfr].
  etransitivity; [apply reflexive_eq, Hst |].
  destruct (decide _); [reflexivity | apply (sort_perm _ Hsort)].
Qed.

(** A snapshot whose values are not in order. *)
Definition snapshot_unsorted_ex : Snap.state :=
  ({[ 1%positive := [4; 3; 5]%float ]}, Snap.mk 9 (Slice.mk 1%positive 3)).

Lemma Snap_Percentiles_sorts_snapshot_witness :
  let held :=
    Slice.elems (Snap.values snapshot_unsorted_ex.2) snapshot_unsorted_ex.1 in
  let sn' :=
    state_of (Snap.Percentiles isort min_int64 [0.5]%float
                snapshot_unsorted_ex) in
  sn'.2 = snapshot_unsorted_ex.2 /\
  Slice.elems (Snap.values snapshot_unsorted_ex.2) sn'.1
  = (if decide (held = []) then held else isort held) /\
  Slice.elems (Snap.values snapshot_unsorted_ex.2) sn'.1 ≡ₚ held /\
  (forall l, l <> Slice.ptr (Snap.values snapshot_unsorted_ex.2) ->
             sn'.1 !! l = snapshot_unsorted_ex.1 !! l).
Proof.
  apply (Snap_Percentiles_sorts_snapshot isort min_int64 [0.5]%float
           snapshot_unsorted_ex).
  - exact isort_contract.
  - exists [4; 3; 5]%float. split; [reflexivity | cbn; lia].
Defined.

(** The snapshot holds 3, 4, 5 after the median was asked for. *)
Example Snap_Percentiles_ex :
  (let sn' := state_of (Snap.Percentiles isort min_int64 [0.5]%float
                          snapshot_unsorted_ex) in
   (answer (Snap.Percentiles isort min_int64 [0.5]%float snapshot_unsorted_ex),
    answer_elems (Snap.Values sn')))
  = (inl [4], inl [3; 4; 5])%float.
Proof. vm_compute. reflexivity. Qed.

(** * Histograms (histogram_float64.go) *)

(** What a call on a sample takes from its surroundings: the time of
    [time.Now()], the draw behind [rand.Int63n] and the value of
    [rand.Float64()]. *)
Record inputs : Type := mkInputs { now : Z; raw : Z; u : float }.

(** The interface [SampleFloat64].  [Snapshot] returns a
    [SampleSnapshotFloat64] in each of its three implementations, so the
    type assertion in [StandardHistogramFloat64.Snapshot] holds. *)
Class SampleFloat64 (T : Type) : Type := {
  sample_Clear : inputs -> M (Slice.mem * T) unit;
  sample_Count : M (Slice.mem * T) Z;
  sample_Max : M (Slice.mem * T) float;
  sample_Mean : M (Slice.mem * T) float;
  sample_Min : M (Slice.mem * T) float;
  sample_Percentile : float -> M (Slice.mem * T) float;
  sample_Percentiles : list float -> M (Slice.mem * T) (list float);
  sample_Size : M (Slice.mem * T) Z;
  sample_Snapshot : M (Slice.mem * T) Snap.t;
  sample_StdDev : M (Slice.mem * T) float;
  sample_Sum : M (Slice.mem * T) float;
  sample_Update : inputs -> float -> M (Slice.mem * T) unit;
  sample_Values : M (Slice.mem * T) Slice.t;
  sample_Variance : M (Slice.mem * T) float
}.

Section Implementations.

Variable Exp : float -> float.
Variable rescaleThreshold : Z.
Variable growslice : nat -> nat.
Variable sort : list float -> list float.
Variable undef : Z.

#[export] Instance UniformSample_SampleFloat64 : SampleFloat64 US.t := {
  sample_Clear _ := US.Clear;
  sample_Count := US.Count;
  sample_Max := US.Max;
  sample_Mean := US.Mean;
  sample_Min := US.Min;
  sample_Percentile := US.Percentile sort undef;
  sample_Percentiles := US.Percentiles sort undef;
  sample_Size := US.Size;
  sample_Snapshot := US.Snapshot;
  sample_StdDev := US.StdDev;
  sample_Sum := US.Sum;
  sample_Update i x := US.Update growslice (raw i) x;
  sample_Values := US.Values;
  sample_Variance := US.Variance
}.

#[export] Instance SampleSnapshot_SampleFloat64 : SampleFloat64 Snap.t := {
  sample_Clear _ := Snap.Clear;
  sample_Count := Snap.Count;
  sample_Max := Snap.Max;
  sample_Mean := Snap.Mean;
  sample_Min := Snap.Min;
  sample_Percentile := Snap.Percentile sort undef;
  sample_Percentiles := Snap.Percentiles sort undef;
  sample_Size := Snap.Size;
  sample_Snapshot := Snap.Snapshot;
  sample_StdDev := Snap.StdDev;
  sample_Sum := Snap.Sum;
  sample_Update _ x := Snap.Update x;
  sample_Values := Snap.Values;
  sample_Variance := Snap.Variance
}.

(** [Values] of a decay sample, with the slice it returns in a new array. *)
Definition ExpDecaySample_Values : M (Slice.mem * ED.t) Slice.t :=
  vs ← in_obj ED.Values;
  l ← in_mem (Slice.alloc vs);
  mret (Slice.mk l (length vs)).

#[export] Instance ExpDecaySample_SampleFloat64 : SampleFloat64 ED.t := {
  sample_Clear i := in_obj (ED.Clear rescaleThreshold (now i));
  sample_Count := in_obj ED.Count;
  sample_Max := in_obj ED.Max;
  sample_Mean := in_obj ED.Mean;
  sample_Min := in_obj ED.Min;
  sample_Percentile p := in_obj (ED.Percentile sort undef p);
  sample_Percentiles ps := in_obj (ED.Percentiles sort undef ps);
  sample_Size := in_obj ED.Size;
  sample_Snapshot := ED.Snapshot;
  sample_StdDev := in_obj ED.StdDev;
  sample_Sum := in_obj ED.Sum;
  sample_Update i x :=
    in_obj (ED.Update Exp rescaleThreshold (now i) x (u i));
  sample_Values := ExpDecaySample_Values;
  sample_Variance := in_obj ED.Variance
}.

End Implementations.

Module HistogramSnapshotFloat64.

Record t : Type := mk { sample : Snap.t }.

Definition state : Type := (Slice.mem * t)%type.

(** A call of [h.sample]. *)
Definition on_sample {A} (m : M Snap.state A) : M state A :=
  fun st =>
    match m (st.1, sample st.2) with
    | Done a st' => Done a (st'.1, mk st'.2)
    | Panicked e st' => Panicked e (st'.1, mk st'.2)
    end.

Definition Clear : M state unit :=
  throw (panic_msg "Clear called on a HistogramSnapshotFloat64").

Definition Count : M state Z := on_sample Snap.Count.
Definition Max : M state float := on_sample Snap.Max.
Definition Mean : M state float := on_sample Snap.Mean.
Definition Min : M state float := on_sample Snap.Min.

Definition Percentile (sort : list float -> list float) (undef : Z)
    (p : float) : M state float :=
  on_sample (Snap.Percentile sort undef p).

Definition Percentiles (sort : list float -> list float) (undef : Z)
    (ps : list float) : M state (list float) :=
  on_sample (Snap.Percentiles sort undef ps).

Definition Sample : M state Snap.t := h ← self; mret (sample h).
Definition Snapshot : M state t := self.
Definition StdDev : M state float := on_sample Snap.StdDev.
Definition Sum : M state float := on_sample Snap.Sum.

Definition Update (_ : float) : M state unit :=
  throw (panic_msg "Update called on a HistogramSnapshotFloat64").

Definition Variance : M state float := on_sample Snap.Variance.

End HistogramSnapshotFloat64.

Module StandardHistogramFloat64.

Section Histogram.

Context {T : Type} `{SampleFloat64 T}.

Record t : Type := mk { sample : T }.

Definition state : Type := (Slice.mem * t)%type.

(** A call of [h.sample]. *)
Definition on_sample {A} (m : M (Slice.mem * T) A) : M state A :=
  fun st =>
    match m (st.1, sample st.2) with
    | Done a st' => Done a (st'.1, mk st'.2)
    | Panicked e st' => Panicked e (st'.1, mk st'.2)
    end.

Definition Clear (i : inputs) : M state unit := on_sample (sample_Clear i).
Definition Count : M state Z := on_sample sample_Count.
Definition Max : M state float := on_sample sample_Max.
Definition Mean : M state float := on_sample sample_Mean.
Definition Min : M state float := on_sample sample_Min.

Definition Percentile (p : float) : M state float :=
  on_sample (sample_Percentile p).

Definition Percentiles (ps : list float) : M state (list float) :=
  on_sample (sample_Percentiles ps).

Definition Sample : M state T := h ← self; mret (sample h).

Definition Snapshot : M state HistogramSnapshotFloat64.t :=
  s ← on_sample sample_Snapshot;
  mret (HistogramSnapshotFloat64.mk s).

Definition StdDev : M state float := on_sample sample_StdDev.
Definition Sum : M state float := on_sample sample_Sum.

Definition Update (i : inputs) (x : float) : M state unit :=
  on_sample (sample_Update i x).

Definition Variance : M state float := on_sample sample_Variance.

End Histogram.

Arguments t T : clear implicits.
Arguments state T : clear implicits.

End StandardHistogramFloat64.

Module Hist := StandardHistogramFloat64.
Module HSnap := HistogramSnapshotFloat64.

Definition NewHistogramFloat64 {T} (s : T) : Hist.t T := Hist.mk s.

(** ** Snapshots of histograms *)

(** [Update] and [Clear] on the snapshot of a histogram panic, each with
    its own message, and leave the snapshot and the arrays as they were. *)
Theorem HistogramSnapshot_Update_Clear_panic (st : HSnap.state) (x : float) :
  HSnap.Update x st
  = Panicked (panic_msg "Update called on a HistogramSnapshotFloat64") st /\
  HSnap.Clear st
  = Panicked (panic_msg "Clear called on a HistogramSnapshotFloat64") st.
Proof. split; reflexivity. Qed.

(** The calls that change a histogram. *)
Inductive hist_call : Type :=
| HUpdate (i : inputs) (x : float)
| HClear (i : inputs).

Definition Hist_call {T} `{SampleFloat64 T} (c : hist_call)
  : M (Hist.state T) unit :=
  match c with
  | HUpdate i x => Hist.Update i x
  | HClear i => Hist.Clear i
  end.

(** Everything that can be read from a histogram, and from the snapshot of
    one. *)
Definition Hist_reads {T} `{SampleFloat64 T} (p : float) (ps : list float)
    (st : Hist.state T) :=
  (answer (Hist.Count st),
   answer (Hist.Min st), answer (Hist.Max st), answer (Hist.Mean st),
   answer (Hist.Sum st), answer (Hist.Variance st), answer (Hist.StdDev st),
   answer (Hist.Percentile p st), answer (Hist.Percentiles ps st)).

Definition HSnap_reads (sort : list float -> list float) (undef : Z)
    (p : float) (ps : list float) (st : HSnap.state) :=
  (answer (HSnap.Count st),
   answer (HSnap.Min st), answer (HSnap.Max st), answer (HSnap.Mean st),
   answer (HSnap.Sum st), answer (HSnap.Variance st),
   answer (HSnap.StdDev st),
   answer (HSnap.Percentile sort undef p st),
   answer (HSnap.Percentiles sort undef ps st)).

(** The reads of a sample that a histogram has too. *)
Definition hist_part {A B C D E F}
    (r : A * B * C * D * D * D * D * D * D * E * F) :=
  let '(c, _, _, mn, mx, me, su, va, sd, p, ps) := r in
  (c, mn, mx, me, su, va, sd, p, ps).

Lemma answer_in_obj {T A} (m : M T A) (σ : Slice.mem) s :
  answer (in_obj m (σ, s)) = answer (m s).
Proof. unfold in_obj. cbn [fst snd]. now destruct (m s). Qed.

Lemma Hist_answer {T} `{SampleFloat64 T} {A} (m : M (Slice.mem * T) A) st :
  answer (Hist.on_sample m st) = answer (m (st.1, Hist.sample st.2)).
Proof.
  unfold Hist.on_sample. now destruct (m (st.1, Hist.sample st.2)).
Qed.

Lemma HSnap_answer {A} (m : M Snap.state A) st :
  answer (HSnap.on_sample m st) = answer (m (st.1, HSnap.sample st.2)).
Proof.
  unfold HSnap.on_sample. now destruct (m (st.1, HSnap.sample st.2)).
Qed.

Lemma HSnap_reads_part sort undef p ps σ hs :
  HSnap_reads sort undef p ps (σ, hs)
  = hist_part (snapshot_reads sort undef p ps (σ, HSnap.sample hs)).
Proof.
  unfold HSnap_reads, HSnap.Count, HSnap.Min, HSnap.Max, HSnap.Mean,
    HSnap.Sum, HSnap.Variance, HSnap.StdDev, HSnap.Percentile,
    HSnap.Percentiles.
  rewrite !HSnap_answer. reflexivity.
Qed.

Lemma Hist_reads_uniform growslice sort undef p ps (st : Hist.state US.t) :
  Hist_reads (H := UniformSample_SampleFloat64 growslice sort undef) p ps st
  = hist_part (US_reads sort undef p ps (st.1, Hist.sample st.2)).
Proof.
  cbv beta delta [Hist_reads Hist.Count Hist.Min Hist.Max Hist.Mean Hist.Sum
                    Hist.Variance Hist.StdDev Hist.Percentile
                    Hist.Percentiles].
  rewrite !(Hist_answer (H := UniformSample_SampleFloat64 growslice sort
                                undef)).
  reflexivity.
Qed.

Lemma Hist_reads_decay Exp thr sort undef p ps (st : Hist.state ED.t) :
  Hist_reads (H := ExpDecaySample_SampleFloat64 Exp thr sort undef) p ps st
  = hist_part (ED_reads sort undef p ps (Hist.sample st.2)).
Proof.
  cbv beta delta [Hist_reads Hist.Count Hist.Min Hist.Max Hist.Mean Hist.Sum
                    Hist.Variance Hist.StdDev Hist.Percentile
                    Hist.Percentiles].
  rewrite !(Hist_answer (H := ExpDecaySample_SampleFloat64 Exp thr sort
                                undef)).
  cbn [sample_Count sample_Min sample_Max sample_Mean sample_Sum
         sample_Variance sample_StdDev sample_Percentile sample_Percentiles
         ExpDecaySample_SampleFloat64].
  rewrite !answer_in_obj. reflexivity.
Qed.

(** The calls on a histogram are the calls on its sample. *)
Definition uniform_call_of (c : hist_call) : uniform_call :=
  match c with
  | HUpdate i x => UUpdate (raw i) x
  | HClear _ => UClear
  end.

Definition decay_call_of (c : hist_call) : decay_call :=
  match c with
  | HUpdate i x => DUpdate (now i) x (u i)
  | HClear i => DClear (now i)
  end.

Lemma Hist_calls_uniform growslice sort undef cs :
  forall st : Hist.state US.t,
    (after_calls
       (Hist_call (H := UniformSample_SampleFloat64 growslice sort undef))
       cs st).1
    = (after_calls (US_call growslice) (map uniform_call_of cs)
         (st.1, Hist.sample st.2)).1.
Proof.
  induction cs as [| c cs IH]; intros st; [reflexivity |].
  cbn [map].
  change (after_calls ?f (c :: cs) st)
    with (after_calls f cs (state_of (f c st))).
  change (after_calls ?f (uniform_call_of c :: ?l) ?s)
    with (after_calls f l (state_of (f (uniform_call_of c) s))).
  rewrite IH. do 2 f_equal.
  destruct c as [i x | i];
    cbn [Hist_call uniform_call_of US_call sample_Update sample_Clear
           UniformSample_SampleFloat64];
    cbv beta delta [Hist.Update Hist.Clear Hist.on_sample];
    cbn [sample_Update sample_Clear UniformSample_SampleFloat64];
    match goal with |- context [match ?o with _ => _ end] => destruct o end;
    cbn [state_of fst snd Hist.sample]; now destruct st0.
Qed.

Lemma Hist_calls_decay Exp thr sort undef cs :
  forall st : Hist.state ED.t,
    (after_calls
       (Hist_call (H := ExpDecaySample_SampleFloat64 Exp thr sort undef))
       cs st).1
    = (after_calls (ED_call Exp thr) (map decay_call_of cs)
         (st.1, Hist.sample st.2)).1.
Proof.
  induction cs as [| c cs IH]; intros st; [reflexivity |].
  cbn [map].
  change (after_calls ?f (c :: cs) st)
    with (after_calls f cs (state_of (f c st))).
  change (after_calls ?f (decay_call_of c :: ?l) ?s)
    with (after_calls f l (state_of (f (decay_call_of c) s))).
  rewrite IH. do 2 f_equal.
  destruct c as [i x | i];
    cbn [Hist_call decay_call_of ED_call sample_Update sample_Clear
           ExpDecaySample_SampleFloat64];
    cbv beta delta [Hist.Update Hist.Clear Hist.on_sample];
    cbn [sample_Update sample_Clear ExpDecaySample_SampleFloat64];
    match goal with |- context [match ?o with _ => _ end] => destruct o end;
    cbn [state_of fst snd Hist.sample]; now destruct st0.
Qed.

Lemma US_Snapshot_reads growslice sort undef p ps σ s cs :
  uniform_wf (σ, s) ->
  exists snap σ1,
    US.Snapshot (σ, s) = Done snap (σ1, s) /\
    snapshot_reads sort undef p ps (σ1, snap)
    = US_reads sort undef p ps (σ, s) /\
    snapshot_reads sort undef p ps
      ((after_calls (US_call growslice) cs (σ1, s)).1, snap)
    = snapshot_reads sort undef p ps (σ1, snap).
Proof.
  intros Hwf. assert (Hs := proj1 Hwf). cbn [fst snd] in Hs.
  assert (Hf := fresh_lookup σ).
  assert (Hne : Slice.ptr (US.values s) <> fresh (dom σ)).
  { destruct Hs as (a & Ha & _). congruence. }
  assert (Hsnap : slice_wf (Slice.mk (fresh (dom σ)) (Slice.len (US.values s)))
                    (<[fresh (dom σ) := Slice.elems (US.values s) σ]> σ)).
  { eexists. cbn [Slice.ptr Slice.len].
    split; [apply lookup_insert_eq |]. rewrite (elems_length _ _ Hs). lia. }
  eexists _, _. split; [apply (US_Snapshot_spec _ _ Hwf) |]. split.
  - rewrite (US_reads_of _ _ _ _ _ Hwf), snapshot_reads_of by exact Hsnap.
    cbn [fst snd Snap.values Snap.count]. unfold US_held. cbn [fst snd].
    now rewrite (elems_copy _ _ _ Hs).
  - apply snapshot_reads_frame; [exact Hsnap |].
    cbn [Snap.values Slice.ptr].
    rewrite (US_calls_frame growslice (fresh (dom σ))
               (Slice.elems (US.values s) σ)).
    + now rewrite mem_lookup_insert.
    + destruct Hwf as [(a & Ha & Hl) Hcap]. cbn [fst snd] in *.
      unfold uniform_wf, slice_wf, Slice.cap, Slice.array in *.
      cbn [fst snd]. rewrite mem_lookup_insert_ne by congruence.
      split; [now exists a | exact Hcap].
    + apply lookup_insert_eq.
    + exact Hne.
Qed.

Lemma ED_Snapshot_reads Exp thr sort undef p ps σ s cs :
  sample_wf s ->
  exists snap σ1,
    ED.Snapshot (σ, s) = Done snap (σ1, s) /\
    snapshot_reads sort undef p ps (σ1, snap) = ED_reads sort undef p ps s /\
    snapshot_reads sort undef p ps
      ((after_calls (ED_call Exp thr) cs (σ1, s)).1, snap)
    = snapshot_reads sort undef p ps (σ1, snap).
Proof.
  intros Hwf.
  eexists _, _. split; [apply ED_Snapshot_spec |]. split.
  - rewrite (ED_reads_of _ _ _ _ _ Hwf), snapshot_reads_of.
    + cbn [fst snd Snap.values Snap.count]. f_equal.
      unfold Slice.elems. array_insert. cbn [Slice.len].
      apply take_ge. rewrite length_map. lia.
    + eexists. cbn [fst snd Snap.values Slice.ptr Slice.len].
      split; [apply lookup_insert_eq |]. rewrite length_map. lia.
  - now rewrite ED_calls_frame.
Qed.

(** [Snapshot()] of a histogram over a uniform or a decay sample returns a
    snapshot that answers as the histogram did, and whose answers are not
    changed by any later [Update] and [Clear] on the histogram. *)
Theorem Histogram_Snapshot_isolated growslice Exp thr sort undef p ps
    (hu : Hist.state US.t) (hd : Hist.state ED.t) (cs : list hist_call) :
  uniform_wf (hu.1, Hist.sample hu.2) -> sample_wf (Hist.sample hd.2) ->
  (exists hs st1,
      Hist.Snapshot (H := UniformSample_SampleFloat64 growslice sort undef) hu
      = Done hs st1 /\
      HSnap_reads sort undef p ps (st1.1, hs)
      = Hist_reads (H := UniformSample_SampleFloat64 growslice sort undef)
          p ps hu /\
      HSnap_reads sort undef p ps
        ((after_calls
            (Hist_call (H := UniformSample_SampleFloat64 growslice sort undef))
            cs st1).1, hs)
      = HSnap_reads sort undef p ps (st1.1, hs)) /\
  (exists hs st1,
      Hist.Snapshot (H := ExpDecaySample_SampleFloat64 Exp thr sort undef) hd
      = Done hs st1 /\
      HSnap_reads sort undef p ps (st1.1, hs)
      = Hist_reads (H := ExpDecaySample_SampleFloat64 Exp thr sort undef)
          p ps hd /\
      HSnap_reads sort undef p ps
        ((after_calls
            (Hist_call (H := ExpDecaySample_SampleFloat64 Exp thr sort undef))
            cs st1).1, hs)
      = HSnap_reads sort undef p ps (st1.1, hs)).
Proof.
  intros Hu Hd. split.
  - destruct hu as [σ [s]]. cbn [fst snd Hist.sample] in Hu.
    destruct (US_Snapshot_reads growslice sort undef p ps σ s
                (map uniform_call_of cs) Hu)
      as (snap & σ1 & Hrun & Hsame & Hiso).
    exists (HSnap.mk snap), (σ1, Hist.mk s). split.
    { cbv beta delta [Hist.Snapshot Hist.on_sample]. unfold mbind, M_bind.
      cbn [fst snd Hist.sample sample_Snapshot UniformSample_SampleFloat64].
      now rewrite Hrun. }
    rewrite !HSnap_reads_part, Hist_reads_uniform, Hist_calls_uniform.
    cbn [fst snd Hist.sample HSnap.sample].
    split; [now rewrite Hsame | now rewrite Hiso].
  - destruct hd as [σ [s]]. cbn [fst snd Hist.sample] in Hd.
    destruct (ED_Snapshot_reads Exp thr sort undef p ps σ s
                (map decay_call_of cs) Hd)
      as (snap & σ1 & Hrun & Hsame & Hiso).
    exists (HSnap.mk snap), (σ1, Hist.mk s). split.
    { cbv beta delta [Hist.Snapshot Hist.on_sample]. unfold mbind, M_bind.
      cbn [fst snd Hist.sample sample_Snapshot ExpDecaySample_SampleFloat64].
      now rewrite Hrun. }
    rewrite !HSnap_reads_part, Hist_reads_decay, Hist_calls_decay.
    cbn [fst snd Hist.sample HSnap.sample].
    split; [now rewrite Hsame | now rewrite Hiso].
Qed.

Definition hist_calls_ex : list hist_call :=
  [HUpdate (mkInputs 5 13 0.5) 9; HClear (mkInputs 6 0 0.5);
   HUpdate (mkInputs 7 0 0.25) 1].

Lemma Histogram_Snapshot_isolated_witness :
  (exists hs st1,
      Hist.Snapshot (H := UniformSample_SampleFloat64 (Nat.mul 2) isort
                            min_int64)
        (uniform_ex.1, NewHistogramFloat64 uniform_ex.2)
      = Done hs st1 /\
      HSnap_reads isort min_int64 0.5 [0; 1]%float (st1.1, hs)
      = Hist_reads (H := UniformSample_SampleFloat64 (Nat.mul 2) isort
                           min_int64)
          0.5 [0; 1]%float (uniform_ex.1, NewHistogramFloat64 uniform_ex.2) /\
      HSnap_reads isort min_int64 0.5 [0; 1]%float
        ((after_calls
            (Hist_call (H := UniformSample_SampleFloat64 (Nat.mul 2) isort
                               min_int64))
            hist_calls_ex st1).1, hs)
      = HSnap_reads isort min_int64 0.5 [0; 1]%float (st1.1, hs)) /\
  (exists hs st1,
      Hist.Snapshot (H := ExpDecaySample_SampleFloat64 Exp_sat hour isort
                            min_int64)
        (∅, NewHistogramFloat64 sample_ex)
      = Done hs st1 /\
      HSnap_reads isort min_int64 0.5 [0; 1]%float (st1.1, hs)
      = Hist_reads (H := ExpDecaySample_SampleFloat64 Exp_sat hour isort
                           min_int64)
          0.5 [0; 1]%float (∅, NewHistogramFloat64 sample_ex) /\
      HSnap_reads isort min_int64 0.5 [0; 1]%float
        ((after_calls
            (Hist_call (H := ExpDecaySample_SampleFloat64 Exp_sat hour isort
                               min_int64))
            hist_calls_ex st1).1, hs)
      = HSnap_reads isort min_int64 0.5 [0; 1]%float (st1.1, hs)).
Proof.
  apply (Histogram_Snapshot_isolated (Nat.mul 2) Exp_sat hour isort min_int64
           0.5 [0; 1]%float
           (uniform_ex.1, NewHistogramFloat64 uniform_ex.2)
           (∅, NewHistogramFloat64 sample_ex) hist_calls_ex).
  - exact uniform_ex_wf.
  - exact sample_ex_wf.
Defined.

(** ** The heap inside the decay sample *)

Lemma update_insert_min_heap Exp s now x u :
  sample_wf s -> 1 <= ED.reservoirSize s ->
  is_min_heap (ED.values s) -> heap_no_nan (ED.values s) ->
  F64.ordered (priority Exp s now u) ->
  exists s',
    ED.update_insert Exp now x u s = Done tt s' /\
    is_min_heap (ED.values s') /\ heap_no_nan (ED.values s').
Proof.
  destruct s as [al c rs e0 e1 h]. unfold sample_wf, priority.
  cbn [ED.values ED.reservoirSize ED.alpha ED.count ED.t0 ED.t1].
  intros [[Hlen Hmax] Hcap] Hrs Hheap Hnan Hnew.
  unfold ED.update_insert, mbind, M_bind, get, put, mret, M_ret,
    ED.on_values, Heap.Size, ED.with_count, ED.with_values.
  cbn [ED.values ED.reservoirSize ED.alpha ED.count ED.t0 ED.t1].
  set (new := mkSample (Exp (Seconds (Sub now e0) * al) / u)%float x) in *.
  destruct (decide (Heap.len h = Heap.cap h)) as [Efull|Nfull].
  - replace (Z.of_nat (Heap.len h) =? rs) with true
      by (symmetry; apply Z.eqb_eq; lia).
    destruct (Pop_spec h) as (a1 & Hpop & Hlen1 & _ & _ & Hord1);
      [lia | split; assumption |].
    destruct (Hord1 Hnan Hheap) as (Hheap1 & Hnan1 & _).
    cbn [ED.values ED.reservoirSize ED.alpha ED.count ED.t0 ED.t1].
    rewrite Hpop.
    cbn [ED.values ED.reservoirSize ED.alpha ED.count ED.t0 ED.t1].
    fold new.
    destruct (Push_spec new (Heap.mk a1 (pred (Heap.len h))))
      as (a2 & Hpush & _ & _ & _ & Hord2).
    { unfold Heap.cap. cbn [Heap.s Heap.len]. rewrite Hlen1. lia. }
    rewrite Hpush. eexists. split; [reflexivity |].
    cbn [ED.values]. exact (Hord2 Hnan1 Hnew Hheap1).
  - replace (Z.of_nat (Heap.len h) =? rs) with false
      by (symmetry; apply Z.eqb_neq; lia).
    cbn [ED.values ED.reservoirSize ED.alpha ED.count ED.t0 ED.t1].
    fold new.
    destruct (Push_spec new h) as (a2 & Hpush & _ & _ & _ & Hord2); [lia |].
    rewrite Hpush. eexists. split; [reflexivity |].
    cbn [ED.values]. exact (Hord2 Hnan Hnew Hheap).
Qed.

(** An update of a decay sample before the deadline keeps the heap a
    min-heap with no NaN priority, when the priority of the new item is not
    NaN: the eviction of [Pop] and the insertion of [Push], one after the
    other, leave every parent's priority at most its children's. *)
Theorem update_keeps_min_heap Exp thr s now x u :
  sample_wf s -> 1 <= ED.reservoirSize s -> now <= ED.t1 s ->
  is_min_heap (ED.values s) -> heap_no_nan (ED.values s) ->
  F64.ordered (priority Exp s now u) ->
  exists s',
    ED.update Exp thr now x u s = Done tt s' /\
    is_min_heap (ED.values s') /\ heap_no_nan (ED.values s').
Proof.
  intros Hwf Hrs Hnow Hheap Hnan Hnew.
  destruct (update_insert_min_heap Exp s now x u Hwf Hrs Hheap Hnan Hnew)
    as (s' & Hins & Hheap' & Hnan').
  exists s'. split; [| split; assumption].
  rewrite (update_unfold _ _ _ _ _ _ _ Hins). unfold After.
  destruct (update_insert_spec Exp s now x u Hwf Hrs) as (h1 & Hins1 & _).
  rewrite Hins in Hins1. injection Hins1 as ->. cbn [ED.t1].
  destruct (Z.ltb_spec (ED.t1 s) now); [lia | reflexivity].
Qed.

Lemma sample_full_ex_min_heap :
  is_min_heap (ED.values sample_full_ex) /\
  heap_no_nan (ED.values sample_full_ex).
Proof.
  split; intros c Hc; cbn in Hc.
  - assert (c = 1 \/ c = 2 \/ c = 3)%nat as [-> | [-> | ->]] by lia;
      vm_compute; reflexivity.
  - assert (c = 0 \/ c = 1 \/ c = 2 \/ c = 3)%nat
      as [-> | [-> | [-> | ->]]] by lia;
      vm_compute; reflexivity.
Qed.

Lemma update_keeps_min_heap_witness :
  exists s',
    ED.update Exp_sat hour 0 50 0.5 sample_full_ex = Done tt s' /\
    is_min_heap (ED.values s') /\ heap_no_nan (ED.values s').
Proof.
  apply (update_keeps_min_heap Exp_sat hour sample_full_ex 0 50 0.5).
  - exact sample_full_ex_wf.
  - cbn. lia.
  - vm_compute. discriminate.
  - exact (proj1 sample_full_ex_min_heap).
  - exact (proj2 sample_full_ex_min_heap).
  - vm_compute. reflexivity.
Defined.
